(** * Animation retargeting of the avatar viewer

    A shallow embedding of the retargeting functions of
    [client/src/components/AvatarViewer.tsx]: [findSkinnedMesh],
    [findBoneByName], [buildBoneNameMap], [applyTPoseCorrection],
    [restoreAPose], [createHandCorrectionQuaternions] and
    [retargetAnimationClip], together with the parts of three.js they call
    ([Object3D.traverse], [Quaternion], [KeyframeTrack], [AnimationClip]),
    and of the callbacks of the component that load and play the
    animations.

    Conventions of the embedding:
    - JavaScript numbers are an abstract type [F] with the operations the
      code uses (class [Float64]); no algebraic law is assumed of them, so
      every theorem holds for IEEE doubles in particular. Instances are
      computed in binary64, or in integers where that is enough.
    - A [Record<string, string>] and the hand-correction table are plain
      objects: the [gmap] of their own properties, read through
      [Object.prototype] as [obj[key]] does ([Record_get]).
    - A JavaScript [Map] iterates in insertion order: an association list.
    - A skeleton is the sequence of its bones; a bone is identified by its
      position in that sequence, and the in-place mutation of a bone is an
      update of the sequence at that position.
    - [console.warn] and [console.error] are a list of diagnostics;
      [console.log] output is not modelled. *)

From stdpp Require Import base option list strings gmap.
From Stdlib Require Import Ascii ZArith PrimFloat SpecFloat FloatOps.

(** ** JavaScript numbers *)

Class Float64 (F : Type) := {
  fadd : F -> F -> F;
  fsub : F -> F -> F;
  fmul : F -> F -> F;
  fdiv : F -> F -> F;
  fneg : F -> F;
  (** [Math.max], [Math.sin], [Math.cos] *)
  fmax : F -> F -> F;
  fsin : F -> F;
  fcos : F -> F;
  (** [===] and [<] on numbers *)
  feqb : F -> F -> bool;
  fltb : F -> F -> bool;
  (** a store into a [Float32Array] rounds to single precision *)
  fround : F -> F;
  (** the literals [0], [1], [2], [40], [180], [0.3], [Math.PI], and [NaN],
      which is what [undefined] converts to in arithmetic *)
  f0 : F;
  f1 : F;
  f2 : F;
  f40 : F;
  f180 : F;
  f0_3 : F;
  PI : F;
  NaN : F
}.

(** Exact integer arithmetic, to run the definitions on concrete inputs
    where names, counts and half turns are all that matters. Angles are
    counted in quarter turns, where sine and cosine are exact; [0.3] and
    the offset of 40 degrees have no counterpart there (both come out as
    [0]), so what involves the pose correction is computed in binary64,
    below. *)
Definition Z_sin (k : Z) : Z :=
  match (k mod 4)%Z with
  | 1%Z => 1%Z
  | 3%Z => (-1)%Z
  | _ => 0%Z
  end.

Definition Z_cos (k : Z) : Z :=
  match (k mod 4)%Z with
  | 0%Z => 1%Z
  | 2%Z => (-1)%Z
  | _ => 0%Z
  end.

#[export] Instance Z_Float64 : Float64 Z := {|
  fadd := Z.add;
  fsub := Z.sub;
  fmul := Z.mul;
  fdiv := Z.div;
  fneg := Z.opp;
  fmax := Z.max;
  fsin := Z_sin;
  fcos := Z_cos;
  feqb := Z.eqb;
  fltb := Z.ltb;
  fround := fun x => x;
  f0 := 0%Z;
  f1 := 1%Z;
  f2 := 2%Z;
  f40 := 40%Z;
  f180 := 180%Z;
  f0_3 := 0%Z;
  PI := 2%Z;
  NaN := 0%Z
|}.

(** The numbers of JavaScript themselves: IEEE binary64, on the kernel's
    floats, with [===], [<] and the arithmetic of the standard. [Math.sin]
    and [Math.cos] are implementation-approximated in JavaScript; here
    they are their Taylor polynomials of degree 23 and 22 in Horner form,
    without range reduction, good for the arguments up to a quarter turn
    that this file uses. *)
Definition Math_series (x2 : float) (denominators : list float) : float :=
  foldr (fun d rest => PrimFloat.sub 1 (PrimFloat.mul (PrimFloat.div x2 d) rest))
    1%float denominators.

Definition Math_sin (x : float) : float :=
  PrimFloat.mul x
    (Math_series (PrimFloat.mul x x)
       [6; 20; 42; 72; 110; 156; 210; 272; 342; 420; 506]%float).

Definition Math_cos (x : float) : float :=
  Math_series (PrimFloat.mul x x)
    [2; 12; 30; 56; 90; 132; 182; 240; 306; 380; 462]%float.

(** [Math.max] of two numbers: [NaN] when one of them is, and [+0] above
    [-0]. *)
Definition Math_max (a b : float) : float :=
  if PrimFloat.is_nan a || PrimFloat.is_nan b then PrimFloat.nan
  else if PrimFloat.ltb a b then b
  else if PrimFloat.ltb b a then a
  else if PrimFloat.get_sign a then b
  else a.

(** [Math.fround]: the nearest binary32 number, ties to even. *)
Definition Math_fround (x : float) : float :=
  match Prim2SF x with
  | S754_finite s m e =>
      SF2Prim (binary_normalize 24 128 (cond_Zopp s (Zpos m)) e s)
  | _ => x
  end.

#[export] Instance binary64_Float64 : Float64 float := {|
  fadd := PrimFloat.add;
  fsub := PrimFloat.sub;
  fmul := PrimFloat.mul;
  fdiv := PrimFloat.div;
  fneg := PrimFloat.opp;
  fmax := Math_max;
  fsin := Math_sin;
  fcos := Math_cos;
  feqb := PrimFloat.eqb;
  fltb := PrimFloat.ltb;
  fround := Math_fround;
  f0 := 0%float;
  f1 := 1%float;
  f2 := 2%float;
  f40 := 40%float;
  f180 := 180%float;
  f0_3 := 0x1.3333333333333p-2%float;
  PI := 0x1.921fb54442d18p+1%float;
  NaN := PrimFloat.nan
|}.

(** ** Strings *)

Module Str.

(** [s.lastIndexOf(c)] for a one-character [c]; [None] is [-1]. *)
Fixpoint lastIndexOf (c : ascii) (s : string) : option nat :=
  match s with
  | EmptyString => None
  | String a r =>
      match lastIndexOf c r with
      | Some i => Some (S i)
      | None => if Ascii.eqb a c then Some 0 else None
      end
  end.

(** [s.substring(0, n)] *)
Fixpoint take (n : nat) (s : string) : string :=
  match n, s with
  | S n', String a r => String a (take n' r)
  | _, _ => EmptyString
  end.

(** [s.substring(n)] *)
Fixpoint drop (n : nat) (s : string) : string :=
  match n, s with
  | S n', String _ r => drop n' r
  | _, _ => s
  end.

(** [s.startsWith(p)] *)
Fixpoint startsWith (p s : string) : bool :=
  match p, s with
  | EmptyString, _ => true
  | String a p', String b s' => Ascii.eqb a b && startsWith p' s'
  | String _ _, EmptyString => false
  end.

(** the rest of [s] after the prefix [p], when [s] starts with [p] *)
Fixpoint afterPrefix (p s : string) : option string :=
  match p, s with
  | EmptyString, _ => Some s
  | String a p', String b s' =>
      if Ascii.eqb a b then afterPrefix p' s' else None
  | String _ _, EmptyString => None
  end.

(** the optional [:] of the pattern [:?] (greedy) *)
Definition dropColon (s : string) : string :=
  match s with
  | String ":"%char r => r
  | _ => s
  end.

(** does the one-character [c] occur in [s] *)
Fixpoint contains (c : ascii) (s : string) : bool :=
  match s with
  | EmptyString => false
  | String a r => Ascii.eqb a c || contains c r
  end.

End Str.

(** [boneName.replace(/^mixamorig:?/, '')]: the pattern is anchored and not
    global, so one leading occurrence is replaced. *)
Definition mixamoPrefix : string := "mixamorig".

Definition stripMixamoPrefix (boneName : string) : string :=
  match Str.afterPrefix mixamoPrefix boneName with
  | Some rest => Str.dropColon rest
  | None => boneName
  end.

(** [track.name] split at its last [.] into bone name and property. *)
Definition parseTrackName (name : string) : option (string * string) :=
  match Str.lastIndexOf "."%char name with
  | None => None
  | Some dotIndex => Some (Str.take dotIndex name, Str.drop (dotIndex + 1) name)
  end.

(** ** Scene graph *)

(** The classes of scene nodes that the viewer meets; [instanceof
    THREE.SkinnedMesh] holds of [SkinnedMeshClass] alone. *)
Inductive ObjectClass :=
  | Object3DClass
  | GroupClass
  | BoneClass
  | MeshClass
  | SkinnedMeshClass.

(** [THREE.Object3D]: a node with its [children] in their order. [uuid]
    tells nodes apart. *)
#[warnings="-register-all"] Inductive Object3D :=
  | mkObject3D (cls : ObjectClass) (uuid : nat) (children : list Object3D).

Definition object_class (o : Object3D) : ObjectClass :=
  match o with mkObject3D c _ _ => c end.

Definition object_children (o : Object3D) : list Object3D :=
  match o with mkObject3D _ _ ch => ch end.

Definition instanceofSkinnedMesh (o : Object3D) : bool :=
  match object_class o with
  | SkinnedMeshClass => true
  | _ => false
  end.

(** [Object3D.traverse(callback)]: the callback runs on the node, then each
    child is traversed, in order. The callback's effect on the variables it
    closes over is the state [S]. *)
Fixpoint traverse {S : Type} (callback : Object3D -> S -> S)
    (object : Object3D) (s : S) : S :=
  match object with
  | mkObject3D _ _ children =>
      (fix each (l : list Object3D) (s : S) : S :=
         match l with
         | [] => s
         | child :: rest => each rest (traverse callback child s)
         end) children (callback object s)
  end.

(** The callback of [findSkinnedMesh] assigns the local [result] only. *)
Definition findSkinnedMesh (object : Object3D) : option Object3D :=
  traverse
    (fun child result =>
       if instanceofSkinnedMesh child && negb (bool_decide (is_Some result))
       then Some child else result)
    object None.

(** The nodes under a root in pre-order, children in their defined order. *)
Fixpoint preorder (o : Object3D) : list Object3D :=
  match o with
  | mkObject3D _ _ children =>
      o :: (fix each (l : list Object3D) : list Object3D :=
              match l with
              | [] => []
              | child :: rest => preorder child ++ each rest
              end) children
  end.

(** ** Diagnostics *)

Inductive Diagnostic :=
  (** [console.warn] of [applyTPoseCorrection]: bone not found *)
  | WarnBoneNotFound (name : string)
  (** [console.warn] of [retargetAnimationClip]: invalid track name format *)
  | WarnInvalidTrackName (trackName : string)
  (** [console.error] of the [catch] around one track *)
  | ErrorProcessingTrack (trackName : string)
  (** [console.error]: no tracks created for the animation *)
  | ErrorNoTracks (animationName : string).

(** ** JavaScript containers *)

(** [Map.prototype.set]: an existing key keeps its place. *)
Fixpoint Map_set {V : Type} (k : string) (v : V) (m : list (string * V))
    : list (string * V) :=
  match m with
  | [] => [(k, v)]
  | (k', v') :: rest =>
      if decide (k' = k) then (k, v) :: rest else (k', v') :: Map_set k v rest
  end.

(** [Set.prototype.add] on a set kept in insertion order, and
    [if (!arr.includes(x)) arr.push(x)]. *)
Definition pushUnique {A : Type} `{EqDecision A} (x : A) (l : list A)
    : list A :=
  if decide (x ∈ l) then l else l ++ [x].

(** ** Plain objects used as maps

    [map] of [buildBoneNameMap], [boneNameMap] and [handBoneCorrections] are
    object literals, so their prototype is [Object.prototype]. Such an
    object is the [gmap] of its own properties; [obj[key]] finds an own
    property and, failing that, the member of [Object.prototype] of that
    name. *)

(** The property names of [Object.prototype]. *)
Definition Object_prototype : list string :=
  ["constructor"; "__defineGetter__"; "__defineSetter__"; "hasOwnProperty";
   "__lookupGetter__"; "__lookupSetter__"; "isPrototypeOf";
   "propertyIsEnumerable"; "toString"; "valueOf"; "__proto__";
   "toLocaleString"].

(** What [obj[key]] evaluates to when it is not [undefined]: the value of
    an own property, or the member of [Object.prototype] named [key] (a
    built-in function; for [__proto__], the prototype object itself). Two
    inherited members are the same object exactly when they have the same
    name. *)
Inductive Property (V : Type) :=
  | Own (value : V)
  | Inherited (key : string).

Arguments Own {V} value.
Arguments Inherited {V} key.

#[global] Instance Property_eq_dec {V : Type} `{EqDecision V}
    : EqDecision (Property V).
Proof. solve_decision. Defined.

(** [obj[key]]; [None] is [undefined]. *)
Definition Record_get {V : Type} (obj : gmap string V) (key : string)
    : option (Property V) :=
  match obj !! key with
  | Some value => Some (Own value)
  | None =>
      if decide (key ∈ Object_prototype) then Some (Inherited key) else None
  end.

(** [obj[key] = value] for a string [value]: the key [__proto__] reaches
    the setter of [Object.prototype], which ignores a value that is not an
    object; every other key becomes an own property. *)
Definition Record_set (key value : string) (obj : gmap string string)
    : gmap string string :=
  if decide (key = "__proto__") then obj else <[key := value]> obj.

(** The text of a built-in function, as V8 and JavaScriptCore print it. *)
Definition nativeFunction (name : string) : string :=
  "function " +:+ name +:+ "() { [native code] }".

(** The conversion to a string, in a template literal and as a property
    key, of what a lookup in a [Record<string, string>] gave: a string is
    itself, an inherited function is its text ([constructor] is the
    function [Object]), and [Object.prototype] is [[object Object]]. *)
Definition toString (value : Property string) : string :=
  match value with
  | Own s => s
  | Inherited key =>
      if decide (key = "__proto__") then "[object Object]"
      else if decide (key = "constructor") then nativeFunction "Object"
      else nativeFunction key
  end.

Section Model.
Context {F : Type} `{Float64 F}.

(** ** Quaternions (three.js [Quaternion]) *)

Record Vector3 := mkVector3 { vx : F; vy : F; vz : F }.

Record Quaternion := mkQuaternion { qx : F; qy : F; qz : F; qw : F }.

(** [new THREE.Quaternion()] *)
Definition identityQuaternion : Quaternion := mkQuaternion f0 f0 f0 f1.

(** [multiplyQuaternions(a, b)] *)
Definition multiplyQuaternions (a b : Quaternion) : Quaternion :=
  let qax := qx a in let qay := qy a in let qaz := qz a in let qaw := qw a in
  let qbx := qx b in let qby := qy b in let qbz := qz b in let qbw := qw b in
  mkQuaternion
    (fsub (fadd (fadd (fmul qax qbw) (fmul qaw qbx)) (fmul qay qbz)) (fmul qaz qby))
    (fsub (fadd (fadd (fmul qay qbw) (fmul qaw qby)) (fmul qaz qbx)) (fmul qax qbz))
    (fsub (fadd (fadd (fmul qaz qbw) (fmul qaw qbz)) (fmul qax qby)) (fmul qay qbx))
    (fsub (fsub (fsub (fmul qaw qbw) (fmul qax qbx)) (fmul qay qby)) (fmul qaz qbz)).

(** [this.multiply(q)] is [this * q]; [this.premultiply(q)] is [q * this]. *)
Definition multiply (this q : Quaternion) : Quaternion :=
  multiplyQuaternions this q.

Definition premultiply (this q : Quaternion) : Quaternion :=
  multiplyQuaternions q this.

(** [setFromAxisAngle(axis, angle)] *)
Definition setFromAxisAngle (axis : Vector3) (angle : F) : Quaternion :=
  let halfAngle := fdiv angle f2 in
  let s := fsin halfAngle in
  mkQuaternion (fmul (vx axis) s) (fmul (vy axis) s) (fmul (vz axis) s)
    (fcos halfAngle).

(** [this.equals(quaternion)]: componentwise [===] *)
Definition equals (this quaternion : Quaternion) : bool :=
  feqb (qx quaternion) (qx this) && feqb (qy quaternion) (qy this)
  && feqb (qz quaternion) (qz this) && feqb (qw quaternion) (qw this).

(** [THREE.MathUtils.degToRad] *)
Definition degToRad (degrees : F) : F := fmul degrees (fdiv PI f180).

Definition APOSE_TO_TPOSE_OFFSET : F := degToRad f40.

(** ** Skeletons *)

(** A bone with its name and local rotation (position and scale are not
    touched by the code). *)
Record Bone := mkBone { bone_name : string; quaternion : Quaternion }.

(** [skeleton.bones], in order. *)
Abbreviation Skeleton := (list Bone) (only parsing).

(** [skeleton.bones.find(b => b.name === name)], with the position of the
    bone found. *)
Definition findBoneByName (skeleton : Skeleton) (name : string)
    : option (nat * Bone) :=
  list_find (fun b => bone_name b = name) skeleton.

Arguments findBoneByName : simpl never.

(** ** Tracks and clips *)

Inductive TrackClass :=
  | KeyframeTrackClass
  | NumberKeyframeTrack
  | VectorKeyframeTrack
  | QuaternionKeyframeTrack
  | BooleanKeyframeTrack
  | StringKeyframeTrack
  | ColorKeyframeTrack.

Record KeyframeTrack := mkKeyframeTrack {
  track_class : TrackClass;
  track_name : string;
  times : list F;
  values : list F
}.

(** The [KeyframeTrack] constructor throws when there is no keyframe; the
    buffers handed to it are already typed arrays and are kept as they are. *)
Definition newKeyframeTrack (cls : TrackClass) (name : string)
    (times values : list F) : option KeyframeTrack :=
  match times with
  | [] => None
  | _ => Some (mkKeyframeTrack cls name times values)
  end.

Record AnimationClip := mkAnimationClip {
  clip_name : string;
  duration : F;
  tracks : list KeyframeTrack
}.

(** [track.times[track.times.length - 1]] *)
Definition lastTime (track : KeyframeTrack) : F :=
  default NaN (last (times track)).

(** [AnimationClip.resetDuration] *)
Definition resetDuration (tracks : list KeyframeTrack) : F :=
  foldl (fun duration track => fmax duration (lastTime track)) f0 tracks.

(** The [AnimationClip] constructor computes the duration from the tracks
    when it is handed a negative one. *)
Definition newAnimationClip (name : string) (duration : F)
    (tracks : list KeyframeTrack) : AnimationClip :=
  mkAnimationClip name
    (if fltb duration f0 then resetDuration tracks else duration) tracks.

(** ** Bone name resolver *)

(** The bone names of a clip's tracks: the part of each track name before
    its last [.], collected in a [Set] and listed in insertion order. *)
Definition boneNamesOfClip (animationClip : AnimationClip) : list string :=
  foldl
    (fun boneNameSet track =>
       match Str.lastIndexOf "."%char (track_name track) with
       | Some dotIndex =>
           pushUnique (Str.take dotIndex (track_name track)) boneNameSet
       | None => boneNameSet
       end)
    [] (tracks animationClip).

Definition sourceBoneNames (sourceSkeleton : option Skeleton)
    (animationClip : option AnimationClip) : list string :=
  match sourceSkeleton, animationClip with
  | Some skeleton, _ => bone_name <$> skeleton
  | None, Some clip => boneNamesOfClip clip
  | None, None => []
  end.

Definition targetBoneNames (targetSkeleton : Skeleton) : gset string :=
  list_to_set (bone_name <$> targetSkeleton).

(** The loop of [buildBoneNameMap] over the source bone names. *)
Definition mapBoneNames (targetNames : gset string) (sourceNames : list string)
    : gmap string string :=
  foldl
    (fun map boneName =>
       let mappedName := stripMixamoPrefix boneName in
       if decide (mappedName ∈ targetNames)
       then Record_set boneName mappedName map
       else map)
    ∅ sourceNames.

Definition buildBoneNameMap (sourceSkeleton : option Skeleton)
    (targetSkeleton : Skeleton) (animationClip : option AnimationClip)
    : gmap string string :=
  mapBoneNames (targetBoneNames targetSkeleton)
    (sourceBoneNames sourceSkeleton animationClip).

(** ** Rest-pose corrector *)

Definition armBones : list (string * F) :=
  [ ("LeftUpperArm", APOSE_TO_TPOSE_OFFSET);
    ("RightUpperArm", fneg APOSE_TO_TPOSE_OFFSET);
    ("LeftShoulder", fmul APOSE_TO_TPOSE_OFFSET f0_3);
    ("RightShoulder", fmul (fneg APOSE_TO_TPOSE_OFFSET) f0_3) ].

(** The skeleton as mutated so far, the [Map] of saved rotations and the
    warnings. *)
Record TPoseState := mkTPoseState {
  tp_skeleton : Skeleton;
  originalRotations : list (string * Quaternion);
  tp_console : list Diagnostic
}.

(** [bone.quaternion = q], in place. *)
Definition setQuaternion (skeleton : Skeleton) (i : nat) (bone : Bone)
    (q : Quaternion) : Skeleton :=
  <[i := mkBone (bone_name bone) q]> skeleton.

(** One turn of the loop over [armBones]. *)
Definition correctArmBone (st : TPoseState) (entry : string * F) : TPoseState :=
  let '(name, angle) := entry in
  match findBoneByName (tp_skeleton st) name with
  | Some (i, bone) =>
      let correctionQuat := setFromAxisAngle (mkVector3 f0 f0 f1) angle in
      mkTPoseState
        (setQuaternion (tp_skeleton st) i bone
           (premultiply (quaternion bone) correctionQuat))
        (Map_set name (quaternion bone) (originalRotations st))
        (tp_console st)
  | None =>
      mkTPoseState (tp_skeleton st) (originalRotations st)
        (tp_console st ++ [WarnBoneNotFound name])
  end.

(** [applyTPoseCorrection]; the world matrices that
    [updateMatrixWorld] recomputes are derived data and not part of the
    state. *)
Definition applyTPoseCorrection (skeleton : Skeleton) : TPoseState :=
  foldl correctArmBone (mkTPoseState skeleton [] []) armBones.

(** One turn of the loop of [restoreAPose]. *)
Definition restoreBone (skeleton : Skeleton) (entry : string * Quaternion)
    : Skeleton :=
  let '(name, quat) := entry in
  match findBoneByName skeleton name with
  | Some (i, bone) => setQuaternion skeleton i bone quat
  | None => skeleton
  end.

Definition restoreAPose (skeleton : Skeleton)
    (originalRotations : list (string * Quaternion)) : Skeleton :=
  foldl restoreBone skeleton originalRotations.

(** ** Axis correction table *)

Record HandCorrections := mkHandCorrections {
  hc_left : Quaternion;
  hc_right : Quaternion
}.

Definition createHandCorrectionQuaternions : HandCorrections :=
  let xFlip := setFromAxisAngle (mkVector3 f1 f0 f0) PI in
  let yFlip := setFromAxisAngle (mkVector3 f0 f1 f0) PI in
  let zFlip := setFromAxisAngle (mkVector3 f0 f0 f1) PI in
  let leftHandCorrection := xFlip in
  let rightHandCorrection := xFlip in
  mkHandCorrections leftHandCorrection rightHandCorrection.

Definition handBoneCorrections : gmap string Quaternion :=
  let handCorrections := createHandCorrectionQuaternions in
  <["RightForeArm" := identityQuaternion]>
    (<["LeftForeArm" := identityQuaternion]>
       (<["RightHand" := hc_right handCorrections]>
          (<["LeftHand" := hc_left handCorrections]> ∅))).

(** ** Track retargeter *)

(** The loop that fills [correctedValues]: four values at a time are read
    as a quaternion, multiplied by the correction on the right, and stored.
    A read past the end of [values] gives [undefined], for which the
    [Quaternion] constructor takes its default ([0] for [y] and [z], [1]
    for [w]); a store past the end of [correctedValues] is dropped. *)
Fixpoint correctValues (handCorrection : Quaternion) (values : list F)
    : list F :=
  match values with
  | [] => []
  | [x] =>
      let correctedQuat := multiply (mkQuaternion x f0 f0 f1) handCorrection in
      [fround (qx correctedQuat)]
  | [x; y] =>
      let correctedQuat := multiply (mkQuaternion x y f0 f1) handCorrection in
      [fround (qx correctedQuat); fround (qy correctedQuat)]
  | [x; y; z] =>
      let correctedQuat := multiply (mkQuaternion x y z f1) handCorrection in
      [fround (qx correctedQuat); fround (qy correctedQuat);
       fround (qz correctedQuat)]
  | x :: y :: z :: w :: rest =>
      let correctedQuat := multiply (mkQuaternion x y z w) handCorrection in
      fround (qx correctedQuat) :: fround (qy correctedQuat)
      :: fround (qz correctedQuat) :: fround (qw correctedQuat)
      :: correctValues handCorrection rest
  end.

(** [handBoneCorrections[mappedBoneName]] and, from it,
    [handCorrection && !handCorrection.equals(new THREE.Quaternion()) &&
    property === 'quaternion'], with the correction when it holds. The
    outer [None] is the [TypeError] of [handCorrection.equals(...)] when the
    lookup finds a member of [Object.prototype], which has no [equals]. *)
Definition needsHandCorrection (mappedBoneName : Property string)
    (property : string) : option (option Quaternion) :=
  match Record_get handBoneCorrections (toString mappedBoneName) with
  | None => Some None
  | Some (Inherited _) => None
  | Some (Own handCorrection) =>
      Some (if negb (equals handCorrection identityQuaternion)
               && bool_decide (property = "quaternion")
            then Some handCorrection
            else None)
  end.

(** The variables of [retargetAnimationClip] that its loop updates. The
    two lists that [mappedBoneName] is pushed to hold what the lookup
    gave. *)
Record RetargetState := mkRetargetState {
  newTracks : list KeyframeTrack;
  processedBones : list (Property string);
  skippedBones : list string;
  handCorrectedBones : list (Property string);
  rt_console : list Diagnostic
}.

(** The statements of the [try] block after the track name is built;
    [None] is a throw, of [handCorrection.equals] or of the track
    constructor, before any push. *)
Definition emitTrack (st : RetargetState) (track : KeyframeTrack)
    (mappedBoneName : Property string) (property : string)
    : option RetargetState :=
  let newTrackName := toString mappedBoneName +:+ "." +:+ property in
  needed ← needsHandCorrection mappedBoneName property;
  match needed with
  | Some handCorrection =>
      let correctedValues := correctValues handCorrection (values track) in
      newTrack ← newKeyframeTrack QuaternionKeyframeTrack newTrackName
                   (times track) correctedValues;
      Some (mkRetargetState
              (newTracks st ++ [newTrack])
              (pushUnique mappedBoneName (processedBones st))
              (skippedBones st)
              (handCorrectedBones st ++ [mappedBoneName])
              (rt_console st))
  | None =>
      newTrack ← newKeyframeTrack (track_class track) newTrackName
                   (times track) (values track);
      Some (mkRetargetState
              (newTracks st ++ [newTrack])
              (pushUnique mappedBoneName (processedBones st))
              (skippedBones st)
              (handCorrectedBones st)
              (rt_console st))
  end.

(** One turn of the loop over [clip.tracks]: the [try] block and its
    [catch]. [!mappedBoneName] holds of [undefined] and of the empty
    string. *)
Definition retargetTrack (boneNameMap : gmap string string)
    (st : RetargetState) (track : KeyframeTrack) : RetargetState :=
  match Str.lastIndexOf "."%char (track_name track) with
  | None =>
      mkRetargetState (newTracks st) (processedBones st) (skippedBones st)
        (handCorrectedBones st)
        (rt_console st ++ [WarnInvalidTrackName (track_name track)])
  | Some dotIndex =>
      let boneName := Str.take dotIndex (track_name track) in
      let property := Str.drop (dotIndex + 1) (track_name track) in
      match Record_get boneNameMap boneName with
      | None | Some (Own "") =>
          mkRetargetState (newTracks st) (processedBones st)
            (pushUnique boneName (skippedBones st))
            (handCorrectedBones st) (rt_console st)
      | Some mappedBoneName =>
          if bool_decide (property = "position")
             || bool_decide (property = "scale")
          then st
          else
            match emitTrack st track mappedBoneName property with
            | Some st' => st'
            | None =>
                mkRetargetState (newTracks st) (processedBones st)
                  (skippedBones st) (handCorrectedBones st)
                  (rt_console st ++ [ErrorProcessingTrack (track_name track)])
            end
      end
  end.

(** [retargetAnimationClip], with what it wrote to the console. *)
Definition retargetAnimationClip (clip : AnimationClip)
    (boneNameMap : gmap string string) (animationName : string)
    : AnimationClip * list Diagnostic :=
  let st := foldl (retargetTrack boneNameMap)
              (mkRetargetState [] [] [] [] []) (tracks clip) in
  let console :=
    match newTracks st with
    | [] => rt_console st ++ [ErrorNoTracks animationName]
    | _ => rt_console st
    end in
  (newAnimationClip
     (if bool_decide (clip_name clip = "") then animationName
      else clip_name clip)
     (duration clip) (newTracks st),
   console).

(** What the [try] block of one turn of the loop does with a track, as a
    function of the track alone. *)
Inductive TrackOutcome :=
  (** no [.] in the name: warning, [continue] *)
  | InvalidName
  (** no usable entry for the bone: entered in [skippedBones], [continue] *)
  | Unmapped (boneName : string)
  (** a position or scale track: [continue] *)
  | Dropped
  (** a throw, caught and reported *)
  | Thrown
  (** the track pushed to [newTracks], what the lookup gave for its bone,
      and whether the values were corrected *)
  | Emitted (newTrack : KeyframeTrack) (mappedBoneName : Property string)
      (corrected : bool).

Definition trackOutcome (boneNameMap : gmap string string)
    (track : KeyframeTrack) : TrackOutcome :=
  match parseTrackName (track_name track) with
  | None => InvalidName
  | Some (boneName, property) =>
      match Record_get boneNameMap boneName with
      | None | Some (Own "") => Unmapped boneName
      | Some mappedBoneName =>
          if bool_decide (property = "position")
             || bool_decide (property = "scale") then Dropped
          else
            let newTrackName := toString mappedBoneName +:+ "." +:+ property in
            match needsHandCorrection mappedBoneName property with
            | None => Thrown
            | Some (Some handCorrection) =>
                match newKeyframeTrack QuaternionKeyframeTrack newTrackName
                        (times track)
                        (correctValues handCorrection (values track)) with
                | Some newTrack => Emitted newTrack mappedBoneName true
                | None => Thrown
                end
            | Some None =>
                match newKeyframeTrack (track_class track) newTrackName
                        (times track) (values track) with
                | Some newTrack => Emitted newTrack mappedBoneName false
                | None => Thrown
                end
            end
      end
  end.

(** What one turn of the loop does to its variables, by outcome. *)
Definition recordOutcome (st : RetargetState) (track : KeyframeTrack)
    (outcome : TrackOutcome) : RetargetState :=
  match outcome with
  | InvalidName =>
      mkRetargetState (newTracks st) (processedBones st) (skippedBones st)
        (handCorrectedBones st)
        (rt_console st ++ [WarnInvalidTrackName (track_name track)])
  | Unmapped boneName =>
      mkRetargetState (newTracks st) (processedBones st)
        (pushUnique boneName (skippedBones st))
        (handCorrectedBones st) (rt_console st)
  | Dropped => st
  | Thrown =>
      mkRetargetState (newTracks st) (processedBones st) (skippedBones st)
        (handCorrectedBones st)
        (rt_console st ++ [ErrorProcessingTrack (track_name track)])
  | Emitted newTrack mappedBoneName corrected =>
      mkRetargetState (newTracks st ++ [newTrack])
        (pushUnique mappedBoneName (processedBones st))
        (skippedBones st)
        (if corrected then handCorrectedBones st ++ [mappedBoneName]
         else handCorrectedBones st)
        (rt_console st)
  end.

(** What one turn of the loop appends to [newTracks]. *)
Definition retargetedTrack (boneNameMap : gmap string string)
    (track : KeyframeTrack) : option KeyframeTrack :=
  match trackOutcome boneNameMap track with
  | Emitted newTrack _ _ => Some newTrack
  | _ => None
  end.

(** The [i]-th sample of a quaternion value buffer. *)
Definition sampleAt (values : list F) (i : nat) : list F :=
  take 4 (drop (4 * i) values).

(** The four numbers stored for a quaternion. *)
Definition storeQuaternion (q : Quaternion) : list F :=
  [fround (qx q); fround (qy q); fround (qz q); fround (qw q)].

(** The position of the bone that [findBoneByName] finds. *)
Definition firstIndex (skeleton : Skeleton) (name : string) : option nat :=
  fst <$> findBoneByName skeleton name.

(** What one turn of the loop of [applyTPoseCorrection] saves, and what it
    warns about, as functions of the skeleton it is handed. *)
Definition savedRotation (skeleton : Skeleton) (entry : string * F)
    : option (string * Quaternion) :=
  (fun found => (entry.1, quaternion found.2))
    <$> findBoneByName skeleton entry.1.

Definition missingBone (skeleton : Skeleton) (entry : string * F)
    : option Diagnostic :=
  match findBoneByName skeleton entry.1 with
  | Some _ => None
  | None => Some (WarnBoneNotFound entry.1)
  end.

(** The bone at position [i] after the corrections of [entries]: it is
    rotated when it is the bone found under its name and the name has an
    entry. *)
Definition correctedBone (entries : list (string * F)) (skeleton : Skeleton)
    (i : nat) (bone : Bone) : Bone :=
  if decide (firstIndex skeleton (bone_name bone) = Some i) then
    match (list_to_map entries : gmap string F) !! bone_name bone with
    | Some angle =>
        mkBone (bone_name bone)
          (premultiply (quaternion bone)
             (setFromAxisAngle (mkVector3 f0 f0 f1) angle))
    | None => bone
    end
  else bone.

(** What one turn of the loop writes to the console, what it enters in
    [processedBones] and what it enters in [skippedBones]. *)
Definition trackDiagnostic (boneNameMap : gmap string string)
    (track : KeyframeTrack) : option Diagnostic :=
  match trackOutcome boneNameMap track with
  | InvalidName => Some (WarnInvalidTrackName (track_name track))
  | Thrown => Some (ErrorProcessingTrack (track_name track))
  | _ => None
  end.

Definition processedBone (boneNameMap : gmap string string)
    (track : KeyframeTrack) : option (Property string) :=
  match trackOutcome boneNameMap track with
  | Emitted _ mappedBoneName _ => Some mappedBoneName
  | _ => None
  end.

Definition skippedBone (boneNameMap : gmap string string)
    (track : KeyframeTrack) : option string :=
  match trackOutcome boneNameMap track with
  | Unmapped boneName => Some boneName
  | _ => None
  end.

(** ** The viewer: loading and playing

    The callbacks of [AvatarViewer] run one at a time, each to its end; the
    model is a state and one function per callback. The state holds the
    variables the callbacks of one run of the effect share: the locals of
    the avatar callback ([targetSkeleton], [originalRotations],
    [loadedAnimations], [boneNameMap]), which every run of the effect
    creates anew, and what outlives a run: the refs ([mixerRef],
    [actionsRef], [currentActionRef]), the React state ([isLoading],
    [error]) and the actions that [clipAction] has created, which the refs
    refer to. A theorem about a run is stated from the state the run finds;
    the callbacks of an earlier run that are still pending are not events
    of the run. Rendering, the camera and the frame loop are not part of
    the model: between callbacks the frame loop writes to the bones of the
    actions that are active, and to nothing while none is. *)

(** What a loader hands to its callback: the node hierarchy, the skeleton
    bound to a skinned mesh of it ([mesh.skeleton]) and the clips
    ([animations]). *)
Record LoadedScene := mkLoadedScene {
  scene_root : Object3D;
  mesh_skeleton : Object3D -> option (list Bone);
  animations : list AnimationClip
}.

(** [findSkinnedMesh(scene)?.skeleton] *)
Definition sceneSkeleton (scene : LoadedScene) : option (list Bone) :=
  mesh ← findSkinnedMesh (scene_root scene); mesh_skeleton scene mesh.

(** The names under which the six animations are loaded and played. *)
Inductive AnimationName :=
  | walking
  | sitting
  | standing_up
  | talking
  | happy
  | greeting.

Definition animationKey (name : AnimationName) : string :=
  match name with
  | walking => "walking"
  | sitting => "sitting"
  | standing_up => "standing_up"
  | talking => "talking"
  | happy => "happy"
  | greeting => "greeting"
  end.

(** An action: its clip, and whether its mixer has it among its active
    actions ([play] activates, [stop] deactivates; the time that [reset]
    rewinds is not modelled). The field [mixer] of the state lists the
    actions created so far, and an action is referred to by its position
    there. *)
Record AnimationAction := mkAnimationAction {
  action_clip : AnimationClip;
  action_active : bool
}.

Definition setActive (active : bool) (a : nat)
    (mixer : list AnimationAction) : list AnimationAction :=
  match mixer !! a with
  | Some action => <[a := mkAnimationAction (action_clip action) active]> mixer
  | None => mixer
  end.

(** [action.play()], [action.stop()] *)
Definition play (a : nat) (mixer : list AnimationAction)
    : list AnimationAction := setActive true a mixer.

Definition stop (a : nat) (mixer : list AnimationAction)
    : list AnimationAction := setActive false a mixer.

(** [mixer.clipAction(clip)] for a clip the mixer has not seen: a new,
    inactive action; [None] is the throw for a track name that cannot be
    bound, which leaves the mixer without the action. [bindable] tells
    whether the mixer can bind a track of a given name
    ([PropertyBinding.parseTrackName] accepts it). *)
Definition clipAction (bindable : string -> bool) (clip : AnimationClip)
    (mixer : list AnimationAction) : option (list AnimationAction * nat) :=
  if forallb (fun track => bindable (track_name track)) (tracks clip)
  then Some (mixer ++ [mkAnimationAction clip false], length mixer)
  else None.

(** [obj[key]] on [actionsRef.current], its entries in insertion order.
    The keys are the six animation names: none is an array index, and none
    is the name of a member of [Object.prototype]. *)
Definition Object_get {V : Type} (key : string) (obj : list (string * V))
    : option V :=
  (fun found => found.2.2) <$> list_find (fun entry => entry.1 = key) obj.

Inductive ViewerDiagnostic :=
  (** what [applyTPoseCorrection] and [retargetAnimationClip] reported *)
  | RetargetDiagnostic (d : Diagnostic)
  (** could not find skeleton in target model *)
  | ErrorNoSkeleton
  (** no animation found in FBX *)
  | ErrorNoAnimationInFBX (name : string)
  (** retargeted clip has no tracks *)
  | ErrorRetargetedNoTracks (name : string)
  (** the [catch] of [onAnimationLoaded]: error processing animation *)
  | ErrorProcessingAnimation (name : string)
  (** failed to load *)
  | ErrorLoadFailed (name : string)
  (** no animations available *)
  | ErrorNoAnimationsAvailable
  (** mixer not initialized *)
  | ErrorMixerNotInitialized
  (** animation not found *)
  | ErrorAnimationNotFound (name : string).

Record ViewerState := mkViewerState {
  targetSkeleton : list Bone;
  savedRotations : list (string * Quaternion);
  mixer : list AnimationAction;
  mixerRef : bool;
  loadedAnimations : nat;
  boneNameMap : option (gmap string string);
  actionsRef : list (string * nat);
  currentActionRef : option nat;
  isLoading : bool;
  error : option string;
  viewer_console : list ViewerDiagnostic
}.

(** The state when the component mounts. *)
Definition initialViewerState : ViewerState :=
  mkViewerState [] [] [] false 0 None [] None true None [].

Definition log (ds : list ViewerDiagnostic) (st : ViewerState) : ViewerState :=
  mkViewerState (targetSkeleton st) (savedRotations st) (mixer st)
    (mixerRef st) (loadedAnimations st) (boneNameMap st) (actionsRef st)
    (currentActionRef st) (isLoading st) (error st)
    (viewer_console st ++ ds).

Definition setMixer (m : list AnimationAction) (st : ViewerState)
    : ViewerState :=
  mkViewerState (targetSkeleton st) (savedRotations st) m
    (mixerRef st) (loadedAnimations st) (boneNameMap st) (actionsRef st)
    (currentActionRef st) (isLoading st) (error st) (viewer_console st).

Definition setCurrentAction (a : nat) (st : ViewerState) : ViewerState :=
  mkViewerState (targetSkeleton st) (savedRotations st) (mixer st)
    (mixerRef st) (loadedAnimations st) (boneNameMap st) (actionsRef st)
    (Some a) (isLoading st) (error st) (viewer_console st).

Definition countLoaded (st : ViewerState) : ViewerState :=
  mkViewerState (targetSkeleton st) (savedRotations st) (mixer st)
    (mixerRef st) (loadedAnimations st + 1) (boneNameMap st) (actionsRef st)
    (currentActionRef st) (isLoading st) (error st) (viewer_console st).

(** The number of [loader.load] calls. *)
Definition totalAnimations : nat := 6.

(** The success callback of the avatar load, as far as the skeleton, the
    mixer and the loading state go. The new mixer has no action yet; the
    actions of earlier mixers stay where the refs find them. *)
Definition onAvatarLoaded (gltf : LoadedScene) (st : ViewerState)
    : ViewerState :=
  match sceneSkeleton gltf with
  | None =>
      mkViewerState (targetSkeleton st) (savedRotations st) (mixer st)
        (mixerRef st) (loadedAnimations st) (boneNameMap st) (actionsRef st)
        (currentActionRef st) false
        (Some "Failed to find skeleton in avatar model")
        (viewer_console st ++ [ErrorNoSkeleton])
  | Some skeleton =>
      let corrected := applyTPoseCorrection skeleton in
      mkViewerState (tp_skeleton corrected) (originalRotations corrected)
        (mixer st) true 0 None (actionsRef st) (currentActionRef st)
        (isLoading st) (error st)
        (viewer_console st ++ (RetargetDiagnostic <$> tp_console corrected))
  end.

(** [checkAllLoaded] *)
Definition checkAllLoaded (st : ViewerState) : ViewerState :=
  if bool_decide (loadedAnimations st = totalAnimations) then
    let restored := restoreAPose (targetSkeleton st) (savedRotations st) in
    let st1 :=
      mkViewerState restored (savedRotations st) (mixer st)
        (mixerRef st) (loadedAnimations st) (boneNameMap st) (actionsRef st)
        (currentActionRef st) (isLoading st) (error st) (viewer_console st) in
    let st2 :=
      match Object_get "walking" (actionsRef st1) with
      | Some a => setMixer (play a (mixer st1)) (setCurrentAction a st1)
      | None =>
          match actionsRef st1 with
          | (_, a) :: _ => setMixer (play a (mixer st1)) (setCurrentAction a st1)
          | [] => log [ErrorNoAnimationsAvailable] st1
          end
      end in
    mkViewerState (targetSkeleton st2) (savedRotations st2) (mixer st2)
      (mixerRef st2) (loadedAnimations st2) (boneNameMap st2) (actionsRef st2)
      (currentActionRef st2) false (error st2) (viewer_console st2)
  else st.

(** [onAnimationLoaded]; the one statement of its [try] block that can
    throw here is [mixer.clipAction], after the map is cached. *)
Definition onAnimationLoaded (bindable : string -> bool) (name : string)
    (fbxScene : LoadedScene) (st : ViewerState) : ViewerState :=
  match head (animations fbxScene) with
  | None =>
      checkAllLoaded (countLoaded (log [ErrorNoAnimationInFBX name] st))
  | Some animation =>
      let sourceSkeleton := sceneSkeleton fbxScene in
      let map :=
        match boneNameMap st with
        | Some map => map
        | None =>
            buildBoneNameMap sourceSkeleton (targetSkeleton st) (Some animation)
        end in
      let retargeted := retargetAnimationClip animation map name in
      let st1 :=
        mkViewerState (targetSkeleton st) (savedRotations st) (mixer st)
          (mixerRef st) (loadedAnimations st) (Some map) (actionsRef st)
          (currentActionRef st) (isLoading st) (error st)
          (viewer_console st ++ (RetargetDiagnostic <$> retargeted.2)) in
      let st2 :=
        match tracks retargeted.1 with
        | [] => log [ErrorRetargetedNoTracks name] st1
        | _ =>
            match clipAction bindable retargeted.1 (mixer st1) with
            | Some (mixer', action) =>
                mkViewerState (targetSkeleton st1) (savedRotations st1) mixer'
                  (mixerRef st1) (loadedAnimations st1) (boneNameMap st1)
                  (Map_set name action (actionsRef st1))
                  (currentActionRef st1) (isLoading st1) (error st1)
                  (viewer_console st1)
            | None => log [ErrorProcessingAnimation name] st1
            end
        end in
      checkAllLoaded (countLoaded st2)
  end.

(** [onAnimationError] *)
Definition onAnimationError (name : string) (st : ViewerState) : ViewerState :=
  checkAllLoaded (countLoaded (log [ErrorLoadFailed name] st)).

(** [playAnimation] *)
Definition playAnimation (animationName : string) (st : ViewerState)
    : ViewerState :=
  if negb (mixerRef st) then log [ErrorMixerNotInitialized] st
  else
    let st1 :=
      match currentActionRef st with
      | Some current => setMixer (stop current (mixer st)) st
      | None => st
      end in
    match Object_get animationName (actionsRef st1) with
    | Some a => setMixer (play a (mixer st1)) (setCurrentAction a st1)
    | None => log [ErrorAnimationNotFound animationName] st1
    end.

(** What happens in a run of the effect after its avatar is loaded: one of
    its six loads completes or fails, or a button is clicked. *)
Inductive ViewerEvent :=
  | AnimationLoaded (name : AnimationName) (fbxScene : LoadedScene)
  | AnimationFailed (name : AnimationName)
  | ButtonClicked (name : AnimationName).

Definition handle (bindable : string -> bool) (st : ViewerState)
    (event : ViewerEvent) : ViewerState :=
  match event with
  | AnimationLoaded name fbxScene =>
      onAnimationLoaded bindable (animationKey name) fbxScene st
  | AnimationFailed name => onAnimationError (animationKey name) st
  | ButtonClicked name => playAnimation (animationKey name) st
  end.

(** The event ends a load. *)
Definition isLoadEvent (event : ViewerEvent) : bool :=
  match event with
  | ButtonClicked _ => false
  | _ => true
  end.

(** No action is active but the one [currentActionRef] refers to. *)
Definition onlyCurrentActive (st : ViewerState) : Prop :=
  forall a action,
    mixer st !! a = Some action -> action_active action = true ->
    currentActionRef st = Some a.

(** No action is active. *)
Definition quiet (st : ViewerState) : Prop :=
  Forall (fun action => action_active action = false) (mixer st).

(** Every entry of [actionsRef] refers to an action that exists. *)
Definition registered (st : ViewerState) : Prop :=
  forall k a, (k, a) ∈ actionsRef st -> a < length (mixer st).

(** * Properties *)

(** ** Prefix stripping *)

Lemma afterPrefix_app (p r : string) : Str.afterPrefix p (p +:+ r) = Some r.
Proof.
  induction p as [|a p IH]; simpl; [done|].
  by rewrite Ascii.eqb_refl.
Qed.

Lemma afterPrefix_Some (p s r : string) :
  Str.afterPrefix p s = Some r -> s = p +:+ r.
Proof.
  revert s; induction p as [|a p IH]; intros s Hs; simpl in *.
  - by inversion Hs.
  - destruct s as [|b s]; [done|].
    destruct (Ascii.eqb a b) eqn:E; [|done].
    apply Ascii.eqb_eq in E as ->. by rewrite (IH s Hs).
Qed.

Lemma afterPrefix_startsWith (p s : string) :
  Str.startsWith p s = bool_decide (is_Some (Str.afterPrefix p s)).
Proof.
  revert s; induction p as [|a p IH]; intros s; simpl; [done|].
  destruct s as [|b s]; [done|].
  destruct (Ascii.eqb a b); simpl; [apply IH | done].
Qed.

Lemma startsWith_false_afterPrefix (p s : string) :
  Str.startsWith p s = false -> Str.afterPrefix p s = None.
Proof.
  rewrite afterPrefix_startsWith. intros Hb%bool_decide_eq_false.
  destruct (Str.afterPrefix p s); [|done]. destruct Hb; by eexists.
Qed.

Lemma stripMixamoPrefix_unprefixed (s : string) :
  Str.startsWith mixamoPrefix s = false -> stripMixamoPrefix s = s.
Proof.
  intros Hs. unfold stripMixamoPrefix.
  by rewrite (startsWith_false_afterPrefix _ _ Hs).
Qed.

Lemma stripMixamoPrefix_prefixed (r : string) :
  stripMixamoPrefix (mixamoPrefix +:+ r) = Str.dropColon r.
Proof. unfold stripMixamoPrefix. by rewrite afterPrefix_app. Qed.

(** C6, as amended. Stripping is a total function that removes one leading
    occurrence of the prefix [mixamorig] and one [:] directly after it: a
    name without the prefix is returned unchanged; a name [mixamorig ++ r]
    becomes [r] without its leading [:], and when that rest does not itself
    start with the prefix, the result has no prefix at its start and
    stripping it again changes nothing. *)
Theorem stripMixamoPrefix_one_occurrence (s : string) :
  (Str.startsWith mixamoPrefix s = false -> stripMixamoPrefix s = s) /\
  (forall r : string, s = mixamoPrefix +:+ r ->
     stripMixamoPrefix s = Str.dropColon r /\
     (Str.startsWith mixamoPrefix (Str.dropColon r) = false ->
      Str.startsWith mixamoPrefix (stripMixamoPrefix s) = false /\
      stripMixamoPrefix (stripMixamoPrefix s) = stripMixamoPrefix s)).
Proof.
  split; [apply stripMixamoPrefix_unprefixed|].
  intros r ->. rewrite stripMixamoPrefix_prefixed.
  split; [done|]. intros Hr. split; [done|].
  by apply stripMixamoPrefix_unprefixed.
Qed.

(** ** Skeleton inspector *)

Lemma Object3D_nested_ind (P : Object3D -> Prop) :
  (forall cls uuid children,
     Forall P children -> P (mkObject3D cls uuid children)) ->
  forall o, P o.
Proof.
  intros Hnode. fix IH 1. intros [cls uuid children]. apply Hnode.
  induction children as [|child rest IHrest]; constructor;
    [apply IH | apply IHrest].
Qed.

(** [traverse] runs the callback over the pre-order listing. *)
Lemma traverse_preorder {S : Type} (callback : Object3D -> S -> S)
    (o : Object3D) :
  forall s, traverse callback o s
            = foldl (fun s child => callback child s) s (preorder o).
Proof.
  induction o as [cls uuid children IH] using Object3D_nested_ind.
  intros s. simpl. generalize (callback (mkObject3D cls uuid children) s).
  induction IH as [|child rest Hchild _ IHrest]; intros s'; [done|].
  rewrite foldl_app, <- Hchild. apply IHrest.
Qed.

Lemma find_callback_fold (l : list Object3D) (result : option Object3D) :
  foldl (fun result child =>
           if instanceofSkinnedMesh child && negb (bool_decide (is_Some result))
           then Some child else result) result l
  = match result with
    | Some mesh => Some mesh
    | None => List.find instanceofSkinnedMesh l
    end.
Proof.
  revert result; induction l as [|o l IH]; intros result; simpl.
  - by destruct result.
  - rewrite IH. destruct result as [mesh|]; simpl.
    + by rewrite andb_false_r.
    + rewrite andb_true_r. by destruct (instanceofSkinnedMesh o).
Qed.

Lemma find_first_split {A : Type} (f : A -> bool) (l : list A) (x : A) :
  List.find f l = Some x ->
  exists before after,
    l = before ++ x :: after /\ f x = true /\
    Forall (fun y => f y = false) before.
Proof.
  induction l as [|y l IH]; simpl; [done|].
  destruct (f y) eqn:E.
  - intros [= ->]. by exists [], l.
  - intros (before & after & -> & Hx & Hb)%IH.
    exists (y :: before), after. repeat split; [done|]. by constructor.
Qed.

Lemma find_none_all {A : Type} (f : A -> bool) (l : list A) :
  List.find f l = None <-> Forall (fun y => f y = false) l.
Proof.
  induction l as [|y l IH]; simpl; [by split; [constructor|]|].
  destruct (f y) eqn:E.
  - split; [done|]. intros Hl. inversion Hl; congruence.
  - rewrite IH. split; [by constructor|]. by inversion 1.
Qed.

(** C8. [findSkinnedMesh] returns the first skinned-mesh node of the
    pre-order listing of the hierarchy (children in their defined order):
    every node listed before it is not a skinned mesh; it returns [None]
    exactly when no node under the root is a skinned mesh. The function
    only reads the hierarchy: the one variable its callback assigns is the
    local result. *)
Theorem findSkinnedMesh_first_preorder (root : Object3D) :
  findSkinnedMesh root = List.find instanceofSkinnedMesh (preorder root) /\
  (forall mesh, findSkinnedMesh root = Some mesh ->
     exists before after,
       preorder root = before ++ mesh :: after /\
       instanceofSkinnedMesh mesh = true /\
       Forall (fun o => instanceofSkinnedMesh o = false) before) /\
  (findSkinnedMesh root = None <->
     Forall (fun o => instanceofSkinnedMesh o = false) (preorder root)).
Proof.
  assert (Hfind : findSkinnedMesh root
                  = List.find instanceofSkinnedMesh (preorder root)).
  { unfold findSkinnedMesh. rewrite traverse_preorder.
    apply (find_callback_fold (preorder root) None). }
  rewrite Hfind. split; [done|]. split.
  - intros mesh. apply find_first_split.
  - apply find_none_all.
Qed.

(** ** Track names *)

Lemma append_String (a : ascii) (s r : string) :
  String a s +:+ r = String a (s +:+ r).
Proof. reflexivity. Qed.

Lemma append_empty (r : string) : "" +:+ r = r.
Proof. reflexivity. Qed.

Lemma lastIndexOf_None (c : ascii) (s : string) :
  Str.lastIndexOf c s = None <-> Str.contains c s = false.
Proof.
  induction s as [|a s IH]; simpl; [done|].
  destruct (Str.lastIndexOf c s) as [i|].
  - split; [done|]. intros [_ Hs]%orb_false_iff.
    apply IH in Hs. discriminate.
  - destruct (Ascii.eqb a c); simpl; [done|]. by rewrite <- IH.
Qed.

Lemma lastIndexOf_Some (c : ascii) (s : string) (i : nat) :
  Str.lastIndexOf c s = Some i ->
  s = Str.take i s +:+ String c (Str.drop (i + 1) s) /\
  Str.contains c (Str.drop (i + 1) s) = false.
Proof.
  revert i; induction s as [|a s IH]; intros i; simpl; [done|].
  destruct (Str.lastIndexOf c s) as [j|] eqn:Hj.
  - intros [= <-]. destruct (IH j eq_refl) as [Hs Hc]. simpl.
    rewrite append_String. split; [by rewrite <- Hs | done].
  - destruct (Ascii.eqb a c) eqn:E; [|done]. intros [= <-].
    apply Ascii.eqb_eq in E as ->. simpl. rewrite append_empty.
    split; [done|]. by apply lastIndexOf_None.
Qed.

Lemma lastIndexOf_app (c : ascii) (b p : string) :
  Str.contains c p = false ->
  Str.lastIndexOf c (b +:+ String c p) = Some (String.length b).
Proof.
  intros Hp. induction b as [|a b IH].
  - rewrite append_empty. simpl.
    apply lastIndexOf_None in Hp. by rewrite Hp, Ascii.eqb_refl.
  - rewrite append_String. simpl. by rewrite IH.
Qed.

Lemma take_length_app (b r : string) : Str.take (String.length b) (b +:+ r) = b.
Proof.
  induction b as [|a b IH]; [by destruct r|].
  rewrite append_String. simpl. by rewrite IH.
Qed.

Lemma drop_length_app (b : string) (c : ascii) (p : string) :
  Str.drop (String.length b + 1) (b +:+ String c p) = p.
Proof.
  induction b as [|a b IH]; [done|]. rewrite append_String. apply IH.
Qed.

(** A parsed name is its two parts around a [.], and the property holds no
    further [.]. *)
Lemma parseTrackName_Some (name boneName property : string) :
  parseTrackName name = Some (boneName, property) ->
  name = boneName +:+ "." +:+ property /\
  Str.contains "."%char property = false.
Proof.
  unfold parseTrackName.
  destruct (Str.lastIndexOf "." name) as [i|] eqn:Hi; [|done].
  intros [= <- <-]. by apply lastIndexOf_Some.
Qed.

(** A name rebuilt around a [.]-free property parses back into its parts. *)
Lemma parseTrackName_build (boneName property : string) :
  Str.contains "."%char property = false ->
  parseTrackName (boneName +:+ "." +:+ property) = Some (boneName, property).
Proof.
  intros Hp. unfold parseTrackName.
  change (boneName +:+ "." +:+ property)
    with (boneName +:+ String "."%char property).
  rewrite (lastIndexOf_app _ _ _ Hp).
  by rewrite take_length_app, drop_length_app.
Qed.

(** ** Plain objects *)

Lemma nativeFunction_String (name : string) :
  nativeFunction name = String "f"%char ("unction " +:+ name +:+ "() { [native code] }").
Proof. reflexivity. Qed.

(** The text of an inherited member is the name of no member of
    [Object.prototype] and no key of the correction table. *)
Lemma toString_Inherited_cases (key : string) :
  toString (Inherited key) = "[object Object]" \/
  exists name, toString (Inherited key) = nativeFunction name.
Proof.
  unfold toString. case_decide; [by left|]. right.
  case_decide; by eexists.
Qed.

Lemma toString_Inherited_not_member (key : string) :
  toString (Inherited key) ∉ Object_prototype.
Proof.
  destruct (toString_Inherited_cases key) as [->|[name ->]];
    [by apply (bool_decide_unpack _)|].
  rewrite nativeFunction_String. unfold Object_prototype.
  rewrite !not_elem_of_cons. repeat split; try discriminate.
  apply not_elem_of_nil.
Qed.

Lemma Record_get_own {V : Type} (obj : gmap string V) (key : string)
    (value : V) :
  Record_get obj key = Some (Own value) <-> obj !! key = Some value.
Proof.
  unfold Record_get. destruct (obj !! key) as [v|].
  - split; by intros [= ->].
  - by case_decide.
Qed.

Lemma Record_get_inherited {V : Type} (obj : gmap string V) (key k : string) :
  Record_get obj key = Some (Inherited k) <->
  obj !! key = None /\ key ∈ Object_prototype /\ k = key.
Proof.
  unfold Record_get. destruct (obj !! key) as [v|].
  - split; [done | by intros [? _]].
  - case_decide as Hk; split.
    + by intros [= ->].
    + by intros (_ & _ & ->).
    + done.
    + by intros (_ & ? & _).
Qed.

Lemma Record_get_None {V : Type} (obj : gmap string V) (key : string) :
  Record_get obj key = None <-> obj !! key = None /\ key ∉ Object_prototype.
Proof.
  unfold Record_get. destruct (obj !! key) as [v|].
  - split; [done | by intros [? _]].
  - case_decide as Hk; split; try done. by intros [_ ?].
Qed.

(** ** Track retargeter *)

Lemma newKeyframeTrack_Some (cls : TrackClass) (name : string)
    (ts vs : list F) (t : KeyframeTrack) :
  newKeyframeTrack cls name ts vs = Some t <->
  t = mkKeyframeTrack cls name ts vs /\ ts <> [].
Proof.
  unfold newKeyframeTrack. destruct ts.
  - split; [done | by intros [_ ?]].
  - split; [by intros [= <-] | by intros [-> _]].
Qed.

Lemma newKeyframeTrack_None (cls : TrackClass) (name : string)
    (ts vs : list F) :
  newKeyframeTrack cls name ts vs = None <-> ts = [].
Proof. unfold newKeyframeTrack. by destruct ts. Qed.

(** One turn of the loop does what the outcome of its track says. *)
Lemma retargetTrack_outcome (m : gmap string string) (st : RetargetState)
    (t : KeyframeTrack) :
  retargetTrack m st t = recordOutcome st t (trackOutcome m t).
Proof.
  unfold retargetTrack, trackOutcome, parseTrackName, emitTrack.
  destruct (Str.lastIndexOf "." (track_name t)) as [i|]; [|done].
  destruct (Record_get m (Str.take i (track_name t)))
    as [[[|a mapped]|key]|]; try done.
  all: destruct (bool_decide (Str.drop (i + 1) (track_name t) = "position")
                 || bool_decide (Str.drop (i + 1) (track_name t) = "scale"));
    [done|].
  all: destruct (needsHandCorrection _ _) as [[hc|]|]; simpl; [| |done].
  all: by destruct (newKeyframeTrack _ _ _ _).
Qed.

Lemma retargetTrack_newTracks (m : gmap string string) (st : RetargetState)
    (t : KeyframeTrack) :
  newTracks (retargetTrack m st t)
  = newTracks st ++ option_list (retargetedTrack m t).
Proof.
  rewrite retargetTrack_outcome. unfold retargetedTrack.
  destruct (trackOutcome m t); simpl; by rewrite ?app_nil_r.
Qed.

Lemma retargetTracks_newTracks (m : gmap string string)
    (ts : list KeyframeTrack) (st : RetargetState) :
  newTracks (foldl (retargetTrack m) st ts)
  = newTracks st ++ omap (retargetedTrack m) ts.
Proof.
  revert st; induction ts as [|t ts IH]; intros st; simpl.
  - by rewrite app_nil_r.
  - rewrite IH, retargetTrack_newTracks.
    rewrite <- app_assoc. by destruct (retargetedTrack m t).
Qed.

(** The tracks of the retargeted clip: each input track contributes on its
    own, in order. *)
Lemma retargetAnimationClip_tracks (clip : AnimationClip)
    (m : gmap string string) (animationName : string) :
  tracks (retargetAnimationClip clip m animationName).1
  = omap (retargetedTrack m) (tracks clip).
Proof.
  unfold retargetAnimationClip, newAnimationClip. simpl.
  by rewrite retargetTracks_newTracks.
Qed.

Lemma handBoneCorrections_lookup (key : string) :
  handBoneCorrections !! key
  = if decide (key = "RightForeArm") then Some identityQuaternion
    else if decide (key = "LeftForeArm") then Some identityQuaternion
    else if decide (key = "RightHand")
         then Some (setFromAxisAngle (mkVector3 f1 f0 f0) PI)
    else if decide (key = "LeftHand")
         then Some (setFromAxisAngle (mkVector3 f1 f0 f0) PI)
    else None.
Proof.
  unfold handBoneCorrections. simpl. rewrite !lookup_insert, lookup_empty.
  repeat case_decide; by simplify_eq.
Qed.

Lemma handBoneCorrections_other (key : string) :
  key ∉ ["LeftHand"; "RightHand"; "LeftForeArm"; "RightForeArm"] ->
  handBoneCorrections !! key = None.
Proof.
  intros Hk. rewrite handBoneCorrections_lookup.
  repeat case_decide; try done; subst; exfalso; apply Hk; set_solver.
Qed.

Lemma handBoneCorrections_is_Some (key : string) :
  is_Some (handBoneCorrections !! key) ->
  key ∈ ["LeftHand"; "RightHand"; "LeftForeArm"; "RightForeArm"].
Proof.
  intros Hk.
  destruct (decide (key ∈ ["LeftHand"; "RightHand"; "LeftForeArm";
                           "RightForeArm"])) as [|Hn]; [done|].
  rewrite (handBoneCorrections_other _ Hn) in Hk. by destruct Hk.
Qed.

(** The lookup in the correction table throws for a mapped name that is a
    member of [Object.prototype], and for nothing else. *)
Lemma needsHandCorrection_throws (value : Property string) (property : string) :
  needsHandCorrection value property = None <->
  exists mapped, value = Own mapped /\ mapped ∈ Object_prototype.
Proof.
  unfold needsHandCorrection.
  destruct (Record_get handBoneCorrections (toString value))
    as [[c|k]|] eqn:Hget.
  - split; [done|]. intros (mapped & -> & Hm). simpl in Hget.
    apply Record_get_own in Hget.
    assert (Hk : mapped ∈ ["LeftHand"; "RightHand"; "LeftForeArm";
                           "RightForeArm"])
      by (apply handBoneCorrections_is_Some; by eexists).
    revert Hm. unfold Object_prototype.
    set_unfold. by destruct Hk as [->|[->|[->|[->|[]]]]]; intros Hm;
      repeat destruct Hm as [Hm|Hm].
  - apply Record_get_inherited in Hget as (_ & Hk & _).
    split; [intros _|done]. destruct value as [mapped|key].
    + by exists mapped.
    + by apply toString_Inherited_not_member in Hk.
  - apply Record_get_None in Hget as [_ Hk].
    split; [done|]. by intros (mapped & -> & Hm).
Qed.

Lemma needsHandCorrection_Some (value : Property string)
    (property : string) (c : Quaternion) :
  needsHandCorrection value property = Some (Some c) <->
  handBoneCorrections !! toString value = Some c /\
  equals c identityQuaternion = false /\ property = "quaternion".
Proof.
  unfold needsHandCorrection, Record_get.
  destruct (handBoneCorrections !! toString value) as [hc|].
  - destruct (equals hc identityQuaternion) eqn:He; simpl.
    + split; [done|]. intros ([= <-] & ? & _). congruence.
    + case_bool_decide as Hp; split.
      * by intros [= ->].
      * by intros ([= ->] & _ & _).
      * done.
      * by intros (_ & _ & ?).
  - split; [by case_decide | by intros [? _]].
Qed.

(** What is known of an emitted track. *)
Lemma trackOutcome_Emitted (m : gmap string string) (t t' : KeyframeTrack)
    (value : Property string) (corrected : bool) :
  trackOutcome m t = Emitted t' value corrected <->
  exists boneName property needed,
    parseTrackName (track_name t) = Some (boneName, property) /\
    Record_get m boneName = Some value /\ value <> Own "" /\
    property <> "position" /\ property <> "scale" /\ times t <> [] /\
    needsHandCorrection value property = Some needed /\
    corrected = bool_decide (is_Some needed) /\
    t' = mkKeyframeTrack
           (if corrected then QuaternionKeyframeTrack else track_class t)
           (toString value +:+ "." +:+ property) (times t)
           (match needed with
            | Some c => correctValues c (values t)
            | None => values t
            end).
Proof.
  unfold trackOutcome.
  destruct (parseTrackName (track_name t)) as [[boneName property]|];
    [|split; [done | by intros (? & ? & ? & ? & _)]].
  split.
  - intros Hout. exists boneName, property.
    destruct (Record_get m boneName) as [[[|a mapped]|key]|]; try done.
    all: destruct (bool_decide (property = "position")
                   || bool_decide (property = "scale")) eqn:Hp; [done|].
    all: apply orb_false_iff in Hp
      as [Hp1%bool_decide_eq_false Hp2%bool_decide_eq_false].
    all: destruct (needsHandCorrection _ property) as [[hc|]|] eqn:Hn;
      [| |done].
    all: destruct (newKeyframeTrack _ _ _ _) as [newTrack|] eqn:Hnew;
      [|done].
    all: apply newKeyframeTrack_Some in Hnew as [-> Hts].
    all: injection Hout as <- <- <-.
    all: eexists; by repeat split.
  - intros (b & p & needed & [= <- <-] & -> & Hne & Hp1 & Hp2 & Hts & Hn
            & -> & ->).
    rewrite (bool_decide_eq_false_2 _ Hp1), (bool_decide_eq_false_2 _ Hp2).
    simpl. rewrite Hn. unfold newKeyframeTrack.
    destruct value as [[|a mapped]|key]; [done|..];
      destruct needed as [c|]; by destruct (times t).
Qed.

Lemma retargetedTrack_Some (m : gmap string string) (t t' : KeyframeTrack) :
  retargetedTrack m t = Some t' <->
  exists value corrected, trackOutcome m t = Emitted t' value corrected.
Proof.
  unfold retargetedTrack. destruct (trackOutcome m t); split;
    try done; try by intros (? & ? & ?).
  - intros [= ->]. by eexists _, _.
  - by intros (? & ? & [= -> _ _]).
Qed.

Lemma list_by_four_ind {A : Type} (P : list A -> Prop) :
  P [] -> (forall x, P [x]) -> (forall x y, P [x; y]) ->
  (forall x y z, P [x; y; z]) ->
  (forall x y z w rest, P rest -> P (x :: y :: z :: w :: rest)) ->
  forall l, P l.
Proof.
  intros H0 H1 H2 H3 H4. fix IH 1.
  intros [|x [|y [|z [|w rest]]]];
    [apply H0 | apply H1 | apply H2 | apply H3 | apply H4, IH].
Qed.

Lemma correctValues_length (c : Quaternion) (vs : list F) :
  length (correctValues c vs) = length vs.
Proof.
  induction vs as [| | | |x y z w rest IH] using list_by_four_ind; simpl;
    by rewrite ?IH.
Qed.

(** Every complete sample of the buffer is replaced by its product with the
    correction on the right, as stored. *)
Lemma correctValues_sample (c : Quaternion) (vs : list F) (i : nat)
    (x y z w : F) :
  sampleAt vs i = [x; y; z; w] ->
  sampleAt (correctValues c vs) i
  = storeQuaternion (multiply (mkQuaternion x y z w) c).
Proof.
  unfold sampleAt. revert i.
  induction vs as [| | | |x' y' z' w' rest IH] using list_by_four_ind;
    intros i.
  - by destruct i.
  - by destruct i as [|[|[|[|i]]]].
  - by destruct i as [|[|[|[|i]]]].
  - by destruct i as [|[|[|[|i]]]].
  - destruct i as [|i].
    + simpl. by intros [= -> -> -> ->].
    + replace (4 * S i) with (S (S (S (S (4 * i))))) by lia.
      simpl. apply IH.
Qed.

Lemma handBoneCorrections_hands :
  handBoneCorrections !! "LeftHand"
    = Some (setFromAxisAngle (mkVector3 f1 f0 f0) PI) /\
  handBoneCorrections !! "RightHand"
    = Some (setFromAxisAngle (mkVector3 f1 f0 f0) PI).
Proof. by unfold handBoneCorrections; simplify_map_eq. Qed.

(** C1. Every track of the retargeted clip comes from an input track for
    whose bone the lookup in the map gives a value; it carries that track's
    timestamps unchanged and as many values. When the track is a quaternion
    track and the table holds a non-identity correction [c] for the mapped
    bone, every sample [q] of the input is replaced by the product [q * c],
    correction on the right, as stored in the single-precision buffer. The
    table's correction for both hands is the half turn about the local X
    axis. *)
Theorem retargetAnimationClip_samples (clip : AnimationClip)
    (boneNameMap : gmap string string) (animationName : string)
    (t' : KeyframeTrack) :
  t' ∈ tracks (retargetAnimationClip clip boneNameMap animationName).1 ->
  (exists t boneName property mapped,
     t ∈ tracks clip /\
     parseTrackName (track_name t) = Some (boneName, property) /\
     Record_get boneNameMap boneName = Some mapped /\
     track_name t' = toString mapped +:+ "." +:+ property /\
     times t' = times t /\
     length (values t') = length (values t) /\
     forall c : Quaternion,
       property = "quaternion" ->
       handBoneCorrections !! toString mapped = Some c ->
       equals c identityQuaternion = false ->
       forall (i : nat) (x y z w : F),
         sampleAt (values t) i = [x; y; z; w] ->
         sampleAt (values t') i
         = storeQuaternion (multiply (mkQuaternion x y z w) c)) /\
  handBoneCorrections !! "LeftHand"
    = Some (setFromAxisAngle (mkVector3 f1 f0 f0) PI) /\
  handBoneCorrections !! "RightHand"
    = Some (setFromAxisAngle (mkVector3 f1 f0 f0) PI).
Proof.
  rewrite retargetAnimationClip_tracks.
  intros (t & Ht & Hemit)%list_elem_of_omap.
  split; [|apply handBoneCorrections_hands].
  apply retargetedTrack_Some in Hemit as (mapped & corrected & Hemit).
  apply trackOutcome_Emitted in Hemit
    as (boneName & property & needed & Hparse & Hm & _ & _ & _ & _ & Hneeds
        & _ & ->).
  exists t, boneName, property, mapped. do 5 (split; [done|]). split.
  - simpl. destruct needed; [apply correctValues_length | done].
  - intros c Hq Hc Hne i x y z w Hsample.
    assert (Hneeds' : needsHandCorrection mapped property = Some (Some c))
      by by apply needsHandCorrection_Some.
    rewrite Hneeds' in Hneeds. injection Hneeds as <-. simpl.
    by apply correctValues_sample.
Qed.

(** C2. No track of the retargeted clip has the property [position] or
    [scale]; and an input track with one of these properties adds nothing
    to the output, whatever the map and whatever was emitted before it. *)
Theorem retargetAnimationClip_no_position_scale (clip : AnimationClip)
    (boneNameMap : gmap string string) (animationName : string) :
  (forall t',
     t' ∈ tracks (retargetAnimationClip clip boneNameMap animationName).1 ->
     exists boneName property,
       parseTrackName (track_name t') = Some (boneName, property) /\
       property <> "position" /\ property <> "scale") /\
  (forall (st : RetargetState) (t : KeyframeTrack) boneName property,
     parseTrackName (track_name t) = Some (boneName, property) ->
     property = "position" \/ property = "scale" ->
     newTracks (retargetTrack boneNameMap st t) = newTracks st).
Proof.
  split.
  - intros t'. rewrite retargetAnimationClip_tracks.
    intros (t & Ht & Hemit)%list_elem_of_omap.
    apply retargetedTrack_Some in Hemit as (mapped & corrected & Hemit).
    apply trackOutcome_Emitted in Hemit
      as (boneName & property & needed & Hparse & _ & _ & Hp1 & Hp2 & _ & _
          & _ & ->).
    exists (toString mapped), property. simpl. split; [|done].
    apply parseTrackName_build.
    by apply parseTrackName_Some in Hparse as [_ ?].
  - intros st t boneName property Hparse Hp.
    rewrite retargetTrack_newTracks.
    destruct (retargetedTrack boneNameMap t) as [t'|] eqn:Hemit;
      [|by rewrite app_nil_r].
    apply retargetedTrack_Some in Hemit as (mapped & corrected & Hemit).
    apply trackOutcome_Emitted in Hemit
      as (b & p & needed & Hparse' & _ & _ & Hp1 & Hp2 & _).
    rewrite Hparse in Hparse'. injection Hparse' as <- <-.
    by destruct Hp.
Qed.

(** What the loop writes to the console: each track contributes on its
    own. *)
Lemma retargetTrack_console (m : gmap string string) (st : RetargetState)
    (t : KeyframeTrack) :
  rt_console (retargetTrack m st t)
  = rt_console st ++ option_list (trackDiagnostic m t).
Proof.
  rewrite retargetTrack_outcome. unfold trackDiagnostic.
  destruct (trackOutcome m t); simpl; by rewrite ?app_nil_r.
Qed.

Lemma retargetTracks_console (m : gmap string string)
    (ts : list KeyframeTrack) (st : RetargetState) :
  rt_console (foldl (retargetTrack m) st ts)
  = rt_console st ++ omap (trackDiagnostic m) ts.
Proof.
  revert st; induction ts as [|t ts IH]; intros st; csimpl.
  - by rewrite app_nil_r.
  - rewrite IH, retargetTrack_console, <- app_assoc.
    by destruct (trackDiagnostic m t).
Qed.

Lemma retargetAnimationClip_console (clip : AnimationClip)
    (m : gmap string string) (animationName : string) :
  (retargetAnimationClip clip m animationName).2
  = omap (trackDiagnostic m) (tracks clip)
    ++ match tracks (retargetAnimationClip clip m animationName).1 with
       | [] => [ErrorNoTracks animationName]
       | _ => []
       end.
Proof.
  unfold retargetAnimationClip, newAnimationClip. simpl.
  rewrite retargetTracks_console. simpl.
  destruct (newTracks _); by rewrite ?app_nil_r.
Qed.

(** C7, at the input where the code leaves the claim. The map has no entry
    for the bone [constructor], and the track [constructor.quaternion] is
    not dropped: the lookup [boneNameMap[boneName]] finds the function
    [Object] that every plain object inherits, and the track is emitted
    under the text of that function. Nothing is reported. *)
Theorem retargetAnimationClip_inherited_bone :
  let track name :=
    mkKeyframeTrack QuaternionKeyframeTrack name [f0] [f0; f0; f0; f1] in
  let clip :=
    mkAnimationClip "walk" f0
      [track "constructor.quaternion"; track "Tail.quaternion"] in
  let boneNameMap : gmap string string := ∅ in
  let out := retargetAnimationClip clip boneNameMap "walking" in
  boneNameMap !! "constructor" = None /\
  boneNameMap !! "Tail" = None /\
  tracks out.1
  = [track "function Object() { [native code] }.quaternion"] /\
  out.2 = [].
Proof.
  intros track clip boneNameMap out. do 2 (split; [done|]).
  subst out. rewrite retargetAnimationClip_console.
  rewrite retargetAnimationClip_tracks. by vm_compute.
Qed.

(** ** Bone name resolver *)

Lemma Record_set_lookup (key value : string) (obj : gmap string string)
    (s : string) :
  Record_set key value obj !! s
  = if decide (s = key /\ key <> "__proto__") then Some value else obj !! s.
Proof.
  unfold Record_set. case_decide as Hk.
  - rewrite decide_False; [done|]. by intros [_ ?].
  - destruct (decide (s = key)) as [->|Hne].
    + by rewrite decide_True, lookup_insert_eq.
    + rewrite decide_False by (by intros [? _]). by rewrite lookup_insert_ne.
Qed.

Lemma mapBoneNames_fold (targetNames : gset string) (sourceNames : list string)
    (m : gmap string string) (s : string) :
  foldl
    (fun map boneName =>
       let mappedName := stripMixamoPrefix boneName in
       if decide (mappedName ∈ targetNames)
       then Record_set boneName mappedName map
       else map)
    m sourceNames !! s
  = if decide (s <> "__proto__" /\ s ∈ sourceNames /\
               stripMixamoPrefix s ∈ targetNames)
    then Some (stripMixamoPrefix s)
    else m !! s.
Proof.
  revert m; induction sourceNames as [|x sn IH]; intros m; cbn [foldl].
  - rewrite decide_False; [done|]. intros (_ & Hs & _). by inversion Hs.
  - rewrite IH. clear IH. cbn zeta.
    destruct (decide (s <> "__proto__" /\ s ∈ sn /\
                      stripMixamoPrefix s ∈ targetNames))
      as [(Hp & Hs & Ht)|Hn].
    + rewrite decide_True; [done|]. split; [done|]. split; [by right | done].
    + destruct (decide (stripMixamoPrefix x ∈ targetNames)) as [Hx|Hx].
      * rewrite Record_set_lookup.
        destruct (decide (s = x /\ x <> "__proto__")) as [[-> Hp]|Hne].
        -- rewrite decide_True; [done|]. split; [done|].
           split; [by left | done].
        -- rewrite decide_False; [done|].
           intros (Hp & [->|Hs]%elem_of_cons & Ht); [by apply Hne|].
           by apply Hn.
      * rewrite decide_False; [done|].
        intros (Hp & [->|Hs]%elem_of_cons & Ht); [done|]. by apply Hn.
Qed.

(** The map sends a source name to its stripped form when that is a target
    name, and has no entry for it otherwise; the assignment to the key
    [__proto__] leaves no entry. *)
Lemma mapBoneNames_lookup (targetNames : gset string)
    (sourceNames : list string) (s : string) :
  mapBoneNames targetNames sourceNames !! s
  = if decide (s <> "__proto__" /\ s ∈ sourceNames /\
               stripMixamoPrefix s ∈ targetNames)
    then Some (stripMixamoPrefix s)
    else None.
Proof. unfold mapBoneNames. by rewrite mapBoneNames_fold, lookup_empty. Qed.

Lemma elem_of_targetBoneNames (targetSkeleton : Skeleton) (name : string) :
  name ∈ targetBoneNames targetSkeleton <-> name ∈ bone_name <$> targetSkeleton.
Proof. unfold targetBoneNames. apply elem_of_list_to_set. Qed.

Lemma buildBoneNameMap_lookup (sourceSkeleton : option Skeleton)
    (targetSkeleton : Skeleton) (animationClip : option AnimationClip)
    (s : string) :
  buildBoneNameMap sourceSkeleton targetSkeleton animationClip !! s
  = if decide (s <> "__proto__" /\
               s ∈ sourceBoneNames sourceSkeleton animationClip /\
               stripMixamoPrefix s ∈ bone_name <$> targetSkeleton)
    then Some (stripMixamoPrefix s)
    else None.
Proof.
  unfold buildBoneNameMap. rewrite mapBoneNames_lookup.
  apply decide_ext. by rewrite elem_of_targetBoneNames.
Qed.

(** C3, at the inputs where the code leaves the claim. First, a clip with a
    track for the bone [constructor], retargeted with the map built from
    that clip: the map has no entry for [constructor], yet the track is
    emitted, under the text of the function [Object] that the lookup finds
    in [Object.prototype], which is no bone of the target skeleton. Second,
    a source bone [__proto__] whose name is a bone name of the target
    skeleton: the assignment [map[boneName] = mappedName] creates no
    entry. *)
Theorem buildBoneNameMap_inherited_names :
  let bone name := mkBone name identityQuaternion in
  let track name :=
    mkKeyframeTrack QuaternionKeyframeTrack name [f0] [f0; f0; f0; f1] in
  let target : Skeleton := [bone "Hips"] in
  let clip :=
    mkAnimationClip "walk" f0
      [track "mixamorigHips.quaternion"; track "constructor.quaternion"] in
  let m := buildBoneNameMap None target (Some clip) in
  let rig : Skeleton := [bone "__proto__"] in
  (m !! "mixamorigHips" = Some "Hips" /\ m !! "constructor" = None /\
   track_name <$> tracks (retargetAnimationClip clip m "walking").1
   = ["Hips.quaternion"; "function Object() { [native code] }.quaternion"] /\
   parseTrackName "function Object() { [native code] }.quaternion"
   = Some ("function Object() { [native code] }", "quaternion") /\
   "function Object() { [native code] }" ∉ bone_name <$> target) /\
  (sourceBoneNames (Some rig) None = ["__proto__"] /\
   stripMixamoPrefix "__proto__" ∈ bone_name <$> rig /\
   buildBoneNameMap (Some rig) rig None !! "__proto__" = None).
Proof.
  intros bone track target clip m rig. split.
  - split; [by vm_compute|]. split; [by vm_compute|].
    split; [rewrite retargetAnimationClip_tracks; by vm_compute|].
    split; [by vm_compute|]. by apply (bool_decide_unpack _).
  - split; [done|]. split; [by apply (bool_decide_unpack _)|].
    rewrite buildBoneNameMap_lookup. by rewrite decide_False by (by intros [? _]).
Qed.

(** C9. The map is not injective and the retargeter does not merge tracks:
    the source names [mixamorigHips] and [mixamorig:Hips] both map to the
    target bone [Hips], and a clip with a quaternion track for each gives a
    clip with two tracks of the same name. *)
Theorem retargetAnimationClip_duplicate_names :
  let source : Skeleton :=
    [mkBone "mixamorigHips" identityQuaternion;
     mkBone "mixamorig:Hips" identityQuaternion] in
  let target : Skeleton := [mkBone "Hips" identityQuaternion] in
  let m := buildBoneNameMap (Some source) target None in
  let track name :=
    mkKeyframeTrack QuaternionKeyframeTrack name [f0] [f0; f0; f0; f1] in
  let clip :=
    mkAnimationClip "walk" f0
      [track "mixamorigHips.quaternion"; track "mixamorig:Hips.quaternion"] in
  "mixamorigHips" <> "mixamorig:Hips" /\
  m !! "mixamorigHips" = Some "Hips" /\
  m !! "mixamorig:Hips" = Some "Hips" /\
  track_name <$> tracks (retargetAnimationClip clip m "walking").1
  = ["Hips.quaternion"; "Hips.quaternion"].
Proof.
  intros source target m track clip.
  split; [done|]. split; [by vm_compute|]. split; [by vm_compute|].
  rewrite retargetAnimationClip_tracks. by vm_compute.
Qed.

(** ** Rest-pose corrector *)

Lemma firstIndex_names (skeleton : Skeleton) (name : string) :
  firstIndex skeleton name
  = fst <$> list_find (fun n => n = name) (bone_name <$> skeleton).
Proof.
  unfold firstIndex, findBoneByName. rewrite list_find_fmap.
  by destruct (list_find _ skeleton) as [[i b]|].
Qed.

Lemma firstIndex_same_names (sk sk' : Skeleton) (name : string) :
  bone_name <$> sk = bone_name <$> sk' ->
  firstIndex sk name = firstIndex sk' name.
Proof. intros Hn. by rewrite !firstIndex_names, Hn. Qed.

Lemma findBoneByName_Some (sk : Skeleton) (name : string) (i : nat) (b : Bone) :
  findBoneByName sk name = Some (i, b) <->
  firstIndex sk name = Some i /\ sk !! i = Some b.
Proof.
  unfold firstIndex. split.
  - intros Hf. rewrite Hf. split; [done|].
    by apply list_find_Some in Hf as [? _].
  - destruct (findBoneByName sk name) as [[j b']|] eqn:Hf; simpl; [|by intros []].
    intros [[= ->] Hb]. apply list_find_Some in Hf as [Hb' _].
    congruence.
Qed.

Lemma findBoneByName_name (sk : Skeleton) (name : string) (i : nat) (b : Bone) :
  findBoneByName sk name = Some (i, b) -> bone_name b = name.
Proof. by intros (_ & ? & _)%list_find_Some. Qed.

Lemma findBoneByName_None (sk : Skeleton) (name : string) :
  findBoneByName sk name = None <-> firstIndex sk name = None.
Proof. unfold firstIndex. by destruct (findBoneByName sk name). Qed.

Lemma setQuaternion_names (sk : Skeleton) (i : nat) (b : Bone) (q : Quaternion) :
  sk !! i = Some b ->
  bone_name <$> setQuaternion sk i b q = bone_name <$> sk.
Proof.
  intros Hb. unfold setQuaternion. rewrite list_fmap_insert. simpl.
  apply list_insert_id. by rewrite list_lookup_fmap, Hb.
Qed.

Lemma setQuaternion_lookup (sk : Skeleton) (i j : nat) (b : Bone)
    (q : Quaternion) :
  sk !! i = Some b ->
  setQuaternion sk i b q !! j
  = if decide (j = i) then Some (mkBone (bone_name b) q) else sk !! j.
Proof.
  intros Hb. unfold setQuaternion. destruct (decide (j = i)) as [->|Hne].
  - apply list_lookup_insert_eq. by eapply lookup_lt_Some.
  - by apply list_lookup_insert_ne.
Qed.

Lemma same_names_lookup (sk sk' : Skeleton) (i : nat) (b : Bone) :
  bone_name <$> sk' = bone_name <$> sk -> sk !! i = Some b ->
  exists b', sk' !! i = Some b' /\ bone_name b' = bone_name b.
Proof.
  intros Hn Hb.
  assert (Hi : (bone_name <$> sk') !! i = Some (bone_name b))
    by by rewrite Hn, list_lookup_fmap, Hb.
  rewrite list_lookup_fmap in Hi.
  destruct (sk' !! i) as [b'|]; [|done]. exists b'. by inversion Hi.
Qed.

(** One turn of the loop of [restoreAPose], bone by bone. *)
Lemma restoreBone_names (sk : Skeleton) (entry : string * Quaternion) :
  bone_name <$> restoreBone sk entry = bone_name <$> sk.
Proof.
  destruct entry as [name quat]. unfold restoreBone.
  destruct (findBoneByName sk name) as [[i b]|] eqn:Hf; [|done].
  apply setQuaternion_names. by apply findBoneByName_Some in Hf as [_ ?].
Qed.

Lemma restoreBone_lookup (sk : Skeleton) (name : string) (quat : Quaternion)
    (i : nat) (b : Bone) :
  sk !! i = Some b ->
  restoreBone sk (name, quat) !! i
  = Some (if decide (firstIndex sk name = Some i) then mkBone name quat
          else b).
Proof.
  intros Hb. unfold restoreBone.
  destruct (findBoneByName sk name) as [[j bj]|] eqn:Hf.
  - pose proof (findBoneByName_name _ _ _ _ Hf) as Hname.
    apply findBoneByName_Some in Hf as [Hj Hbj].
    rewrite (setQuaternion_lookup _ _ _ _ _ Hbj), Hj, Hname.
    destruct (decide (i = j)) as [->|Hne].
    + by rewrite decide_True.
    + rewrite decide_False; [done|]. congruence.
  - apply findBoneByName_None in Hf. rewrite Hf. by rewrite decide_False.
Qed.

Lemma restoreAPose_names (delta : list (string * Quaternion)) (sk : Skeleton) :
  bone_name <$> restoreAPose sk delta = bone_name <$> sk.
Proof.
  unfold restoreAPose. revert sk.
  induction delta as [|entry delta IH]; intros sk; simpl; [done|].
  by rewrite IH, restoreBone_names.
Qed.

(** [restoreAPose] leaves alone every bone whose name is no key. *)
Lemma restoreAPose_other (delta : list (string * Quaternion)) (sk : Skeleton)
    (i : nat) (b : Bone) :
  sk !! i = Some b -> bone_name b ∉ delta.*1 ->
  restoreAPose sk delta !! i = Some b.
Proof.
  unfold restoreAPose. revert sk.
  induction delta as [|[name quat] delta IH]; intros sk Hb Hk; [done|].
  cbn [foldl]. rewrite fmap_cons in Hk.
  apply not_elem_of_cons in Hk as [Hne Hk]. simpl in Hne.
  apply IH; [|done]. rewrite (restoreBone_lookup _ _ _ _ _ Hb).
  rewrite decide_False; [done|]. intros Hi.
  destruct (findBoneByName sk name) as [[j bj]|] eqn:Hf.
  - pose proof (findBoneByName_name _ _ _ _ Hf) as Hname.
    apply findBoneByName_Some in Hf as [Hj Hbj]. congruence.
  - apply findBoneByName_None in Hf. congruence.
Qed.

(** With distinct keys, [restoreAPose] gives the bone found under a key the
    rotation saved for it. *)
Lemma restoreAPose_lookup (delta : list (string * Quaternion)) (sk : Skeleton)
    (i : nat) (b : Bone) :
  NoDup delta.*1 -> sk !! i = Some b ->
  restoreAPose sk delta !! i
  = Some (if decide (firstIndex sk (bone_name b) = Some i) then
            match (list_to_map delta : gmap string Quaternion)
                  !! bone_name b with
            | Some quat => mkBone (bone_name b) quat
            | None => b
            end
          else b).
Proof.
  unfold restoreAPose. revert sk b.
  induction delta as [|[name quat] delta IH]; intros sk b Hnd Hb.
  - simpl. rewrite lookup_empty. by destruct (decide _).
  - rewrite fmap_cons in Hnd. apply NoDup_cons in Hnd as [Hfresh Hnd].
    simpl in Hfresh. cbn [foldl].
    pose proof (restoreBone_lookup sk name quat i b Hb) as Hstep.
    rewrite (IH _ _ Hnd Hstep). f_equal.
    rewrite (firstIndex_same_names _ sk) by apply restoreBone_names.
    rewrite list_to_map_cons.
    destruct (decide (firstIndex sk name = Some i)) as [Hi|Hi]; simpl.
    + assert (Hname : bone_name b = name).
      { destruct (findBoneByName sk name) as [[j bj]|] eqn:Hf.
        - pose proof (findBoneByName_name _ _ _ _ Hf).
          apply findBoneByName_Some in Hf as [Hj Hbj]. congruence.
        - apply findBoneByName_None in Hf. congruence. }
      subst name. rewrite decide_True by done.
      rewrite lookup_insert_eq.
      rewrite (proj1 (not_elem_of_list_to_map delta (bone_name b)) Hfresh).
      by rewrite decide_True.
    + destruct (decide (firstIndex sk (bone_name b) = Some i)) as [Hi'|]; [|done].
      rewrite lookup_insert_ne; [done|]. congruence.
Qed.

Lemma Map_set_fresh {V : Type} (k : string) (v : V) (m : list (string * V)) :
  k ∉ m.*1 -> Map_set k v m = m ++ [(k, v)].
Proof.
  induction m as [|[k' v'] m IH]; simpl; [done|].
  intros [Hne Hk]%not_elem_of_cons. rewrite decide_False by done.
  by rewrite IH.
Qed.

Lemma omap_ext_in {A B : Type} (f g : A -> option B) (l : list A) :
  (forall x, x ∈ l -> f x = g x) -> omap f l = omap g l.
Proof.
  induction l as [|x l IH]; intros Hfg; [done|]. csimpl.
  rewrite (Hfg x) by apply list_elem_of_here.
  rewrite IH; [done|]. intros y Hy. apply Hfg. by right.
Qed.

(** A rotation written to one bone does not change which bone is found
    under another name. *)
Lemma findBoneByName_setQuaternion (sk : list Bone) (j : nat) (bj : Bone)
    (q : Quaternion) (name : string) :
  sk !! j = Some bj -> name <> bone_name bj ->
  findBoneByName (setQuaternion sk j bj q) name = findBoneByName sk name.
Proof.
  intros Hbj Hne.
  pose proof (firstIndex_same_names _ sk name
                (setQuaternion_names sk j bj q Hbj)) as Hidx.
  destruct (findBoneByName sk name) as [[i b]|] eqn:Hf.
  - pose proof (findBoneByName_name _ _ _ _ Hf) as Hname.
    apply findBoneByName_Some in Hf as [Hi Hb].
    apply findBoneByName_Some. split; [congruence|].
    rewrite (setQuaternion_lookup _ _ _ _ _ Hbj).
    rewrite decide_False; [done|]. intros ->. congruence.
  - apply findBoneByName_None. apply findBoneByName_None in Hf. congruence.
Qed.

Lemma firstIndex_name (sk : list Bone) (name : string) (i : nat) (b : Bone) :
  firstIndex sk name = Some i -> sk !! i = Some b -> bone_name b = name.
Proof.
  intros Hi Hb. apply (findBoneByName_name sk name i b).
  by apply findBoneByName_Some.
Qed.

(** The loop of [applyTPoseCorrection] over entries with distinct names,
    in terms of the skeleton it starts from. *)
Lemma correctArmBones_fold (entries : list (string * F)) :
  NoDup entries.*1 ->
  forall (sk : list Bone) (orig : list (string * Quaternion))
         (con : list Diagnostic),
    (forall k, k ∈ entries.*1 -> k ∉ orig.*1) ->
    let st' := foldl correctArmBone (mkTPoseState sk orig con) entries in
    bone_name <$> tp_skeleton st' = bone_name <$> sk /\
    originalRotations st' = orig ++ omap (savedRotation sk) entries /\
    tp_console st' = con ++ omap (missingBone sk) entries /\
    forall i b, sk !! i = Some b ->
      tp_skeleton st' !! i = Some (correctedBone entries sk i b).
Proof.
  induction entries as [|[name angle] entries IH];
    intros Hnd sk orig con Hfresh.
  - simpl. rewrite !app_nil_r. do 3 (split; [done|]).
    intros i b ->. unfold correctedBone. simpl. rewrite lookup_empty.
    by destruct (decide _).
  - rewrite fmap_cons in Hnd. apply NoDup_cons in Hnd as [Hname Hnd].
    simpl in Hname. cbn [foldl]. unfold correctArmBone at 2. simpl.
    destruct (findBoneByName sk name) as [[j bj]|] eqn:Hf.
    + pose proof (findBoneByName_name _ _ _ _ Hf) as Hbjname.
      pose proof Hf as Hf'. apply findBoneByName_Some in Hf' as [Hj Hbj].
      rewrite Map_set_fresh by (apply Hfresh; rewrite fmap_cons; apply list_elem_of_here).
      set (q := premultiply (quaternion bj)
                  (setFromAxisAngle (mkVector3 f0 f0 f1) angle)).
      assert (Hfresh' : forall k, k ∈ entries.*1 ->
                k ∉ (orig ++ [(name, quaternion bj)]).*1).
      { intros k Hk. rewrite fmap_app. simpl.
        intros [Ho|Hn%list_elem_of_singleton]%elem_of_app.
        - apply (Hfresh k); [by rewrite fmap_cons; right | done].
        - by subst k. }
      destruct (IH Hnd (setQuaternion sk j bj q)
                  (orig ++ [(name, quaternion bj)]) con Hfresh')
        as (Hn & Ho & Hc & Hl).
      assert (Hother : forall e : string * F, e ∈ entries ->
                findBoneByName (setQuaternion sk j bj q) e.1
                = findBoneByName sk e.1).
      { intros e He. apply findBoneByName_setQuaternion; [done|].
        rewrite Hbjname. intros Heq. apply Hname. rewrite <- Heq.
        by apply list_elem_of_fmap_2. }
      split; [by rewrite Hn, setQuaternion_names|]. split; [|split].
      * rewrite Ho, <- app_assoc. simpl. f_equal.
        unfold savedRotation at 2. simpl. rewrite Hf. simpl. f_equal.
        apply omap_ext_in. intros e He. unfold savedRotation.
        by rewrite Hother.
      * rewrite Hc. f_equal. unfold missingBone at 2. simpl. rewrite Hf.
        apply omap_ext_in. intros e He. unfold missingBone.
        by rewrite Hother.
      * intros i b Hb.
        pose proof (setQuaternion_lookup sk j i bj q Hbj) as Hset.
        pose proof (setQuaternion_names sk j bj q Hbj) as Hnames.
        destruct (decide (i = j)) as [->|Hij].
        -- assert (b = bj) as -> by congruence.
           rewrite (Hl _ _ Hset). f_equal. unfold correctedBone. simpl.
           rewrite (firstIndex_same_names _ sk _ Hnames).
           rewrite Hbjname, Hj, !decide_True by done.
           rewrite lookup_insert_eq.
           by rewrite (proj1 (not_elem_of_list_to_map entries name) Hname).
        -- rewrite Hb in Hset. rewrite (Hl _ _ Hset). f_equal.
           unfold correctedBone.
           rewrite (firstIndex_same_names _ sk _ Hnames).
           destruct (decide (firstIndex sk (bone_name b) = Some i))
             as [Hi|]; [|done].
           simpl. rewrite lookup_insert_ne; [done|].
           intros Heq. rewrite <- Heq in Hi. congruence.
    + destruct (IH Hnd sk orig (con ++ [WarnBoneNotFound name]))
        as (Hn & Ho & Hc & Hl).
      { intros k Hk. apply Hfresh. rewrite fmap_cons. by right. }
      split; [done|]. split; [|split].
      * rewrite Ho. simpl. unfold savedRotation at 2. simpl. by rewrite Hf.
      * rewrite Hc, <- app_assoc. simpl. unfold missingBone at 2. simpl.
        by rewrite Hf.
      * intros i b Hb. rewrite (Hl _ _ Hb). f_equal. unfold correctedBone.
        destruct (decide (firstIndex sk (bone_name b) = Some i))
          as [Hi|]; [|done].
        simpl. rewrite lookup_insert_ne; [done|].
        intros Heq. rewrite <- Heq in Hi.
        apply findBoneByName_None in Hf. congruence.
Qed.

Lemma armBones_names :
  armBones.*1
  = ["LeftUpperArm"; "RightUpperArm"; "LeftShoulder"; "RightShoulder"].
Proof. reflexivity. Qed.

Lemma armBones_NoDup : NoDup armBones.*1.
Proof.
  rewrite armBones_names. apply (bool_decide_unpack _). by vm_compute.
Qed.

(** [applyTPoseCorrection] in terms of the skeleton it is handed. *)
Lemma applyTPoseCorrection_state (sk : list Bone) :
  let st := applyTPoseCorrection sk in
  bone_name <$> tp_skeleton st = bone_name <$> sk /\
  originalRotations st = omap (savedRotation sk) armBones /\
  tp_console st = omap (missingBone sk) armBones /\
  forall i b, sk !! i = Some b ->
    tp_skeleton st !! i = Some (correctedBone armBones sk i b).
Proof.
  apply (correctArmBones_fold armBones armBones_NoDup sk [] []).
  intros k _ Hk. by inversion Hk.
Qed.

Lemma savedRotation_elem (sk : list Bone) (entries : list (string * F))
    (name : string) (q : Quaternion) :
  (name, q) ∈ omap (savedRotation sk) entries <->
  name ∈ entries.*1 /\
  exists i b, findBoneByName sk name = Some (i, b) /\ quaternion b = q.
Proof.
  rewrite list_elem_of_omap. unfold savedRotation. split.
  - intros ([name' angle] & He & Hs). simpl in Hs.
    destruct (findBoneByName sk name') as [[i b]|] eqn:Hf; [|done].
    simpl in Hs. injection Hs as -> <-. split.
    + by apply (list_elem_of_fmap_2 fst) in He.
    + by exists i, b.
  - intros [([name' angle] & -> & He)%list_elem_of_fmap (i & b & Hf & <-)].
    exists (name', angle). split; [done|]. simpl in *. by rewrite Hf.
Qed.

Lemma savedRotation_keys (sk : list Bone) (entries : list (string * F))
    (name : string) :
  name ∈ (omap (savedRotation sk) entries).*1 <->
  name ∈ entries.*1 /\ is_Some (findBoneByName sk name).
Proof.
  split.
  - intros ([name' q] & -> & [Hn (i & b & Hf & _)]%savedRotation_elem)%list_elem_of_fmap.
    split; [done|]. simpl. by rewrite Hf.
  - intros [Hn [[i b] Hf]].
    apply list_elem_of_fmap. exists (name, quaternion b). split; [done|].
    apply savedRotation_elem. split; [done|]. by exists i, b.
Qed.

Lemma savedRotation_NoDup (sk : list Bone) (entries : list (string * F)) :
  NoDup entries.*1 -> NoDup (omap (savedRotation sk) entries).*1.
Proof.
  induction entries as [|[name angle] entries IH]; [done|].
  rewrite fmap_cons. intros [Hname Hnd]%NoDup_cons. csimpl.
  unfold savedRotation at 1. simpl.
  destruct (findBoneByName sk name) as [[i b]|]; simpl; [|by apply IH].
  apply NoDup_cons. split; [|by apply IH].
  intros [Hin _]%savedRotation_keys. by apply Hname.
Qed.

Lemma correctedBone_name (entries : list (string * F)) (sk : list Bone)
    (i : nat) (b : Bone) :
  bone_name (correctedBone entries sk i b) = bone_name b.
Proof.
  unfold correctedBone. destruct (decide _); [|done].
  by destruct (_ !! _).
Qed.

(** C4. Restoring with the state that [applyTPoseCorrection] returns gives
    back the skeleton as it was: every bone has the local rotation it had
    before the correction. *)
Theorem restoreAPose_applyTPoseCorrection (skeleton : list Bone) :
  let st := applyTPoseCorrection skeleton in
  restoreAPose (tp_skeleton st) (originalRotations st) = skeleton.
Proof.
  intros st.
  destruct (applyTPoseCorrection_state skeleton) as (Hn & Ho & _ & Hl).
  fold st in Hn, Ho, Hl. apply list_eq. intros i.
  destruct (skeleton !! i) as [b|] eqn:Hb.
  - pose proof (Hl i b Hb) as Hb'.
    assert (Hnd : NoDup (originalRotations st).*1)
      by (rewrite Ho; apply savedRotation_NoDup, armBones_NoDup).
    rewrite (restoreAPose_lookup _ _ _ _ Hnd Hb'). f_equal.
    rewrite correctedBone_name, (firstIndex_same_names _ skeleton _ Hn).
    unfold correctedBone.
    destruct (decide (firstIndex skeleton (bone_name b) = Some i))
      as [Hi|]; [|done].
    assert (Hf : findBoneByName skeleton (bone_name b) = Some (i, b))
      by by apply findBoneByName_Some.
    destruct ((list_to_map armBones : gmap string F) !! bone_name b)
      as [angle|] eqn:Ha.
    + assert (Hsaved : (list_to_map (originalRotations st)
                          : gmap string Quaternion) !! bone_name b
                       = Some (quaternion b)).
      { apply elem_of_list_to_map; [done|]. rewrite Ho.
        apply savedRotation_elem. split; [|by exists i, b].
        apply elem_of_list_to_map_2 in Ha.
        by apply (list_elem_of_fmap_2 fst) in Ha. }
      rewrite Hsaved. by destruct b.
    + assert (Hnone : (list_to_map (originalRotations st)
                         : gmap string Quaternion) !! bone_name b = None).
      { apply not_elem_of_list_to_map. rewrite Ho.
        intros [Hin _]%savedRotation_keys.
        by apply not_elem_of_list_to_map in Ha. }
      by rewrite Hnone.
  - apply lookup_ge_None. apply lookup_ge_None in Hb.
    assert (Hlen : length (restoreAPose (tp_skeleton st)
                             (originalRotations st)) = length skeleton).
    { rewrite <- (length_fmap bone_name), restoreAPose_names, Hn.
      apply length_fmap. }
    lia.
Qed.

(** C5. For each of the four arm bones that the skeleton has, the bone found
    under the name has afterwards the product [c * q] of the correction
    [c] and its rotation [q] before, correction on the left, written out
    here in the components: [c] is the rotation about the Z axis, [(0 * s,
    0 * s, 1 * s, cos (angle / 2))] with [s = sin (angle / 2)], and the
    angle is the offset of 40 degrees for the left upper arm, its negation
    for the right one, and these times 0.3 for the shoulders. A bone under
    another name is not touched; the warnings are exactly those for the
    names without a bone, and the function returns for every skeleton. *)
Theorem applyTPoseCorrection_premultiplies (skeleton : list Bone) :
  let st := applyTPoseCorrection skeleton in
  let offset := fmul f40 (fdiv PI f180) in
  (forall name angle i bone,
     (name, angle) ∈ [ ("LeftUpperArm", offset);
                       ("RightUpperArm", fneg offset);
                       ("LeftShoulder", fmul offset f0_3);
                       ("RightShoulder", fmul (fneg offset) f0_3) ] ->
     findBoneByName skeleton name = Some (i, bone) ->
     let s := fsin (fdiv angle f2) in
     let cx := fmul f0 s in
     let cy := fmul f0 s in
     let cz := fmul f1 s in
     let cw := fcos (fdiv angle f2) in
     let q := quaternion bone in
     tp_skeleton st !! i
     = Some (mkBone name
               (mkQuaternion
                  (fsub (fadd (fadd (fmul cx (qw q)) (fmul cw (qx q)))
                           (fmul cy (qz q))) (fmul cz (qy q)))
                  (fsub (fadd (fadd (fmul cy (qw q)) (fmul cw (qy q)))
                           (fmul cz (qx q))) (fmul cx (qz q)))
                  (fsub (fadd (fadd (fmul cz (qw q)) (fmul cw (qz q)))
                           (fmul cx (qy q))) (fmul cy (qx q)))
                  (fsub (fsub (fsub (fmul cw (qw q)) (fmul cx (qx q)))
                           (fmul cy (qy q))) (fmul cz (qz q)))))) /\
  (forall i bone,
     skeleton !! i = Some bone ->
     bone_name bone ∉ ["LeftUpperArm"; "RightUpperArm"; "LeftShoulder";
                       "RightShoulder"] ->
     tp_skeleton st !! i = Some bone) /\
  (forall d,
     d ∈ tp_console st <->
     exists name,
       d = WarnBoneNotFound name /\
       name ∈ ["LeftUpperArm"; "RightUpperArm"; "LeftShoulder";
               "RightShoulder"] /\
       findBoneByName skeleton name = None) /\
  length (tp_skeleton st) = length skeleton.
Proof.
  intros st offset.
  destruct (applyTPoseCorrection_state skeleton) as (Hn & _ & Hc & Hl).
  fold st in Hn, Hc, Hl. rewrite <- armBones_names.
  split; [|split; [|split]].
  - intros name angle i bone He Hf.
    change (_ ∈ _) with ((name, angle) ∈ armBones) in He.
    pose proof (findBoneByName_name _ _ _ _ Hf) as Hname.
    apply findBoneByName_Some in Hf as [Hi Hb].
    cbn zeta. rewrite (Hl _ _ Hb). f_equal. unfold correctedBone.
    rewrite Hname, decide_True by done.
    by rewrite (elem_of_list_to_map_1 armBones name angle armBones_NoDup He).
  - intros i bone Hb Hk. rewrite (Hl _ _ Hb). f_equal. unfold correctedBone.
    destruct (decide _); [|done].
    by rewrite (proj1 (not_elem_of_list_to_map armBones (bone_name bone)) Hk).
  - intros d. rewrite Hc, list_elem_of_omap. unfold missingBone. split.
    + intros ([name angle] & He & Hm). simpl in Hm.
      destruct (findBoneByName skeleton name) eqn:Hf; [done|].
      injection Hm as <-. exists name. split; [done|]. split; [|done].
      by apply (list_elem_of_fmap_2 fst) in He.
    + intros (name & -> & ([name' angle] & -> & He)%list_elem_of_fmap & Hf).
      exists (name', angle). split; [done|]. simpl in *. by rewrite Hf.
  - rewrite <- (length_fmap bone_name), Hn. apply length_fmap.
Qed.

(** C10. [restoreAPose] leaves the rotation of every bone whose name is not
    a key of the map it is handed; and the keys of the map that
    [applyTPoseCorrection] returns are exactly those of the four arm bone
    names under which the skeleton has a bone. *)
Theorem restoreAPose_frame :
  (forall (skeleton : list Bone) (delta : list (string * Quaternion))
          (i : nat) (bone : Bone),
     skeleton !! i = Some bone -> bone_name bone ∉ delta.*1 ->
     restoreAPose skeleton delta !! i = Some bone) /\
  (forall (skeleton : list Bone) (name : string),
     name ∈ (originalRotations (applyTPoseCorrection skeleton)).*1 <->
     name ∈ ["LeftUpperArm"; "RightUpperArm"; "LeftShoulder";
             "RightShoulder"] /\
     is_Some (findBoneByName skeleton name)).
Proof.
  split.
  - intros skeleton delta i bone. apply restoreAPose_other.
  - intros skeleton name.
    destruct (applyTPoseCorrection_state skeleton) as (_ & -> & _).
    rewrite <- armBones_names. apply savedRotation_keys.
Qed.

(** * Further properties *)

(** ** Track names and bone names *)

(** X1. A track name parses into a bone name and a property exactly when it is
    the two joined by a [.] and the property holds no [.]; it does not parse
    exactly when it holds no [.] at all. *)
Theorem parseTrackName_roundtrip (name boneName property : string) :
  (parseTrackName name = Some (boneName, property) <->
   name = boneName +:+ "." +:+ property /\
   Str.contains "."%char property = false) /\
  (parseTrackName name = None <-> Str.contains "."%char name = false).
Proof.
  split; [split|].
  - apply parseTrackName_Some.
  - intros [-> Hp]. by apply parseTrackName_build.
  - unfold parseTrackName. rewrite <- lastIndexOf_None.
    by destruct (Str.lastIndexOf "." name).
Qed.

Lemma dropColon_cases (s : string) :
  (exists r, s = String ":"%char r /\ Str.dropColon s = r) \/
  Str.dropColon s = s.
Proof.
  destruct s as [|a r]; [by right|].
  destruct (Ascii.eqb_spec a ":"%char) as [->|Hne]; [left; by exists r|].
  right. destruct a as [[] [] [] [] [] [] [] []]; try done.
Qed.

Lemma stripMixamoPrefix_cases (s : string) :
  s = stripMixamoPrefix s \/
  s = "mixamorig" +:+ stripMixamoPrefix s \/
  s = "mixamorig:" +:+ stripMixamoPrefix s.
Proof.
  unfold stripMixamoPrefix.
  destruct (Str.afterPrefix mixamoPrefix s) as [rest|] eqn:Hs; [|by left].
  apply afterPrefix_Some in Hs. right.
  destruct (dropColon_cases rest) as [(r & -> & ->)| ->]; [by right | by left].
Qed.

(** X2. Every entry of the map that [buildBoneNameMap] returns pairs a source
    bone name with the same name, or with the name that follows the prefix
    [mixamorig] or [mixamorig:] in it. *)
Theorem buildBoneNameMap_entry_shape (sourceSkeleton : option Skeleton)
    (targetSkeleton : Skeleton) (animationClip : option AnimationClip)
    (s v : string) :
  buildBoneNameMap sourceSkeleton targetSkeleton animationClip !! s = Some v ->
  s ∈ sourceBoneNames sourceSkeleton animationClip /\
  (s = v \/ s = "mixamorig" +:+ v \/ s = "mixamorig:" +:+ v).
Proof.
  rewrite buildBoneNameMap_lookup.
  case_decide as Hs; [|done]. intros [= <-]. split; [by destruct Hs as (_ & ? & _)|].
  apply stripMixamoPrefix_cases.
Qed.

Lemma pushUnique_elem {A : Type} `{EqDecision A} (x y : A) (l : list A) :
  y ∈ pushUnique x l <-> y = x \/ y ∈ l.
Proof.
  unfold pushUnique. case_decide as Hx.
  - split; [by right|]. by intros [->|].
  - rewrite elem_of_app, list_elem_of_singleton. tauto.
Qed.

Lemma pushUnique_NoDup {A : Type} `{EqDecision A} (x : A) (l : list A) :
  NoDup l -> NoDup (pushUnique x l).
Proof.
  intros Hl. unfold pushUnique. case_decide as Hx; [done|].
  apply NoDup_app. split; [done|]. split; [|apply NoDup_singleton].
  intros y Hy ->%list_elem_of_singleton. done.
Qed.

Lemma boneNamesOfClip_fold (ts : list KeyframeTrack) (acc : list string) :
  NoDup acc ->
  let names :=
    foldl
      (fun boneNameSet track =>
         match Str.lastIndexOf "."%char (track_name track) with
         | Some dotIndex =>
             pushUnique (Str.take dotIndex (track_name track)) boneNameSet
         | None => boneNameSet
         end)
      acc ts in
  NoDup names /\
  forall n, n ∈ names <->
    n ∈ acc \/
    exists t p, t ∈ ts /\ parseTrackName (track_name t) = Some (n, p).
Proof.
  revert acc. induction ts as [|t ts IH]; intros acc Hacc; cbn [foldl].
  - split; [done|]. intros n. split; [by left|].
    intros [?|(t & p & Ht & _)]; [done|]. by inversion Ht.
  - cbn zeta in IH.
    destruct (Str.lastIndexOf "." (track_name t)) as [i|] eqn:Hi.
    + destruct (IH (pushUnique (Str.take i (track_name t)) acc)
                  (pushUnique_NoDup _ _ Hacc)) as [Hnd Hel].
      split; [done|]. intros n. rewrite Hel, pushUnique_elem. split.
      * intros [[->|Hn]|(t0 & p & Ht0 & Hp)].
        -- right. exists t, (Str.drop (i + 1) (track_name t)).
           split; [by left|]. unfold parseTrackName. by rewrite Hi.
        -- by left.
        -- right. exists t0, p. split; [by right | done].
      * intros [Hn|(t0 & p & [->|Ht0]%elem_of_cons & Hp)].
        -- left. by right.
        -- left. left. unfold parseTrackName in Hp. rewrite Hi in Hp.
           by inversion Hp.
        -- right. by exists t0, p.
    + destruct (IH acc Hacc) as [Hnd Hel]. split; [done|].
      intros n. rewrite Hel. split.
      * intros [Hn|(t0 & p & Ht0 & Hp)]; [by left|].
        right. exists t0, p. split; [by right | done].
      * intros [Hn|(t0 & p & [->|Ht0]%elem_of_cons & Hp)]; [by left| |].
        -- unfold parseTrackName in Hp. by rewrite Hi in Hp.
        -- right. by exists t0, p.
Qed.

Lemma boneNamesOfClip_spec (animationClip : AnimationClip) :
  NoDup (boneNamesOfClip animationClip) /\
  forall n, n ∈ boneNamesOfClip animationClip <->
    exists t p, t ∈ tracks animationClip /\
                parseTrackName (track_name t) = Some (n, p).
Proof.
  unfold boneNamesOfClip.
  destruct (boneNamesOfClip_fold (tracks animationClip) [] (NoDup_nil_2))
    as [Hnd Hel].
  split; [done|]. intros n. rewrite Hel. split; [|by right].
  intros [Hn|?]; [by inversion Hn | done].
Qed.

(** X3. Without a source skeleton the source bone names are read off the clip:
    each bone name that a track name of the clip parses to is listed, once,
    and nothing else is. *)
Theorem sourceBoneNames_of_clip (animationClip : AnimationClip) :
  let names := sourceBoneNames None (Some animationClip) in
  NoDup names /\
  forall n, n ∈ names <->
    exists t p, t ∈ tracks animationClip /\
                parseTrackName (track_name t) = Some (n, p).
Proof. apply boneNamesOfClip_spec. Qed.

(** X4. A map built from the clip alone has an entry for the bone of every
    track of that clip whose stripped bone name is a bone of the target
    skeleton, unless the bone is named [__proto__]: no other track is lost
    for want of a source name. *)
Theorem buildBoneNameMap_from_clip_covers (targetSkeleton : Skeleton)
    (animationClip : AnimationClip) (t : KeyframeTrack)
    (boneName property : string) :
  t ∈ tracks animationClip ->
  parseTrackName (track_name t) = Some (boneName, property) ->
  stripMixamoPrefix boneName ∈ bone_name <$> targetSkeleton ->
  boneName <> "__proto__" ->
  buildBoneNameMap None targetSkeleton (Some animationClip) !! boneName
  = Some (stripMixamoPrefix boneName).
Proof.
  intros Ht Hparse Htarget Hproto. rewrite buildBoneNameMap_lookup.
  rewrite decide_True; [done|]. split; [done|]. split; [|done].
  apply (proj2 (boneNamesOfClip_spec animationClip)).
  by exists t, property.
Qed.

(** X18. The map that [buildBoneNameMap] returns has an entry for a source
    bone name exactly when the prefix-stripped form of the name is a bone
    name of the target skeleton and the name is not [__proto__], and the
    entry is that form. The map is determined by the set of source names
    and the set of target names; each of its values is a bone name of the
    target skeleton; and when no track of a clip has a bone named like a
    member of [Object.prototype], every track that [retargetAnimationClip]
    emits for the clip with this map is named after a bone of the target
    skeleton. *)
Theorem buildBoneNameMap_exact (sourceSkeleton : option Skeleton)
    (targetSkeleton : Skeleton) (animationClip : option AnimationClip) :
  let m := buildBoneNameMap sourceSkeleton targetSkeleton animationClip in
  (forall s : string,
     m !! s
     = if decide (s <> "__proto__" /\
                  s ∈ sourceBoneNames sourceSkeleton animationClip /\
                  stripMixamoPrefix s ∈ bone_name <$> targetSkeleton)
       then Some (stripMixamoPrefix s)
       else None) /\
  (forall (sourceSkeleton' : option Skeleton) (targetSkeleton' : Skeleton)
          (animationClip' : option AnimationClip),
     (forall s, s ∈ sourceBoneNames sourceSkeleton' animationClip' <->
                s ∈ sourceBoneNames sourceSkeleton animationClip) ->
     (forall s, s ∈ bone_name <$> targetSkeleton' <->
                s ∈ bone_name <$> targetSkeleton) ->
     buildBoneNameMap sourceSkeleton' targetSkeleton' animationClip' = m) /\
  (forall s v : string, m !! s = Some v -> v ∈ bone_name <$> targetSkeleton) /\
  (forall (clip : AnimationClip) (animationName : string),
     (forall t boneName property,
        t ∈ tracks clip ->
        parseTrackName (track_name t) = Some (boneName, property) ->
        boneName ∉ Object_prototype) ->
     forall t' : KeyframeTrack,
       t' ∈ tracks (retargetAnimationClip clip m animationName).1 ->
       exists boneName property,
         parseTrackName (track_name t') = Some (boneName, property) /\
         boneName ∈ bone_name <$> targetSkeleton).
Proof.
  intros m.
  assert (Hvalue : forall s v, m !! s = Some v -> v ∈ bone_name <$> targetSkeleton).
  { intros s v. subst m. rewrite buildBoneNameMap_lookup.
    case_decide as Hs; [|done]. intros [= <-]. by destruct Hs as (_ & _ & ?). }
  split; [apply buildBoneNameMap_lookup|]. split; [|split; [exact Hvalue|]].
  - intros src' tgt' clip' Hsrc Htgt. apply map_eq. intros s.
    subst m. rewrite !buildBoneNameMap_lookup.
    apply decide_ext. by rewrite Hsrc, Htgt.
  - intros clip animationName Hnames t'. rewrite retargetAnimationClip_tracks.
    intros (t & Ht & Hemit)%list_elem_of_omap.
    apply retargetedTrack_Some in Hemit as (value & corrected & Hemit).
    apply trackOutcome_Emitted in Hemit
      as (boneName & property & needed & Hparse & Hget & _ & _ & _ & _ & _
          & _ & ->).
    destruct value as [mapped|key].
    + apply Record_get_own in Hget. exists mapped, property. simpl.
      split; [|by eapply Hvalue]. apply parseTrackName_build.
      by apply parseTrackName_Some in Hparse as [_ ?].
    + apply Record_get_inherited in Hget as (_ & Hk & _).
      by destruct (Hnames t boneName property).
Qed.

(** ** Which tracks are emitted, and what is reported *)

Lemma toString_Inherited_not_corrected (key : string) :
  toString (Inherited key)
    ∉ ["LeftHand"; "RightHand"; "LeftForeArm"; "RightForeArm"].
Proof.
  destruct (toString_Inherited_cases key) as [->|[name ->]];
    [by apply (bool_decide_unpack _)|].
  rewrite nativeFunction_String.
  rewrite !not_elem_of_cons. repeat split; try discriminate.
  apply not_elem_of_nil.
Qed.

(** No correction is looked up for what the map inherits. *)
Lemma needsHandCorrection_Inherited (key property : string) :
  needsHandCorrection (Inherited key) property = Some None.
Proof.
  destruct (needsHandCorrection (Inherited key) property) as [[c|]|] eqn:Hn.
  - apply needsHandCorrection_Some in Hn as (Hc & _).
    destruct (toString_Inherited_not_corrected key).
    apply handBoneCorrections_is_Some. by eexists.
  - done.
  - by apply needsHandCorrection_throws in Hn as (mapped & ? & _).
Qed.

(** What the lookup [boneNameMap[boneName]] gives, when it is neither
    [undefined] nor the empty string, in terms of the entries of the map. *)
Lemma Record_get_usable (m : gmap string string) (boneName : string)
    (value : Property string) :
  Record_get m boneName = Some value /\ value <> Own "" <->
  (exists mapped,
     value = Own mapped /\ m !! boneName = Some mapped /\ mapped <> "") \/
  (value = Inherited boneName /\ m !! boneName = None /\
   boneName ∈ Object_prototype).
Proof.
  split.
  - intros [Hget Hne]. destruct value as [mapped|key].
    + left. exists mapped. apply Record_get_own in Hget.
      split; [done|]. split; [done|]. by intros ->.
    + right. by apply Record_get_inherited in Hget as (? & ? & ->).
  - intros [(mapped & -> & Hm & Hne)|(-> & Hm & Hk)].
    + split; [by apply Record_get_own | by intros [= ->]].
    + split; [by apply Record_get_inherited | done].
Qed.

Lemma retargetedTrack_is_Some (m : gmap string string) (t : KeyframeTrack) :
  is_Some (retargetedTrack m t) <->
  exists boneName property,
    parseTrackName (track_name t) = Some (boneName, property) /\
    ((exists mapped,
        m !! boneName = Some mapped /\ mapped <> "" /\
        mapped ∉ Object_prototype) \/
     (m !! boneName = None /\ boneName ∈ Object_prototype)) /\
    property <> "position" /\ property <> "scale" /\ times t <> [].
Proof.
  split.
  - intros [t' (value & corrected & Hout)%retargetedTrack_Some].
    apply trackOutcome_Emitted in Hout
      as (b & p & needed & Hparse & Hget & Hne & Hp1 & Hp2 & Hts & Hn & _).
    exists b, p. split; [done|]. split; [|by repeat split].
    clear Hp1 Hp2 Hts Hparse.
    destruct (proj1 (Record_get_usable m b value) (conj Hget Hne))
      as [(mapped & -> & Hm & Hne')|(-> & Hm & Hk)]; [left | by right].
    exists mapped. do 2 (split; [done|]). intros Hproto.
    assert (Hthrow : needsHandCorrection (Own mapped) p = None)
      by (apply needsHandCorrection_throws; by exists mapped).
    congruence.
  - intros (b & p & Hparse & Hvalue & Hp1 & Hp2 & Hts).
    assert (Hemit : exists value needed,
              Record_get m b = Some value /\ value <> Own "" /\
              needsHandCorrection value p = Some needed).
    { destruct Hvalue as [(mapped & Hm & Hne & Hproto)|[Hm Hk]].
      - destruct (needsHandCorrection (Own mapped) p) as [needed|] eqn:Hn.
        + exists (Own mapped), needed. split; [by apply Record_get_own|].
          split; [by intros [= ->] | done].
        + apply needsHandCorrection_throws in Hn as (? & [= <-] & ?). done.
      - exists (Inherited b), None.
        split; [by apply Record_get_inherited|]. split; [done|].
        apply needsHandCorrection_Inherited. }
    destruct Hemit as (value & needed & Hget & Hne & Hn).
    eexists. apply retargetedTrack_Some.
    exists value, (bool_decide (is_Some needed)).
    apply trackOutcome_Emitted. exists b, p, needed. by repeat split.
Qed.

(** X5. A track is emitted exactly when its name parses, the lookup of its
    bone in the map gives a value that is neither [undefined] nor empty
    and does not make the lookup in the correction table throw, its
    property is neither [position] nor [scale], and it has a keyframe. In
    terms of the entries of the map: the bone has a non-empty entry that is
    no name of a member of [Object.prototype], or it has no entry and is
    itself such a name. So the retargeted clip has no more tracks than the
    input clip, and each of them has a keyframe. *)
Theorem retargetAnimationClip_survivors (clip : AnimationClip)
    (boneNameMap : gmap string string) (animationName : string) :
  let out := (retargetAnimationClip clip boneNameMap animationName).1 in
  tracks out = omap (retargetedTrack boneNameMap) (tracks clip) /\
  (forall t,
     is_Some (retargetedTrack boneNameMap t) <->
     exists boneName property,
       parseTrackName (track_name t) = Some (boneName, property) /\
       ((exists mapped,
           boneNameMap !! boneName = Some mapped /\ mapped <> "" /\
           mapped ∉ Object_prototype) \/
        (boneNameMap !! boneName = None /\ boneName ∈ Object_prototype)) /\
       property <> "position" /\ property <> "scale" /\ times t <> []) /\
  length (tracks out) <= length (tracks clip) /\
  Forall (fun t' => times t' <> []) (tracks out).
Proof.
  intros out. subst out. rewrite retargetAnimationClip_tracks.
  split; [done|]. split; [apply retargetedTrack_is_Some|]. split.
  - induction (tracks clip) as [|t ts IH]; csimpl; [done|].
    destruct (retargetedTrack boneNameMap t); simpl; lia.
  - apply Forall_forall. intros t' (t & _ & Ht')%list_elem_of_omap.
    apply retargetedTrack_Some in Ht' as (value & corrected & Hout).
    by apply trackOutcome_Emitted in Hout
      as (b & p & needed & _ & _ & _ & _ & _ & ? & _ & _ & ->).
Qed.


(** X7. The correction is applied to exactly the quaternion tracks of the two
    hands, and it is the half turn about X: the forearm entries of the
    table are the identity and select nothing, and nothing is selected for
    a value that the map inherits. This holds when [0 === 0], [1 === 1]
    and the half turn is not the identity, as for the numbers of
    JavaScript. *)
Theorem needsHandCorrection_exactly_hands (value : Property string)
    (property : string) (c : Quaternion) :
  feqb f0 f0 = true -> feqb f1 f1 = true ->
  equals (setFromAxisAngle (mkVector3 f1 f0 f0) PI) identityQuaternion
    = false ->
  needsHandCorrection value property = Some (Some c) <->
  (value = Own "LeftHand" \/ value = Own "RightHand") /\
  property = "quaternion" /\
  c = setFromAxisAngle (mkVector3 f1 f0 f0) PI.
Proof.
  intros H0 H1 Hflip.
  assert (Hid : equals identityQuaternion identityQuaternion = true)
    by (unfold equals; simpl; by rewrite H0, H1).
  rewrite needsHandCorrection_Some, handBoneCorrections_lookup. split.
  - intros (Hc & Hne & ->).
    destruct value as [mapped|key].
    + simpl in Hc. repeat case_decide; simplify_eq; try congruence; auto.
    + destruct (toString_Inherited_not_corrected key).
      repeat case_decide; try done; set_solver.
  - intros ([-> | ->] & -> & ->); simpl; repeat case_decide; simplify_eq; auto.
Qed.

Lemma trackOutcome_InvalidName (m : gmap string string) (t : KeyframeTrack) :
  trackOutcome m t = InvalidName <-> parseTrackName (track_name t) = None.
Proof.
  unfold trackOutcome.
  destruct (parseTrackName (track_name t)) as [[b p]|]; [|done].
  split; [|done].
  destruct (Record_get m b) as [[[|a mapped]|key]|]; try done.
  all: destruct (bool_decide (p = "position") || bool_decide (p = "scale"));
    [done|].
  all: destruct (needsHandCorrection _ p) as [[hc|]|]; [| |done].
  all: by destruct (newKeyframeTrack _ _ _ _).
Qed.

Lemma trackOutcome_Unmapped (m : gmap string string) (t : KeyframeTrack)
    (boneName : string) :
  trackOutcome m t = Unmapped boneName <->
  exists property,
    parseTrackName (track_name t) = Some (boneName, property) /\
    (m !! boneName = Some "" \/
     (m !! boneName = None /\ boneName ∉ Object_prototype)).
Proof.
  unfold trackOutcome.
  destruct (parseTrackName (track_name t)) as [[b p]|];
    [|split; [done | by intros (? & ? & _)]].
  destruct (Record_get m b) as [[[|a mapped]|key]|] eqn:Hget.
  - apply Record_get_own in Hget. split.
    + intros [= <-]. exists p. split; [done|]. by left.
    + by intros (? & [= <- <-] & _).
  - apply Record_get_own in Hget. split.
    + destruct (bool_decide (p = "position") || bool_decide (p = "scale"));
        [done|].
      destruct (needsHandCorrection _ p) as [[hc|]|]; [| |done];
        by destruct (newKeyframeTrack _ _ _ _).
    + intros (? & [= <- <-] & [Hm|[Hm _]]); congruence.
  - apply Record_get_inherited in Hget as (Hm & Hk & _). split.
    + destruct (bool_decide (p = "position") || bool_decide (p = "scale"));
        [done|].
      destruct (needsHandCorrection _ p) as [[hc|]|]; [| |done];
        by destruct (newKeyframeTrack _ _ _ _).
    + intros (? & [= <- <-] & [Hm'|[_ Hk']]); [congruence | done].
  - apply Record_get_None in Hget as [Hm Hk]. split.
    + intros [= <-]. exists p. split; [done|]. by right.
    + by intros (? & [= <- <-] & _).
Qed.

Lemma trackOutcome_Thrown (m : gmap string string) (t : KeyframeTrack) :
  trackOutcome m t = Thrown <->
  exists boneName property,
    parseTrackName (track_name t) = Some (boneName, property) /\
    property <> "position" /\ property <> "scale" /\
    ((exists mapped,
        m !! boneName = Some mapped /\ mapped <> "" /\
        (mapped ∈ Object_prototype \/ times t = [])) \/
     (m !! boneName = None /\ boneName ∈ Object_prototype /\ times t = [])).
Proof.
  destruct (parseTrackName (track_name t)) as [[b p]|] eqn:Hparse.
  2:{ split; [|by intros (? & ? & ? & _)].
      by rewrite (proj2 (trackOutcome_InvalidName m t) Hparse). }
  assert (Hcases :
    (exists value, Record_get m b = Some value /\ value <> Own "" /\
                   p <> "position" /\ p <> "scale") \/
    (trackOutcome m t <> Thrown /\
     ((Record_get m b = None \/ Record_get m b = Some (Own "")) \/
      (p = "position" \/ p = "scale")))).
  { unfold trackOutcome. rewrite Hparse.
    destruct (Record_get m b) as [[[|a mapped]|key]|];
      [right; split; [done|]; left; by right | | |
       right; split; [done|]; left; by left].
    all: destruct (bool_decide (p = "position") || bool_decide (p = "scale"))
      eqn:Hp.
    all: try (right; split; [done|]; right;
              apply orb_true_iff in Hp as [?%bool_decide_eq_true
                                          |?%bool_decide_eq_true]; by auto).
    all: apply orb_false_iff in Hp
      as [Hp1%bool_decide_eq_false Hp2%bool_decide_eq_false].
    all: left; eexists; by repeat split. }
  destruct Hcases as [(value & Hget & Hne & Hp1 & Hp2)|[Hnot Hwhy]].
  - assert (Hout : trackOutcome m t = Thrown <->
                   needsHandCorrection value p = None \/ times t = []).
    { unfold trackOutcome. rewrite Hparse, Hget.
      rewrite (bool_decide_eq_false_2 _ Hp1), (bool_decide_eq_false_2 _ Hp2).
      simpl. unfold newKeyframeTrack.
      destruct value as [[|a mapped]|key]; [done|..];
        destruct (needsHandCorrection _ p) as [[hc|]|];
        destruct (times t); split; try done; try (by left); try (by right);
        by intros [|]. }
    rewrite Hout, needsHandCorrection_throws. clear Hout.
    destruct (proj1 (Record_get_usable m b value) (conj Hget Hne))
      as [(mapped & -> & Hm & Hne')|(-> & Hm & Hk)].
    + split.
      * intros Hwhy. exists b, p. do 3 (split; [done|]). left.
        exists mapped. do 2 (split; [done|]).
        destruct Hwhy as [(? & [= <-] & ?)|?]; [by left | by right].
      * intros (? & ? & [= <- <-] & _ & _ & [(mapped' & Hm' & _ & Hwhy)|
                                             (Hm' & _)]); [|congruence].
        rewrite Hm in Hm'. injection Hm' as <-.
        destruct Hwhy as [?|?]; [left; by exists mapped | by right].
    + split.
      * intros [(? & [=] & _)|Hts]. exists b, p. do 3 (split; [done|]).
        by right.
      * intros (? & ? & [= <- <-] & _ & _ & [(mapped' & Hm' & _)|
                                             (_ & _ & ?)]);
          [congruence | by right].
  - split; [done|].
    intros (? & ? & [= <- <-] & Hp1 & Hp2 & Hvalue). exfalso.
    destruct Hwhy as [[Hget|Hget]|[?|?]]; try done.
    + apply Record_get_None in Hget as [Hm Hk].
      destruct Hvalue as [(? & ? & _)|(_ & ? & _)]; [congruence | done].
    + apply Record_get_own in Hget.
      destruct Hvalue as [(? & ? & ? & _)|(? & _)]; congruence.
Qed.

(** X8. What [retargetAnimationClip] reports: a warning for exactly the tracks
    whose name has no [.]; an error for exactly the tracks, neither
    position nor scale, that throw: those whose bone has a non-empty
    entry in the map that is the name of a member of [Object.prototype]
    (the lookup in the correction table finds a function without
    [equals]), and those that reach the track constructor without a
    keyframe; the error for an empty result exactly when no track is
    emitted; and never anything else. *)
Theorem retargetAnimationClip_reports (clip : AnimationClip)
    (boneNameMap : gmap string string) (animationName : string) :
  let out := retargetAnimationClip clip boneNameMap animationName in
  (forall n, WarnInvalidTrackName n ∈ out.2 <->
     exists t, t ∈ tracks clip /\ track_name t = n /\
               parseTrackName n = None) /\
  (forall n, ErrorProcessingTrack n ∈ out.2 <->
     exists t boneName property,
       t ∈ tracks clip /\ track_name t = n /\
       parseTrackName n = Some (boneName, property) /\
       property <> "position" /\ property <> "scale" /\
       ((exists mapped,
           boneNameMap !! boneName = Some mapped /\ mapped <> "" /\
           (mapped ∈ Object_prototype \/ times t = [])) \/
        (boneNameMap !! boneName = None /\ boneName ∈ Object_prototype /\
         times t = []))) /\
  (forall a, ErrorNoTracks a ∈ out.2 <->
     a = animationName /\ tracks out.1 = []) /\
  (forall n, WarnBoneNotFound n ∉ out.2).
Proof.
  intros out. subst out. rewrite retargetAnimationClip_console.
  set (out := (retargetAnimationClip clip boneNameMap animationName).1).
  assert (Hloop : forall d,
    d ∈ omap (trackDiagnostic boneNameMap) (tracks clip) <->
    exists t, t ∈ tracks clip /\ trackDiagnostic boneNameMap t = Some d)
    by (intros d; apply list_elem_of_omap).
  assert (Hdiag : forall t d, trackDiagnostic boneNameMap t = Some d <->
    (d = WarnInvalidTrackName (track_name t) /\
     trackOutcome boneNameMap t = InvalidName) \/
    (d = ErrorProcessingTrack (track_name t) /\
     trackOutcome boneNameMap t = Thrown)).
  { intros t d. unfold trackDiagnostic.
    destruct (trackOutcome boneNameMap t); split;
      try done; try (by intros [[_ ?]|[_ ?]]).
    - intros [= <-]. by left.
    - by intros [[-> _]|[_ ?]].
    - intros [= <-]. by right.
    - by intros [[_ ?]|[-> _]]. }
  assert (Hlast : forall d,
    d ∈ match tracks out with
        | [] => [ErrorNoTracks animationName]
        | _ => []
        end <-> d = ErrorNoTracks animationName /\ tracks out = []).
  { intros d. destruct (tracks out).
    - rewrite list_elem_of_singleton. split; [done | by intros [? _]].
    - split; [by inversion 1 | by intros [_ ?]]. }
  split; [|split; [|split]].
  - intros n. rewrite elem_of_app, Hloop, Hlast. split.
    + intros [(t & Ht & [[[= ->] Hp]|[[=] _]]%Hdiag)|[[=] _]].
      exists t. by apply trackOutcome_InvalidName in Hp.
    + intros (t & Ht & <- & Hp). left. exists t. split; [done|].
      apply Hdiag. left. split; [done|]. by apply trackOutcome_InvalidName.
  - intros n. rewrite elem_of_app, Hloop, Hlast. split.
    + intros [(t & Ht & [[[=] _]|[[= ->] Hthrown]]%Hdiag)|[[=] _]].
      apply trackOutcome_Thrown in Hthrown as (b & p & ?).
      by exists t, b, p.
    + intros (t & b & p & Ht & <- & Hwhy). left. exists t. split; [done|].
      apply Hdiag. right. split; [done|]. apply trackOutcome_Thrown.
      by exists b, p.
  - intros a. rewrite elem_of_app, Hloop, Hlast. split.
    + intros [(t & Ht & [[[=] _]|[[=] _]]%Hdiag)|[[= ->] ?]]. done.
    + intros [-> ?]. by right.
  - intros n. rewrite elem_of_app, Hloop, Hlast.
    by intros [(t & Ht & [[[=] _]|[[=] _]]%Hdiag)|[[=] _]].
Qed.

(** X25. [retargetAnimationClip] returns a clip for every input. Its name is
    the input clip's name, or the fallback name when that name is empty;
    its duration is the input clip's duration, the clip constructor
    recomputing from the tracks only a negative duration, which no
    constructed clip has. Each input track contributes to the output on its
    own, so that a dropped track leaves the others in place: a track whose
    name has no [.] is dropped with a warning, and a track whose bone has
    no entry in the map is dropped unless the bone is named like a member
    of [Object.prototype]. When no track is left the clip is still
    returned, and the condition is reported. *)
Theorem retargetAnimationClip_recovers (clip : AnimationClip)
    (boneNameMap : gmap string string) (animationName : string) :
  let out := retargetAnimationClip clip boneNameMap animationName in
  clip_name out.1
    = (if bool_decide (clip_name clip = "") then animationName
       else clip_name clip) /\
  (fltb (duration clip) f0 = false -> duration out.1 = duration clip) /\
  duration out.1
    = (if fltb (duration clip) f0 then resetDuration (tracks out.1)
       else duration clip) /\
  tracks out.1 = omap (retargetedTrack boneNameMap) (tracks clip) /\
  (forall t, t ∈ tracks clip -> parseTrackName (track_name t) = None ->
     retargetedTrack boneNameMap t = None /\
     WarnInvalidTrackName (track_name t) ∈ out.2) /\
  (forall t boneName property,
     parseTrackName (track_name t) = Some (boneName, property) ->
     boneNameMap !! boneName = None -> boneName ∉ Object_prototype ->
     retargetedTrack boneNameMap t = None) /\
  (forall before t after,
     tracks clip = before ++ t :: after ->
     retargetedTrack boneNameMap t = None ->
     tracks out.1
     = tracks (retargetAnimationClip
                 (mkAnimationClip (clip_name clip) (duration clip)
                    (before ++ after))
                 boneNameMap animationName).1) /\
  (tracks out.1 = [] -> ErrorNoTracks animationName ∈ out.2).
Proof.
  intros out. split; [done|]. split.
  { intros Hd. subst out. unfold retargetAnimationClip, newAnimationClip.
    simpl. by rewrite Hd. }
  split; [done|].
  split; [apply retargetAnimationClip_tracks|]. split.
  { intros t Ht Hparse.
    assert (Hout : trackOutcome boneNameMap t = InvalidName)
      by by apply trackOutcome_InvalidName.
    split; [unfold retargetedTrack; by rewrite Hout|].
    subst out. rewrite retargetAnimationClip_console.
    apply elem_of_app. left. apply list_elem_of_omap. exists t.
    split; [done|]. unfold trackDiagnostic. by rewrite Hout. }
  split.
  { intros t boneName property Hparse Hm Hproto.
    assert (Hout : trackOutcome boneNameMap t = Unmapped boneName).
    { apply trackOutcome_Unmapped. exists property. split; [done|].
      by right. }
    unfold retargetedTrack. by rewrite Hout. }
  split.
  { intros before t after Hts Hdrop. subst out.
    rewrite !retargetAnimationClip_tracks. simpl.
    rewrite Hts, !omap_app. simpl. by rewrite Hdrop. }
  subst out. rewrite retargetAnimationClip_console. intros ->.
  apply elem_of_app. right. apply list_elem_of_here.
Qed.

(** X9. The samples of a value buffer are corrected one by one: correcting a
    buffer made of whole samples followed by more values is correcting the
    two parts. *)
Theorem correctValues_app (c : Quaternion) (n : nat) (vs1 vs2 : list F) :
  length vs1 = 4 * n ->
  correctValues c (vs1 ++ vs2) = correctValues c vs1 ++ correctValues c vs2.
Proof.
  revert n. induction vs1 as [| | | |x y z w rest IH] using list_by_four_ind;
    intros n Hlen; simpl in Hlen; try lia.
  - done.
  - destruct n as [|n]; [lia|].
    change ((x :: y :: z :: w :: rest) ++ vs2)
      with (x :: y :: z :: w :: (rest ++ vs2)).
    cbn [correctValues]. rewrite (IH n) by lia. done.
Qed.

(** ** Rest pose: what is written and what is left *)

(** X11. Neither function renames, adds, removes or reorders bones. *)
Theorem pose_functions_keep_names (skeleton : list Bone)
    (delta : list (string * Quaternion)) :
  bone_name <$> tp_skeleton (applyTPoseCorrection skeleton)
    = bone_name <$> skeleton /\
  bone_name <$> restoreAPose skeleton delta = bone_name <$> skeleton.
Proof.
  split; [|apply restoreAPose_names].
  by destruct (applyTPoseCorrection_state skeleton) as (Hn & _).
Qed.

Lemma findBoneByName_absent (sk : list Bone) (name : string) :
  name ∉ bone_name <$> sk -> findBoneByName sk name = None.
Proof.
  intros Hn. apply list_find_None, Forall_forall. intros b Hb Hname.
  apply Hn. rewrite <- Hname. by apply list_elem_of_fmap_2.
Qed.

(** X12. On a skeleton that has none of the four arm bones the correction
    changes nothing and saves nothing, and warns about each of the four
    names, in the order of the table. *)
Theorem applyTPoseCorrection_no_arm_bones (skeleton : list Bone) :
  (forall name,
     name ∈ ["LeftUpperArm"; "RightUpperArm"; "LeftShoulder"; "RightShoulder"] ->
     name ∉ bone_name <$> skeleton) ->
  applyTPoseCorrection skeleton
  = mkTPoseState skeleton []
      [WarnBoneNotFound "LeftUpperArm"; WarnBoneNotFound "RightUpperArm";
       WarnBoneNotFound "LeftShoulder"; WarnBoneNotFound "RightShoulder"].
Proof.
  intros Habsent.
  assert (Hfind : forall name,
    name ∈ ["LeftUpperArm"; "RightUpperArm"; "LeftShoulder"; "RightShoulder"] ->
    findBoneByName skeleton name = None)
    by (intros name Hn; by apply findBoneByName_absent, Habsent).
  unfold applyTPoseCorrection, armBones. cbn [foldl].
  unfold correctArmBone. cbn [tp_skeleton originalRotations tp_console].
  rewrite !Hfind by set_solver. done.
Qed.

Lemma firstIndex_earlier (sk : list Bone) (name : string) (i j : nat)
    (b : Bone) :
  firstIndex sk name = Some j -> i < j -> sk !! i = Some b ->
  bone_name b <> name.
Proof.
  unfold firstIndex. intros Hj Hij Hb.
  destruct (findBoneByName sk name) as [[j' bj]|] eqn:Hf; [|done].
  injection Hj as ->. apply list_find_Some in Hf as (_ & _ & Hlt).
  by apply (Hlt i b).
Qed.

Lemma restoreAPose_not_first (delta : list (string * Quaternion))
    (sk : list Bone) (j : nat) (b : Bone) :
  sk !! j = Some b -> firstIndex sk (bone_name b) <> Some j ->
  restoreAPose sk delta !! j = Some b.
Proof.
  unfold restoreAPose. revert sk.
  induction delta as [|[name quat] delta IH]; intros sk Hb Hj; [done|].
  cbn [foldl].
  assert (Hstep : restoreBone sk (name, quat) !! j = Some b).
  { rewrite (restoreBone_lookup _ _ _ _ _ Hb).
    rewrite decide_False; [done|]. intros Hi. apply Hj.
    by rewrite (firstIndex_name _ _ _ _ Hi Hb). }
  apply IH; [done|].
  by rewrite (firstIndex_same_names _ sk) by apply restoreBone_names.
Qed.

(** X13. When two bones have the same name, only the first is ever found: the
    later one keeps its rotation through the correction and through any
    restore. *)
Theorem pose_functions_first_bone_only (skeleton : list Bone)
    (delta : list (string * Quaternion)) (i j : nat) (b b' : Bone) :
  i < j -> skeleton !! i = Some b -> skeleton !! j = Some b' ->
  bone_name b = bone_name b' ->
  tp_skeleton (applyTPoseCorrection skeleton) !! j = Some b' /\
  restoreAPose skeleton delta !! j = Some b'.
Proof.
  intros Hij Hb Hb' Hname.
  assert (Hnot : firstIndex skeleton (bone_name b') <> Some j).
  { intros Hj. by apply (firstIndex_earlier _ _ _ _ _ Hj Hij Hb). }
  split; [|by apply restoreAPose_not_first].
  destruct (applyTPoseCorrection_state skeleton) as (_ & _ & _ & Hl).
  rewrite (Hl _ _ Hb'). unfold correctedBone. by rewrite decide_False.
Qed.

(** X14. With distinct keys, [restoreAPose] gives the bone found under each key
    exactly the rotation saved under that key, whatever its rotation was. *)
Theorem restoreAPose_writes_saved (skeleton : list Bone)
    (delta : list (string * Quaternion)) (name : string) (quat : Quaternion)
    (i : nat) (bone : Bone) :
  NoDup delta.*1 -> (name, quat) ∈ delta ->
  findBoneByName skeleton name = Some (i, bone) ->
  restoreAPose skeleton delta !! i = Some (mkBone name quat).
Proof.
  intros Hnd Hin Hf.
  pose proof (findBoneByName_name _ _ _ _ Hf) as Hname.
  apply findBoneByName_Some in Hf as [Hi Hb].
  rewrite (restoreAPose_lookup _ _ _ _ Hnd Hb), Hname.
  rewrite decide_True by done.
  by rewrite (elem_of_list_to_map_1 delta name quat Hnd Hin).
Qed.

(** X15. With distinct keys, restoring twice is restoring once. *)
Theorem restoreAPose_idempotent (skeleton : list Bone)
    (delta : list (string * Quaternion)) :
  NoDup delta.*1 ->
  restoreAPose (restoreAPose skeleton delta) delta
  = restoreAPose skeleton delta.
Proof.
  intros Hnd. apply list_eq. intros i.
  pose proof (restoreAPose_names delta skeleton) as Hn.
  destruct (skeleton !! i) as [b|] eqn:Hb.
  - pose proof (restoreAPose_lookup _ _ _ _ Hnd Hb) as H1.
    rewrite (restoreAPose_lookup _ _ _ _ Hnd H1), H1. f_equal.
    rewrite (firstIndex_same_names _ skeleton _ Hn).
    destruct (decide (firstIndex skeleton (bone_name b) = Some i))
      as [Hi|Hi].
    + destruct ((list_to_map delta : gmap string Quaternion)
                  !! bone_name b) as [quat|] eqn:Hq; simpl.
      * by rewrite decide_True, Hq.
      * by rewrite decide_True, Hq.
    + by rewrite decide_False.
  - assert (Hlen : forall sk : list Bone,
              bone_name <$> sk = bone_name <$> skeleton ->
              sk !! i = None).
    { intros sk Hsk. apply lookup_ge_None. apply lookup_ge_None in Hb.
      rewrite <- (length_fmap bone_name sk), Hsk, length_fmap. done. }
    rewrite (Hlen _ Hn). apply Hlen. by rewrite restoreAPose_names.
Qed.

(** ** The lists the retargeter reports *)

Lemma retargetTrack_lists (m : gmap string string) (st : RetargetState)
    (t : KeyframeTrack) :
  let st' := retargetTrack m st t in
  processedBones st'
  = match processedBone m t with
    | Some b => pushUnique b (processedBones st)
    | None => processedBones st
    end /\
  skippedBones st'
  = match skippedBone m t with
    | Some b => pushUnique b (skippedBones st)
    | None => skippedBones st
    end /\
  ((forall b, b ∈ handCorrectedBones st -> b ∈ processedBones st) ->
   forall b, b ∈ handCorrectedBones st' -> b ∈ processedBones st').
Proof.
  cbn zeta. rewrite retargetTrack_outcome.
  unfold processedBone, skippedBone.
  destruct (trackOutcome m t) as [| | | |newTrack value corrected]; simpl;
    try done.
  split; [done|]. split; [done|]. intros Hsub b Hb.
  apply pushUnique_elem.
  destruct corrected; [|right; by apply Hsub].
  apply elem_of_app in Hb as [Hb|Hb%list_elem_of_singleton];
    [right; by apply Hsub | by left].
Qed.

Lemma pushUnique_fold {T A : Type} `{EqDecision A} (f : T -> option A)
    (ts : list T) (acc : list A) :
  NoDup acc ->
  let r := foldl (fun acc t => match f t with
                               | Some b => pushUnique b acc
                               | None => acc
                               end) acc ts in
  NoDup r /\
  forall b, b ∈ r <-> b ∈ acc \/ exists t, t ∈ ts /\ f t = Some b.
Proof.
  revert acc. induction ts as [|t ts IH]; intros acc Hacc; cbn [foldl].
  - split; [done|]. intros b. split; [by left|].
    intros [?|(t & Ht & _)]; [done | by inversion Ht].
  - cbn zeta in IH. destruct (f t) as [b0|] eqn:Hf.
    + destruct (IH (pushUnique b0 acc) (pushUnique_NoDup _ _ Hacc))
        as [Hnd Hel].
      split; [done|]. intros b. rewrite Hel, pushUnique_elem. split.
      * intros [[->|?]|(t0 & Ht0 & Hb)]; [|by left|].
        -- right. exists t. split; [by left | done].
        -- right. exists t0. split; [by right | done].
      * intros [?|(t0 & [->|Ht0]%elem_of_cons & Hb)]; [left; by right| |].
        -- left. left. congruence.
        -- right. by exists t0.
    + destruct (IH acc Hacc) as [Hnd Hel]. split; [done|].
      intros b. rewrite Hel. split.
      * intros [?|(t0 & Ht0 & Hb)]; [by left|].
        right. exists t0. split; [by right | done].
      * intros [?|(t0 & [->|Ht0]%elem_of_cons & Hb)]; [by left|congruence|].
        right. by exists t0.
Qed.

Lemma retargetTracks_lists (m : gmap string string) (ts : list KeyframeTrack)
    (st : RetargetState) :
  let st' := foldl (retargetTrack m) st ts in
  processedBones st'
  = foldl (fun acc t => match processedBone m t with
                        | Some b => pushUnique b acc
                        | None => acc
                        end) (processedBones st) ts /\
  skippedBones st'
  = foldl (fun acc t => match skippedBone m t with
                        | Some b => pushUnique b acc
                        | None => acc
                        end) (skippedBones st) ts /\
  ((forall b, b ∈ handCorrectedBones st -> b ∈ processedBones st) ->
   forall b, b ∈ handCorrectedBones st' -> b ∈ processedBones st').
Proof.
  revert st. induction ts as [|t ts IH]; intros st; cbn [foldl]; [done|].
  cbn zeta in IH. destruct (IH (retargetTrack m st t)) as (Hp & Hs & Hh).
  destruct (retargetTrack_lists m st t) as (Hp' & Hs' & Hh').
  split; [by rewrite Hp, Hp'|]. split; [by rewrite Hs, Hs'|].
  intros Hsub. apply Hh. by apply Hh'.
Qed.

(** The value entered in [processedBones] for an emitted track is what the
    lookup of its bone gave. *)
Lemma processedBone_Some (m : gmap string string) (t : KeyframeTrack)
    (value : Property string) :
  processedBone m t = Some value <->
  is_Some (retargetedTrack m t) /\
  exists boneName property,
    parseTrackName (track_name t) = Some (boneName, property) /\
    Record_get m boneName = Some value.
Proof.
  unfold processedBone, retargetedTrack.
  destruct (trackOutcome m t) as [| | | |newTrack v corrected] eqn:Hout;
    try (split; [done | by intros [[? ?] _]]).
  apply trackOutcome_Emitted in Hout
    as (b & p & needed & Hparse & Hget & _). split.
  - intros [= <-]. split; [by eexists|]. by exists b, p.
  - intros (_ & b' & p' & Hparse' & Hget').
    rewrite Hparse in Hparse'. injection Hparse' as <- <-. congruence.
Qed.

(** X10. The lists that [retargetAnimationClip] reports at its end. The
    processed bones are what the lookup in the map gave for the bones of
    the emitted tracks, each listed once: the mapped name where the map
    has an entry, and the inherited member where it has none. The skipped
    bones are the bones with an empty entry, or with no entry and a name
    that [Object.prototype] does not have, each listed once. Every
    hand-corrected bone is a processed bone. *)
Theorem retarget_bookkeeping (clip : AnimationClip)
    (boneNameMap : gmap string string) :
  let st := foldl (retargetTrack boneNameMap)
              (mkRetargetState [] [] [] [] []) (tracks clip) in
  NoDup (processedBones st) /\ NoDup (skippedBones st) /\
  (forall mapped, Own mapped ∈ processedBones st <->
     exists t boneName property,
       t ∈ tracks clip /\ is_Some (retargetedTrack boneNameMap t) /\
       parseTrackName (track_name t) = Some (boneName, property) /\
       boneNameMap !! boneName = Some mapped) /\
  (forall key, Inherited key ∈ processedBones st <->
     exists t property,
       t ∈ tracks clip /\ is_Some (retargetedTrack boneNameMap t) /\
       parseTrackName (track_name t) = Some (key, property) /\
       boneNameMap !! key = None) /\
  (forall b, b ∈ skippedBones st <->
     exists t property,
       t ∈ tracks clip /\
       parseTrackName (track_name t) = Some (b, property) /\
       (boneNameMap !! b = Some "" \/
        (boneNameMap !! b = None /\ b ∉ Object_prototype))) /\
  (forall b, b ∈ handCorrectedBones st -> b ∈ processedBones st).
Proof.
  intros st.
  destruct (retargetTracks_lists boneNameMap (tracks clip)
              (mkRetargetState [] [] [] [] [])) as (Hp & Hs & Hh).
  fold st in Hp, Hs, Hh. simpl in Hp, Hs, Hh.
  destruct (pushUnique_fold (processedBone boneNameMap) (tracks clip) []
              NoDup_nil_2) as [Hpn Hpe].
  destruct (pushUnique_fold (skippedBone boneNameMap) (tracks clip) []
              NoDup_nil_2) as [Hsn Hse].
  cbn zeta in Hpn, Hpe, Hsn, Hse.
  rewrite <- Hp in Hpn, Hpe. rewrite <- Hs in Hsn, Hse.
  assert (Hprocessed : forall value, value ∈ processedBones st <->
    exists t boneName property,
      t ∈ tracks clip /\ is_Some (retargetedTrack boneNameMap t) /\
      parseTrackName (track_name t) = Some (boneName, property) /\
      Record_get boneNameMap boneName = Some value).
  { intros value. rewrite Hpe. split.
    - intros [Hnil|(t & Ht & (? & b & p & ? & ?)%processedBone_Some)];
        [by inversion Hnil|].
      by exists t, b, p.
    - intros (t & b & p & Ht & Hemit & Hparse & Hget). right.
      exists t. split; [done|]. apply processedBone_Some.
      split; [done|]. by exists b, p. }
  split; [done|]. split; [done|]. split; [|split; [|split]].
  - intros mapped. rewrite Hprocessed.
    by setoid_rewrite Record_get_own.
  - intros key. rewrite Hprocessed. split.
    + intros (t & b & p & Ht & Hemit & Hparse
              & (Hm & _ & ->)%Record_get_inherited).
      by exists t, p.
    + intros (t & p & Ht & Hemit & Hparse & Hm). exists t, key, p.
      do 3 (split; [done|]). apply Record_get_inherited.
      split; [done|]. split; [|done].
      apply retargetedTrack_is_Some in Hemit
        as (b & p' & Hparse' & Hvalue & _).
      rewrite Hparse in Hparse'. injection Hparse' as <- <-.
      destruct Hvalue as [(mapped & ? & _)|[_ ?]]; [congruence | done].
  - intros b. rewrite Hse. split.
    + intros [Hnil|(t & Ht & Hb)]; [by inversion Hnil|].
      unfold skippedBone in Hb.
      destruct (trackOutcome boneNameMap t) eqn:Hout; try done.
      injection Hb as ->.
      apply trackOutcome_Unmapped in Hout as (p & ? & ?). by exists t, p.
    + intros (t & p & Ht & Hparse & Hm). right. exists t. split; [done|].
      unfold skippedBone.
      assert (Hout : trackOutcome boneNameMap t = Unmapped b)
        by (apply trackOutcome_Unmapped; by exists p).
      by rewrite Hout.
  - apply Hh. intros b Hb. by inversion Hb.
Qed.

(** ** The viewer *)

Section Viewer.
Variable bindable : string -> bool.

(** The round trip of the rest pose, in a form other proofs can use. *)
Lemma restoreAPose_applyTPoseCorrection_eq (skeleton : list Bone) :
  restoreAPose (tp_skeleton (applyTPoseCorrection skeleton))
    (originalRotations (applyTPoseCorrection skeleton)) = skeleton.
Proof.
  destruct (applyTPoseCorrection_state skeleton) as (Hn & Ho & _ & Hl).
  apply list_eq. intros i.
  destruct (skeleton !! i) as [b|] eqn:Hb.
  - pose proof (Hl i b Hb) as Hb'.
    assert (Hnd : NoDup (originalRotations (applyTPoseCorrection skeleton)).*1)
      by (rewrite Ho; apply savedRotation_NoDup, armBones_NoDup).
    rewrite (restoreAPose_lookup _ _ _ _ Hnd Hb'). f_equal.
    rewrite correctedBone_name, (firstIndex_same_names _ skeleton _ Hn).
    unfold correctedBone.
    destruct (decide (firstIndex skeleton (bone_name b) = Some i))
      as [Hi|]; [|done].
    assert (Hf : findBoneByName skeleton (bone_name b) = Some (i, b))
      by by apply findBoneByName_Some.
    destruct ((list_to_map armBones : gmap string F) !! bone_name b)
      as [angle|] eqn:Ha.
    + rewrite (elem_of_list_to_map_1 _ (bone_name b) (quaternion b) Hnd).
      * by destruct b.
      * rewrite Ho. apply savedRotation_elem. split; [|by exists i, b].
        apply elem_of_list_to_map_2 in Ha.
        by apply (list_elem_of_fmap_2 fst) in Ha.
    + rewrite (proj1 (not_elem_of_list_to_map _ (bone_name b))); [done|].
      rewrite Ho. intros [Hin _]%savedRotation_keys.
      by apply not_elem_of_list_to_map in Ha.
  - apply lookup_ge_None. apply lookup_ge_None in Hb.
    rewrite <- (length_fmap bone_name), restoreAPose_names, Hn, length_fmap.
    done.
Qed.


Lemma findSkinnedMesh_find (root : Object3D) :
  findSkinnedMesh root = List.find instanceofSkinnedMesh (preorder root).
Proof.
  unfold findSkinnedMesh. rewrite traverse_preorder.
  apply (find_callback_fold (preorder root) None).
Qed.

Lemma setActive_clips (active : bool) (a : nat) (m : list AnimationAction) :
  action_clip <$> setActive active a m = action_clip <$> m.
Proof.
  unfold setActive. destruct (m !! a) as [action|] eqn:Ha; [|done].
  rewrite list_fmap_insert. simpl. apply list_insert_id.
  by rewrite list_lookup_fmap, Ha.
Qed.

Lemma setActive_lookup (active : bool) (a a' : nat)
    (m : list AnimationAction) (action : AnimationAction) :
  m !! a' = Some action ->
  setActive active a m !! a'
  = Some (if decide (a' = a) then mkAnimationAction (action_clip action) active
          else action).
Proof.
  intros Ha'. unfold setActive. destruct (decide (a' = a)) as [->|Hne].
  - rewrite Ha'. apply list_lookup_insert_eq. by eapply lookup_lt_Some.
  - destruct (m !! a); [|done]. by rewrite list_lookup_insert_ne.
Qed.

Lemma setActive_lookup_inv (active : bool) (a a' : nat)
    (m : list AnimationAction) (action' : AnimationAction) :
  setActive active a m !! a' = Some action' ->
  exists action,
    m !! a' = Some action /\
    action' = (if decide (a' = a)
               then mkAnimationAction (action_clip action) active
               else action).
Proof.
  intros Ha'. destruct (m !! a') as [action|] eqn:Hm.
  - exists action. split; [done|].
    rewrite (setActive_lookup _ _ _ _ _ Hm) in Ha'. by injection Ha'.
  - exfalso. apply lookup_ge_None in Hm.
    assert (Hlen : length (setActive active a m) = length m).
    { rewrite <- (length_fmap action_clip), setActive_clips.
      apply length_fmap. }
    apply lookup_lt_Some in Ha'. lia.
Qed.

(** What [checkAllLoaded] leaves alone and what it writes. *)
Lemma checkAllLoaded_fields (st : ViewerState) :
  let st' := checkAllLoaded st in
  loadedAnimations st' = loadedAnimations st /\
  savedRotations st' = savedRotations st /\
  boneNameMap st' = boneNameMap st /\
  actionsRef st' = actionsRef st /\
  mixerRef st' = mixerRef st /\
  error st' = error st /\
  action_clip <$> mixer st' = action_clip <$> mixer st /\
  targetSkeleton st'
  = (if bool_decide (loadedAnimations st = totalAnimations)
     then restoreAPose (targetSkeleton st) (savedRotations st)
     else targetSkeleton st) /\
  isLoading st'
  = (if bool_decide (loadedAnimations st = totalAnimations) then false
     else isLoading st).
Proof.
  unfold checkAllLoaded. case_bool_decide as Hn; [|done]. simpl.
  destruct (Object_get "walking" (actionsRef st)) as [a|]; simpl.
  - repeat split; try done. apply setActive_clips.
  - destruct (actionsRef st) as [|[k a] rest]; simpl; [done|].
    repeat split; try done. apply setActive_clips.
Qed.

(** What a load event, completed or failed, does to the count, the saved
    rotations, the skeleton and the loading flag. *)
Lemma handle_load_fields (st : ViewerState) (event : ViewerEvent) :
  isLoadEvent event = true ->
  let st' := handle bindable st event in
  loadedAnimations st' = loadedAnimations st + 1 /\
  savedRotations st' = savedRotations st /\
  mixerRef st' = mixerRef st /\
  error st' = error st /\
  targetSkeleton st'
  = (if bool_decide (loadedAnimations st + 1 = totalAnimations)
     then restoreAPose (targetSkeleton st) (savedRotations st)
     else targetSkeleton st) /\
  isLoading st'
  = (if bool_decide (loadedAnimations st + 1 = totalAnimations) then false
     else isLoading st).
Proof.
  intros Hload. destruct event as [name fbx|name|name]; [| |done]; simpl.
  - unfold onAnimationLoaded.
    destruct (head (animations fbx)) as [animation|].
    + match goal with
      | |- context [checkAllLoaded ?s] =>
          destruct (checkAllLoaded_fields s)
            as (-> & -> & _ & _ & -> & -> & _ & -> & ->)
      end.
      destruct (tracks _); simpl; [done|].
      destruct (clipAction _ _) as [[mixer' action]|]; done.
    + match goal with
      | |- context [checkAllLoaded ?s] =>
          destruct (checkAllLoaded_fields s)
            as (-> & -> & _ & _ & -> & -> & _ & -> & ->)
      end.
      done.
  - unfold onAnimationError.
    match goal with
    | |- context [checkAllLoaded ?s] =>
        destruct (checkAllLoaded_fields s)
          as (-> & -> & _ & _ & -> & -> & _ & -> & ->)
    end.
    done.
Qed.

Lemma loads_fields (loads : list ViewerEvent) (st : ViewerState) :
  Forall (fun event => isLoadEvent event = true) loads ->
  loadedAnimations st + length loads <= totalAnimations ->
  let st' := foldl (handle bindable) st loads in
  loadedAnimations st' = loadedAnimations st + length loads /\
  savedRotations st' = savedRotations st /\
  mixerRef st' = mixerRef st /\
  error st' = error st /\
  targetSkeleton st'
  = (if bool_decide (loadedAnimations st < totalAnimations
                     /\ loadedAnimations st + length loads = totalAnimations)
     then restoreAPose (targetSkeleton st) (savedRotations st)
     else targetSkeleton st) /\
  isLoading st'
  = (if bool_decide (loadedAnimations st < totalAnimations
                     /\ loadedAnimations st + length loads = totalAnimations)
     then false else isLoading st).
Proof.
  intros Hloads. revert st.
  induction Hloads as [|event loads Hevent _ IH]; intros st Hle; simpl.
  - rewrite Nat.add_0_r. rewrite bool_decide_eq_false_2 by lia. done.
  - simpl in Hle.
    destruct (handle_load_fields st event Hevent)
      as (Hn & Hs & Hm & He & Hsk & Hl).
    destruct (IH (handle bindable st event)) as (Hn' & Hs' & Hm' & He' & Hsk' & Hl');
      [lia|].
    rewrite Hn', Hs', Hm', He', Hsk', Hl', Hn, Hs, Hm, He, Hsk, Hl.
    split; [lia|]. do 3 (split; [done|]).
    destruct (decide (loadedAnimations st + 1 = totalAnimations)) as [H6|H6].
    + assert (length loads = 0) as Hz by lia.
      rewrite (bool_decide_eq_true_2 _ H6).
      rewrite bool_decide_eq_false_2 by lia.
      rewrite bool_decide_eq_true_2 by lia. done.
    + rewrite (bool_decide_eq_false_2 _ H6).
      destruct (decide (loadedAnimations st + S (length loads)
                        = totalAnimations)) as [H6'|H6'].
      * rewrite !bool_decide_eq_true_2 by lia. done.
      * rewrite !bool_decide_eq_false_2 by lia. done.
Qed.

(** X16. A run of the effect whose avatar has a skeleton, from whatever state
    it finds, and as long as nothing happens but loads of the run ending
    (no button is clicked, so that the run's mixer has no active action and
    the frame loop writes to no bone of the avatar). Each load that ends,
    completed or failed, is counted once. While fewer than six have ended,
    the skeleton is in the corrected pose and the loading flag is what the
    run found. When the sixth ends, the skeleton is back in the pose it was
    loaded in, and the loading flag is off. *)
Theorem viewer_pose_restored (st0 : ViewerState) (gltf : LoadedScene)
    (skeleton : list Bone) (loads : list ViewerEvent) :
  sceneSkeleton gltf = Some skeleton ->
  Forall (fun event => isLoadEvent event = true) loads ->
  length loads <= totalAnimations ->
  let st := foldl (handle bindable) (onAvatarLoaded gltf st0) loads in
  loadedAnimations st = length loads /\
  (length loads < totalAnimations ->
   targetSkeleton st = tp_skeleton (applyTPoseCorrection skeleton) /\
   isLoading st = isLoading st0) /\
  (length loads = totalAnimations ->
   targetSkeleton st = skeleton /\ isLoading st = false).
Proof.
  intros Hsk Hloads Hlen.
  destruct (loads_fields loads (onAvatarLoaded gltf st0) Hloads)
    as (Hn & _ & _ & _ & Hpose & Hl).
  { unfold onAvatarLoaded. rewrite Hsk. simpl. lia. }
  revert Hn Hpose Hl. unfold onAvatarLoaded. rewrite Hsk. simpl.
  intros -> -> ->. split; [done|]. split.
  - intros Hlt. rewrite !bool_decide_eq_false_2 by (unfold totalAnimations in *; lia).
    done.
  - intros H6. rewrite !bool_decide_eq_true_2 by (unfold totalAnimations in *; lia).
    split; [|done]. apply restoreAPose_applyTPoseCorrection_eq.
Qed.

Lemma handle_boneNameMap_Some (st : ViewerState) (event : ViewerEvent)
    (m : gmap string string) :
  boneNameMap st = Some m -> boneNameMap (handle bindable st event) = Some m.
Proof.
  intros Hm. destruct event as [name fbx|name|name]; simpl.
  - unfold onAnimationLoaded.
    destruct (head (animations fbx)) as [animation|];
      match goal with
      | |- context [checkAllLoaded ?s] =>
          destruct (checkAllLoaded_fields s) as (_ & _ & -> & _)
      end; [|done].
    rewrite Hm. destruct (tracks _); [done|].
    destruct (clipAction _ _) as [[mixer' action]|]; done.
  - unfold onAnimationError.
    match goal with
    | |- context [checkAllLoaded ?s] =>
        destruct (checkAllLoaded_fields s) as (_ & _ & -> & _)
    end. done.
  - unfold playAnimation. destruct (mixerRef st); simpl; [|done].
    destruct (currentActionRef st); simpl;
      destruct (Object_get _ _); done.
Qed.

(** X17. The bone name map is built by the first load that brings a clip, from
    that clip's scene, and is never built again: every later clip is
    retargeted with it. A load without a clip and a failed load build no
    map. *)
Theorem boneNameMap_built_once :
  (forall (st : ViewerState) (m : gmap string string)
          (events : list ViewerEvent),
     boneNameMap st = Some m ->
     boneNameMap (foldl (handle bindable) st events) = Some m) /\
  (forall (st : ViewerState) (name : string) (fbxScene : LoadedScene)
          (animation : AnimationClip),
     boneNameMap st = None ->
     head (animations fbxScene) = Some animation ->
     boneNameMap (onAnimationLoaded bindable name fbxScene st)
     = Some (buildBoneNameMap (sceneSkeleton fbxScene) (targetSkeleton st)
               (Some animation))) /\
  (forall (st : ViewerState) (name : string) (fbxScene : LoadedScene),
     head (animations fbxScene) = None ->
     boneNameMap (onAnimationLoaded bindable name fbxScene st) = boneNameMap st) /\
  (forall (st : ViewerState) (name : string),
     boneNameMap (onAnimationError name st) = boneNameMap st).
Proof.
  split; [|split; [|split]].
  - intros st m events. revert st.
    induction events as [|event events IH]; intros st Hm; simpl; [done|].
    by apply IH, handle_boneNameMap_Some.
  - intros st name fbx animation Hnone Hhead. unfold onAnimationLoaded.
    rewrite Hhead, Hnone.
    match goal with
    | |- context [checkAllLoaded ?s] =>
        destruct (checkAllLoaded_fields s) as (_ & _ & -> & _)
    end.
    destruct (tracks _); [done|].
    destruct (clipAction _ _) as [[mixer' action]|]; done.
  - intros st name fbx Hhead. unfold onAnimationLoaded. rewrite Hhead.
    match goal with
    | |- context [checkAllLoaded ?s] =>
        destruct (checkAllLoaded_fields s) as (_ & _ & -> & _)
    end. done.
  - intros st name. unfold onAnimationError.
    match goal with
    | |- context [checkAllLoaded ?s] =>
        destruct (checkAllLoaded_fields s) as (_ & _ & -> & _)
    end. done.
Qed.

Lemma Map_set_elem {V : Type} (k k' : string) (v v' : V)
    (m : list (string * V)) :
  (k', v') ∈ Map_set k v m -> (k', v') = (k, v) \/ (k', v') ∈ m.
Proof.
  induction m as [|[k0 v0] m IH]; simpl.
  - intros ->%list_elem_of_singleton. by left.
  - case_decide as Hk.
    + intros [->|Hin]%elem_of_cons; [by left|]. right. by right.
    + intros [->|Hin]%elem_of_cons; [right; by left|].
      destruct (IH Hin) as [?|?]; [by left|]. right. by right.
Qed.

Lemma play_only (a a' : nat) (m : list AnimationAction)
    (action' : AnimationAction) :
  Forall (fun action => action_active action = false) m ->
  play a m !! a' = Some action' -> action_active action' = true -> a' = a.
Proof.
  intros Hm Ha' Hactive. unfold play in Ha'.
  apply setActive_lookup_inv in Ha' as (action & Hlookup & ->).
  destruct (decide (a' = a)) as [|Hne]; [done|].
  rewrite Forall_lookup in Hm. rewrite (Hm _ _ Hlookup) in Hactive. done.
Qed.

Lemma play_active (a : nat) (m : list AnimationAction)
    (action : AnimationAction) :
  m !! a = Some action ->
  play a m !! a = Some (mkAnimationAction (action_clip action) true).
Proof.
  intros Ha. unfold play. rewrite (setActive_lookup _ _ _ _ _ Ha).
  by rewrite decide_True.
Qed.

Lemma stop_current_inactive (st : ViewerState) :
  onlyCurrentActive st ->
  Forall (fun action => action_active action = false)
    (match currentActionRef st with
     | Some current => stop current (mixer st)
     | None => mixer st
     end).
Proof.
  intros Hinv. apply Forall_lookup. intros a' action'.
  destruct (currentActionRef st) as [current|] eqn:Hc.
  - unfold stop. intros (action & Hlookup & ->)%setActive_lookup_inv.
    destruct (decide (a' = current)) as [->|Hne]; [done|].
    destruct (action_active action) eqn:Hactive; [|done].
    specialize (Hinv _ _ Hlookup Hactive). congruence.
  - intros Hlookup. destruct (action_active action') eqn:Hactive; [|done].
    specialize (Hinv _ _ Hlookup Hactive). congruence.
Qed.

Lemma Object_get_Some {V : Type} (key : string) (obj : list (string * V))
    (v : V) :
  Object_get key obj = Some v -> (key, v) ∈ obj.
Proof.
  unfold Object_get.
  destruct (list_find _ obj) as [[i [k v']]|] eqn:Hf; [|done].
  simpl. intros [= ->]. apply list_find_Some in Hf as (Hi & Hk & _).
  simpl in Hk. subst k. by eapply list_elem_of_lookup_2.
Qed.

(** X20. What [playAnimation] leaves when no action but the current one is
    active: with a registered name, that name's action is current and is
    the one active action; with a name that is not registered, the current
    action is stopped all the same, so that no action is active, and the
    miss is reported; without a mixer nothing happens but the report. *)
Theorem playAnimation_outcome (animationName : string) (st : ViewerState) :
  onlyCurrentActive st ->
  let st' := playAnimation animationName st in
  (mixerRef st = false -> st' = log [ErrorMixerNotInitialized] st) /\
  (mixerRef st = true ->
   forall a action,
     Object_get animationName (actionsRef st) = Some a ->
     mixer st !! a = Some action ->
     currentActionRef st' = Some a /\
     forall a' action',
       mixer st' !! a' = Some action' ->
       (action_active action' = true <-> a' = a)) /\
  (mixerRef st = true ->
   Object_get animationName (actionsRef st) = None ->
   Forall (fun action => action_active action = false) (mixer st') /\
   currentActionRef st' = currentActionRef st /\
   viewer_console st'
   = viewer_console st ++ [ErrorAnimationNotFound animationName]).
Proof.
  intros Hinv st'. pose proof (stop_current_inactive st Hinv) as Hstopped.
  subst st'. unfold playAnimation. split; [by intros ->|]. split.
  - intros -> a action Hget Ha. simpl.
    destruct (currentActionRef st) as [current|]; simpl in *;
      rewrite Hget; simpl; (split; [done|]); intros a' action' Ha'; split.
    + exact (play_only _ _ _ _ Hstopped Ha').
    + intros ->. unfold stop in *.
      assert (Hlen : is_Some (setActive false current (mixer st) !! a)).
      { apply lookup_lt_is_Some. apply lookup_lt_Some in Ha.
        rewrite <- (length_fmap action_clip), setActive_clips, length_fmap.
        done. }
      destruct Hlen as [action0 Ha0].
      rewrite (play_active _ _ _ Ha0) in Ha'. by injection Ha' as <-.
    + exact (play_only _ _ _ _ Hstopped Ha').
    + intros ->. rewrite (play_active _ _ _ Ha) in Ha'.
      by injection Ha' as <-.
  - intros -> Hget. simpl.
    destruct (currentActionRef st) as [current|] eqn:Hc; simpl in *;
      rewrite Hget; simpl; rewrite ?Hc; by repeat split.
Qed.

Lemma playAnimation_onlyCurrentActive (name : string) (st : ViewerState) :
  onlyCurrentActive st -> onlyCurrentActive (playAnimation name st).
Proof.
  intros Hinv. pose proof (stop_current_inactive st Hinv) as Hstopped.
  unfold playAnimation. destruct (mixerRef st); simpl; [|done].
  destruct (currentActionRef st) as [current|] eqn:Hc; simpl in *.
  - destruct (Object_get name (actionsRef st)) as [a|]; simpl.
    + intros a' action' Ha' Hactive. simpl in *. f_equal.
      symmetry. by eapply play_only.
    + intros a' action' Ha' Hactive. simpl in *.
      rewrite Forall_lookup in Hstopped.
      rewrite (Hstopped _ _ Ha') in Hactive. done.
  - destruct (Object_get name (actionsRef st)) as [a|]; simpl.
    + intros a' action' Ha' Hactive. simpl in *. f_equal.
      symmetry. by eapply play_only.
    + intros a' action' Ha' Hactive. simpl in *.
      rewrite Forall_lookup in Hstopped.
      rewrite (Hstopped _ _ Ha') in Hactive. done.
Qed.

(** A load event is a step that counts, followed by [checkAllLoaded]; the
    step adds at most an inactive action to the mixer. *)
Lemma handle_load_pre (st : ViewerState) (event : ViewerEvent) :
  isLoadEvent event = true ->
  exists s extra,
    handle bindable st event = checkAllLoaded s /\
    loadedAnimations s = loadedAnimations st + 1 /\
    currentActionRef s = currentActionRef st /\
    mixer s = mixer st ++ extra /\
    Forall (fun action => action_active action = false) extra.
Proof.
  intros Hload. destruct event as [name fbx|name|name]; [| |done]; simpl.
  - unfold onAnimationLoaded.
    destruct (head (animations fbx)) as [animation|].
    + destruct (tracks (retargetAnimationClip animation _ _).1) eqn:Hts.
      * eexists _, []. split; [done|]. simpl. rewrite app_nil_r. done.
      * unfold clipAction. destruct (forallb _ _).
        -- eexists _, [_]. split; [done|]. simpl. repeat split; try done.
           by constructor.
        -- eexists _, []. split; [done|]. simpl. rewrite app_nil_r. done.
    + eexists _, []. split; [done|]. simpl. rewrite app_nil_r. done.
  - eexists _, []. split; [done|]. simpl. rewrite app_nil_r. done.
Qed.

Lemma checkAllLoaded_not_yet (s : ViewerState) :
  loadedAnimations s <> totalAnimations -> checkAllLoaded s = s.
Proof.
  intros Hn. unfold checkAllLoaded. by rewrite bool_decide_eq_false_2.
Qed.

Lemma checkAllLoaded_starts (s : ViewerState) :
  loadedAnimations s = totalAnimations ->
  Forall (fun action => action_active action = false) (mixer s) ->
  onlyCurrentActive (checkAllLoaded s).
Proof.
  intros Hn Hidle. unfold checkAllLoaded. rewrite bool_decide_eq_true_2 by done.
  simpl. destruct (Object_get "walking" (actionsRef s)) as [a|]; simpl.
  - intros a' action' Ha' Hactive. simpl in *. f_equal. symmetry.
    by eapply play_only.
  - destruct (actionsRef s) as [|[k a] rest]; simpl.
    + intros a' action' Ha' Hactive. simpl in *.
      rewrite Forall_lookup in Hidle. rewrite (Hidle _ _ Ha') in Hactive.
      done.
    + intros a' action' Ha' Hactive. simpl in *. f_equal. symmetry.
      by eapply play_only.
Qed.

Lemma handle_load_quiet (st : ViewerState) (event : ViewerEvent) :
  isLoadEvent event = true -> quiet st ->
  loadedAnimations st + 1 <> totalAnimations ->
  quiet (handle bindable st event).
Proof.
  intros Hload Hquiet Hn.
  destruct (handle_load_pre st event Hload)
    as (s & extra & -> & Hcount & Hc & Hmixer & Hextra).
  rewrite checkAllLoaded_not_yet by lia.
  unfold quiet. rewrite Hmixer. by apply Forall_app.
Qed.

Lemma loads_quiet (loads : list ViewerEvent) (st : ViewerState) :
  Forall (fun event => isLoadEvent event = true) loads -> quiet st ->
  loadedAnimations st + length loads < totalAnimations ->
  quiet (foldl (handle bindable) st loads).
Proof.
  intros Hloads. revert st.
  induction Hloads as [|event loads Hevent _ IH]; intros st Hquiet Hlt;
    [done|].
  simpl in *. apply IH.
  - apply handle_load_quiet; [done..|lia].
  - destruct (handle_load_fields st event Hevent) as (-> & _). lia.
Qed.

Lemma handle_late_onlyCurrentActive (st : ViewerState) (event : ViewerEvent) :
  onlyCurrentActive st -> totalAnimations <= loadedAnimations st ->
  onlyCurrentActive (handle bindable st event) /\
  totalAnimations <= loadedAnimations (handle bindable st event).
Proof.
  intros Hinv Hn. destruct (isLoadEvent event) eqn:Hload.
  - destruct (handle_load_pre st event Hload)
      as (s & extra & -> & Hcount & Hc & Hmixer & Hextra).
    rewrite checkAllLoaded_not_yet by lia. split; [|lia].
    intros a action. rewrite Hmixer, Hc.
    intros [Ha|[_ Ha]]%lookup_app_Some Hactive; [by eapply Hinv|].
    rewrite Forall_lookup in Hextra. rewrite (Hextra _ _ Ha) in Hactive.
    done.
  - destruct event as [| |name]; [done..|]. simpl. split.
    + by apply playAnimation_onlyCurrentActive.
    + unfold playAnimation. destruct (mixerRef st); simpl; [|done].
      destruct (currentActionRef st); simpl;
        destruct (Object_get _ _); done.
Qed.

(** The state from which the last of the six loads is handled. *)
Lemma sixth_load (st0 : ViewerState) (gltf : LoadedScene)
    (skeleton : list Bone) (loads : list ViewerEvent) :
  sceneSkeleton gltf = Some skeleton ->
  Forall (fun event => isLoadEvent event = true) loads ->
  length loads = totalAnimations ->
  exists s extra,
    foldl (handle bindable) (onAvatarLoaded gltf st0) loads
    = checkAllLoaded s /\
    loadedAnimations s = totalAnimations /\
    mixer s = mixer (foldl (handle bindable) (onAvatarLoaded gltf st0)
                       (removelast loads)) ++ extra /\
    Forall (fun action => action_active action = false) extra.
Proof.
  intros Hsk Hloads Hlen.
  assert (H0 : loadedAnimations (onAvatarLoaded gltf st0) = 0)
    by (unfold onAvatarLoaded; by rewrite Hsk).
  destruct loads as [|e loads _] using rev_ind; [done|].
  rewrite length_app in Hlen. simpl in Hlen.
  apply Forall_app in Hloads as [Hloads He].
  apply Forall_cons in He as [He _].
  rewrite removelast_last, foldl_app. simpl.
  set (st5 := foldl (handle bindable) (onAvatarLoaded gltf st0) loads).
  assert (H5 : loadedAnimations st5 = length loads).
  { destruct (loads_fields loads (onAvatarLoaded gltf st0) Hloads)
      as (Hn & _); [rewrite H0; lia|].
    subst st5. rewrite Hn, H0. done. }
  destruct (handle_load_pre st5 e He)
    as (s & extra & -> & Hcount & Hc & Hmixer & Hextra).
  exists s, extra. split; [done|]. split; [lia|]. done.
Qed.

Lemma sixth_load_quiet (st0 : ViewerState) (gltf : LoadedScene)
    (skeleton : list Bone) (loads : list ViewerEvent) :
  sceneSkeleton gltf = Some skeleton -> quiet st0 ->
  Forall (fun event => isLoadEvent event = true) loads ->
  length loads = totalAnimations ->
  exists s,
    foldl (handle bindable) (onAvatarLoaded gltf st0) loads
    = checkAllLoaded s /\
    loadedAnimations s = totalAnimations /\ quiet s.
Proof.
  intros Hsk Hquiet Hloads Hlen.
  destruct (sixth_load st0 gltf skeleton loads Hsk Hloads Hlen)
    as (s & extra & Hst & H6 & Hmixer & Hextra).
  exists s. split; [done|]. split; [done|].
  unfold quiet. rewrite Hmixer. apply Forall_app. split; [|done].
  assert (Hbefore : Forall (fun event => isLoadEvent event = true)
                      (removelast loads) /\
                    length (removelast loads) < totalAnimations).
  { destruct loads as [|e loads _] using rev_ind; [done|].
    rewrite removelast_last. rewrite length_app in Hlen. simpl in Hlen.
    apply Forall_app in Hloads as [? _]. split; [done | lia]. }
  destruct Hbefore as [Hloads' Hlen'].
  apply loads_quiet; [done| |].
  - unfold quiet, onAvatarLoaded. by rewrite Hsk.
  - unfold onAvatarLoaded. rewrite Hsk. simpl. lia.
Qed.

(** X21. A run of the effect whose avatar has a skeleton, from a state in
    which no action is active (as at mount): when its six loads have ended
    before any button is clicked, then whatever happens afterwards no
    action is active but the one [currentActionRef] refers to. *)
Theorem one_action_active (st0 : ViewerState) (gltf : LoadedScene)
    (skeleton : list Bone) (loads rest : list ViewerEvent) :
  sceneSkeleton gltf = Some skeleton ->
  Forall (fun action => action_active action = false) (mixer st0) ->
  Forall (fun event => isLoadEvent event = true) loads ->
  length loads = totalAnimations ->
  let st :=
    foldl (handle bindable) (onAvatarLoaded gltf st0) (loads ++ rest) in
  forall a action,
    mixer st !! a = Some action -> action_active action = true ->
    currentActionRef st = Some a.
Proof.
  intros Hsk Hquiet Hloads Hlen st. subst st. rewrite foldl_app.
  destruct (sixth_load_quiet st0 gltf skeleton loads Hsk Hquiet Hloads Hlen)
    as (s & -> & H6 & Hquiet6).
  pose proof (checkAllLoaded_starts s H6 Hquiet6) as Hinv.
  assert (Hcount : totalAnimations <= loadedAnimations (checkAllLoaded s)).
  { destruct (checkAllLoaded_fields s) as (-> & _). lia. }
  revert Hinv Hcount. generalize (checkAllLoaded s). clear.
  induction rest as [|event rest IH]; intros st Hinv Hcount; [done|].
  simpl. destruct (handle_late_onlyCurrentActive st event Hinv Hcount).
  by apply IH.
Qed.

Lemma checkAllLoaded_registered (st : ViewerState) :
  registered st -> registered (checkAllLoaded st).
Proof.
  intros Hr k a.
  destruct (checkAllLoaded_fields st)
    as (_ & _ & _ & -> & _ & _ & Hclips & _).
  rewrite <- (length_fmap action_clip (mixer (checkAllLoaded st))), Hclips,
    length_fmap.
  apply Hr.
Qed.

Lemma handle_registered (st : ViewerState) (event : ViewerEvent) :
  registered st -> registered (handle bindable st event).
Proof.
  intros Hr. destruct event as [name fbx|name|name]; simpl.
  - unfold onAnimationLoaded.
    destruct (head (animations fbx)) as [animation|];
      apply checkAllLoaded_registered; [|done].
    destruct (tracks _) as [|t0 ts]; [done|].
    unfold clipAction. destruct (forallb _ _); [|done].
    intros k a [[= -> ->]|Hin]%Map_set_elem; simpl.
    + rewrite length_app. simpl. lia.
    + rewrite length_app. specialize (Hr _ _ Hin). simpl in *. lia.
  - unfold onAnimationError. by apply checkAllLoaded_registered.
  - unfold playAnimation. destruct (mixerRef st); simpl; [|done].
    destruct (currentActionRef st) as [current|]; simpl;
      destruct (Object_get _ _); simpl; intros k a Hin; simpl in *;
      unfold play, stop;
      rewrite <- ?(length_fmap action_clip (setActive _ _ _)),
        ?setActive_clips, ?length_fmap; by apply (Hr k a).
Qed.

Lemma events_registered (events : list ViewerEvent) (st : ViewerState) :
  registered st -> registered (foldl (handle bindable) st events).
Proof.
  revert st. induction events as [|event events IH]; intros st Hr; [done|].
  simpl. by apply IH, handle_registered.
Qed.

(** X22. A run of the effect whose avatar has a skeleton, from a state in
    which every entry of the registry refers to an action (as always in
    JavaScript, and at mount, where the registry is empty): when the six
    loads have ended with no click in between, the action registered under
    [walking] is current and active if there is one; otherwise the action
    of the first key of the registry is; and with an empty registry the
    current action is what the run found, and this is reported. *)
Theorem default_animation (st0 : ViewerState) (gltf : LoadedScene)
    (skeleton : list Bone) (loads : list ViewerEvent) :
  sceneSkeleton gltf = Some skeleton ->
  (forall k a, (k, a) ∈ actionsRef st0 -> a < length (mixer st0)) ->
  Forall (fun event => isLoadEvent event = true) loads ->
  length loads = totalAnimations ->
  let st := foldl (handle bindable) (onAvatarLoaded gltf st0) loads in
  match Object_get "walking" (actionsRef st) with
  | Some a =>
      currentActionRef st = Some a /\
      exists action, mixer st !! a = Some action /\ action_active action = true
  | None =>
      match actionsRef st with
      | (_, a) :: _ =>
          currentActionRef st = Some a /\
          exists action,
            mixer st !! a = Some action /\ action_active action = true
      | [] =>
          currentActionRef st = currentActionRef st0 /\
          ErrorNoAnimationsAvailable ∈ viewer_console st
      end
  end.
Proof.
  intros Hsk Hreg Hloads Hlen st.
  assert (Hr : registered st).
  { subst st. apply events_registered. unfold registered, onAvatarLoaded.
    by rewrite Hsk. }
  assert (Hcur : forall events s,
    Forall (fun event => isLoadEvent event = true) events ->
    loadedAnimations s + length events < totalAnimations ->
    currentActionRef (foldl (handle bindable) s events) = currentActionRef s).
  { clear. intros events. induction events as [|e events IH]; intros s He Hn;
      [done|].
    apply Forall_cons in He as [He Hes]. simpl in *.
    destruct (handle_load_fields s e He) as (Hcount & _).
    rewrite IH by (done || lia).
    destruct (handle_load_pre s e He)
      as (s' & extra & -> & Hcount' & Hc & _).
    by rewrite checkAllLoaded_not_yet by lia. }
  destruct loads as [|e loads _] using rev_ind; [done|].
  rewrite length_app in Hlen. simpl in Hlen.
  apply Forall_app in Hloads as [Hloads He].
  apply Forall_cons in He as [He _].
  assert (H0 : loadedAnimations (onAvatarLoaded gltf st0) = 0
               /\ currentActionRef (onAvatarLoaded gltf st0)
                  = currentActionRef st0)
    by (unfold onAvatarLoaded; by rewrite Hsk).
  destruct H0 as [H0 Hc0].
  set (st5 := foldl (handle bindable) (onAvatarLoaded gltf st0) loads).
  assert (H5 : loadedAnimations st5 = length loads).
  { destruct (loads_fields loads (onAvatarLoaded gltf st0) Hloads)
      as (Hn & _); [rewrite H0; lia|].
    subst st5. rewrite Hn, H0. done. }
  assert (Hc5 : currentActionRef st5 = currentActionRef st0).
  { subst st5. rewrite Hcur; [done..|]. rewrite H0. lia. }
  destruct (handle_load_pre st5 e He)
    as (s & extra & Hst & Hcount & Hc & _).
  assert (Hst' : st = checkAllLoaded s)
    by (subst st; rewrite foldl_app; exact Hst).
  assert (H6 : loadedAnimations s = totalAnimations) by lia.
  destruct (checkAllLoaded_fields s) as (_ & _ & _ & Href & _ & _ & Hclips & _).
  rewrite <- Hst' in Href, Hclips.
  assert (Hvalid : forall k a, (k, a) ∈ actionsRef s ->
            exists action, mixer s !! a = Some action).
  { intros k a Hin. rewrite <- Href in Hin. apply Hr in Hin.
    apply lookup_lt_is_Some.
    by rewrite <- (length_fmap action_clip), <- Hclips, length_fmap. }
  rewrite Href. clear Hr Href Hclips. rewrite Hst'.
  unfold checkAllLoaded. rewrite bool_decide_eq_true_2 by done. simpl.
  destruct (Object_get "walking" (actionsRef s)) as [a|] eqn:Hw; simpl.
  - split; [done|].
    destruct (Hvalid _ _ (Object_get_Some _ _ _ Hw)) as [action Ha].
    eexists. split; [by apply play_active | done].
  - destruct (actionsRef s) as [|[k a] rest] eqn:Hregistry; simpl.
    + split; [congruence|]. apply elem_of_app. right. apply list_elem_of_here.
    + split; [done|].
      destruct (Hvalid k a) as [action Ha]; [apply list_elem_of_here|].
      eexists. split; [by apply play_active | done].
Qed.

(** X23. [checkAllLoaded] starts the walking action without stopping an action
    that is already active: when a button was clicked while the loads were
    running, that action and the walking action are both active after the
    last load has ended. *)
Theorem checkAllLoaded_keeps_active (s : ViewerState) (a w : nat)
    (act actw : AnimationAction) :
  loadedAnimations s = totalAnimations ->
  Object_get "walking" (actionsRef s) = Some w ->
  mixer s !! w = Some actw ->
  mixer s !! a = Some act -> action_active act = true -> a <> w ->
  let st := checkAllLoaded s in
  currentActionRef st = Some w /\
  mixer st !! a = Some act /\
  mixer st !! w = Some (mkAnimationAction (action_clip actw) true).
Proof.
  intros H6 Hw Hactw Hact Hactive Hne st. subst st.
  unfold checkAllLoaded. rewrite bool_decide_eq_true_2 by done. simpl.
  rewrite Hw. simpl. split; [done|]. split.
  - unfold play. rewrite (setActive_lookup _ _ _ _ _ Hact).
    by rewrite decide_False.
  - by apply play_active.
Qed.

Lemma clicks_without_mixer (events : list ViewerEvent) (st : ViewerState) :
  Forall (fun event => isLoadEvent event = false) events ->
  mixerRef st = false ->
  foldl (handle bindable) st events
  = log (replicate (length events) ErrorMixerNotInitialized) st.
Proof.
  intros Hevents. revert st.
  induction Hevents as [|event events Hevent _ IH]; intros st Hm.
  - simpl. unfold log. rewrite app_nil_r. by destruct st.
  - destruct event as [| |name]; [done..|]. cbn [foldl handle length].
    assert (Hstep : playAnimation (animationKey name) st
                    = log [ErrorMixerNotInitialized] st)
      by (unfold playAnimation; by rewrite Hm).
    rewrite Hstep, IH by done. unfold log. simpl. by rewrite <- app_assoc.
Qed.

(** X24. A run of the effect whose avatar has no skinned mesh, from a state
    without a mixer ([mixerRef] is null, as at mount): the viewer sets the
    error message and turns the loading flag off, starts no load and sets
    up no mixer, and every click afterwards only reports that there is no
    mixer. Nothing else of the state changes. *)
Theorem viewer_without_skinned_mesh (st0 : ViewerState) (gltf : LoadedScene)
    (clicks : list ViewerEvent) :
  Forall (fun o => instanceofSkinnedMesh o = false)
    (preorder (scene_root gltf)) ->
  mixerRef st0 = false ->
  Forall (fun event => isLoadEvent event = false) clicks ->
  foldl (handle bindable) (onAvatarLoaded gltf st0) clicks
  = mkViewerState (targetSkeleton st0) (savedRotations st0) (mixer st0)
      false (loadedAnimations st0) (boneNameMap st0) (actionsRef st0)
      (currentActionRef st0) false
      (Some "Failed to find skeleton in avatar model")
      (viewer_console st0
       ++ ErrorNoSkeleton
          :: replicate (length clicks) ErrorMixerNotInitialized).
Proof.
  intros Hnone Hmixer Hclicks.
  assert (Hsk : sceneSkeleton gltf = None).
  { unfold sceneSkeleton. rewrite findSkinnedMesh_find.
    by rewrite (proj2 (find_none_all _ _) Hnone). }
  unfold onAvatarLoaded. rewrite Hsk.
  rewrite clicks_without_mixer by done. unfold log. simpl.
  by rewrite Hmixer, <- app_assoc.
Qed.

Lemma Map_set_keys {V : Type} (k : string) (v : V) (m : list (string * V)) :
  (Map_set k v m).*1 = if decide (k ∈ m.*1) then m.*1 else m.*1 ++ [k].
Proof.
  induction m as [|[k' v'] m IH]; [done|]. simpl.
  destruct (decide (k' = k)) as [->|Hne].
  - rewrite decide_True by apply list_elem_of_here. done.
  - csimpl. rewrite IH. destruct (decide (k ∈ m.*1)) as [Hin|Hnin].
    + rewrite decide_True by (by right). done.
    + rewrite decide_False; [done|].
      intros [?|?]%elem_of_cons; [congruence | done].
Qed.

Lemma handle_keys (st : ViewerState) (event : ViewerEvent) :
  (NoDup (actionsRef st).*1 -> NoDup (actionsRef (handle bindable st event)).*1) /\
  forall k, k ∈ (actionsRef (handle bindable st event)).*1 ->
    k ∈ (actionsRef st).*1 \/
    exists name fbxScene animation,
      event = AnimationLoaded name fbxScene /\ k = animationKey name /\
      head (animations fbxScene) = Some animation.
Proof.
  destruct event as [name fbx|name|name]; simpl.
  - unfold onAnimationLoaded.
    destruct (head (animations fbx)) as [animation|] eqn:Hhead;
      match goal with
      | |- context [checkAllLoaded ?s] =>
          destruct (checkAllLoaded_fields s) as (_ & _ & _ & -> & _)
      end; [|split; [done | by left]].
    destruct (tracks _); [split; [done | by left]|].
    destruct (clipAction _ _ _) as [[mixer' action]|];
      [|split; [done | by left]].
    simpl. rewrite Map_set_keys.
    destruct (decide (animationKey name ∈ (actionsRef st).*1)) as [Hin|Hnin].
    + split; [done | by left].
    + split.
      * intros Hnd. apply NoDup_app. split; [done|].
        split; [|apply NoDup_singleton].
        intros k0 Hk ->%list_elem_of_singleton. done.
      * intros k0 [Hk|Hk%list_elem_of_singleton]%elem_of_app; [by left|].
        subst k0. right. by exists name, fbx, animation.
  - unfold onAnimationError.
    match goal with
    | |- context [checkAllLoaded ?s] =>
        destruct (checkAllLoaded_fields s) as (_ & _ & _ & -> & _)
    end. split; [done | by left].
  - assert (Hsame : actionsRef (playAnimation (animationKey name) st)
                    = actionsRef st).
    { unfold playAnimation. destruct (mixerRef st); simpl; [|done].
      destruct (currentActionRef st); simpl;
        destruct (Object_get _ _); done. }
    rewrite Hsame. split; [done | by left].
Qed.

(** X19. Whatever the state and the events: every name that the registry has
    afterwards it had before, or it is the name of a load among the events
    that ended with a clip; a failed load, a load without a clip and a
    click register nothing. The names of the registry stay distinct. *)
Theorem registry_names (st : ViewerState) (events : list ViewerEvent) :
  let st' := foldl (handle bindable) st events in
  (forall k, k ∈ (actionsRef st').*1 ->
     k ∈ (actionsRef st).*1 \/
     exists name fbxScene animation,
       AnimationLoaded name fbxScene ∈ events /\ k = animationKey name /\
       head (animations fbxScene) = Some animation) /\
  (NoDup (actionsRef st).*1 -> NoDup (actionsRef st').*1).
Proof.
  revert st. induction events as [|event events IH]; intros st.
  - split; [by left | done].
  - simpl. destruct (IH (handle bindable st event)) as [Hk Hnd].
    destruct (handle_keys st event) as [Hnd' Hk']. split; [|by auto].
    intros k Hin. destruct (Hk k Hin) as [Hin'|(n & fbx & a & He & ? & ?)].
    + destruct (Hk' k Hin') as [?|(n & fbx & a & -> & ? & ?)]; [by left|].
      right. exists n, fbx, a. split; [by left | done].
    + right. exists n, fbx, a. split; [by right | done].
Qed.

End Viewer.

End Model.

(** C6 as stated fails: a name that starts with the prefix twice still
    starts with it after stripping, and stripping is not idempotent on it. *)
Lemma stripMixamoPrefix_not_idempotent :
  Str.startsWith mixamoPrefix "mixamorigmixamorigHips" = true /\
  Str.startsWith mixamoPrefix
    (stripMixamoPrefix "mixamorigmixamorigHips") = true /\
  stripMixamoPrefix (stripMixamoPrefix "mixamorigmixamorigHips")
    <> stripMixamoPrefix "mixamorigmixamorigHips".
Proof.
  split; [reflexivity|]. split; [reflexivity|]. vm_compute. discriminate.
Qed.

Lemma stripMixamoPrefix_one_occurrence_witness :
  (Str.startsWith mixamoPrefix "Hips" = false /\
   stripMixamoPrefix "Hips" = "Hips") /\
  (Str.startsWith mixamoPrefix (Str.dropColon ":Hips") = false /\
   stripMixamoPrefix "mixamorig:Hips" = "Hips" /\
   Str.startsWith mixamoPrefix (stripMixamoPrefix "mixamorig:Hips") = false /\
   stripMixamoPrefix (stripMixamoPrefix "mixamorig:Hips")
     = stripMixamoPrefix "mixamorig:Hips").
Proof.
  split.
  - split; [reflexivity|].
    apply (proj1 (stripMixamoPrefix_one_occurrence "Hips")). reflexivity.
  - split; [reflexivity|].
    destruct (proj2 (stripMixamoPrefix_one_occurrence "mixamorig:Hips")
                ":Hips" eq_refl) as [H1 H2].
    split; [exact H1|]. apply H2. reflexivity.
Defined.

(** A hierarchy whose second child holds the first skinned mesh, below a
    group. *)
Lemma findSkinnedMesh_first_preorder_witness :
  let mesh := mkObject3D SkinnedMeshClass 3 [] in
  let root :=
    mkObject3D GroupClass 0
      [ mkObject3D MeshClass 1 [];
        mkObject3D GroupClass 2 [mesh; mkObject3D SkinnedMeshClass 4 []];
        mkObject3D SkinnedMeshClass 5 [] ] in
  findSkinnedMesh root = Some mesh /\
  exists before after,
    preorder root = before ++ mesh :: after /\
    instanceofSkinnedMesh mesh = true /\
    Forall (fun o => instanceofSkinnedMesh o = false) before.
Proof.
  intros mesh root. split; [reflexivity|].
  apply (proj1 (proj2 (findSkinnedMesh_first_preorder root)) mesh).
  reflexivity.
Defined.

(** A left-hand track with the samples [(0,1,0,0)] and [(0,0,0,1)]: the
    first output sample is [q * c = (0,0,-1,0)], while [c * q] is
    [(0,0,1,0)]. *)
Lemma retargetAnimationClip_samples_witness :
  let t := mkKeyframeTrack QuaternionKeyframeTrack
             "mixamorigLeftHand.quaternion" [0; 1]%Z
             [0; 1; 0; 0; 0; 0; 0; 1]%Z in
  let clip := mkAnimationClip "walk" 1%Z [t] in
  let boneNameMap : gmap string string :=
    {["mixamorigLeftHand" := "LeftHand"]} in
  let t' := mkKeyframeTrack QuaternionKeyframeTrack "LeftHand.quaternion"
              [0; 1]%Z [0; 0; -1; 0; 1; 0; 0; 0]%Z in
  let c : Quaternion := setFromAxisAngle (mkVector3 1 0 0)%Z 2%Z in
  t' ∈ tracks (retargetAnimationClip clip boneNameMap "walking").1 /\
  (exists t0 boneName property mapped,
     t0 ∈ tracks clip /\
     parseTrackName (track_name t0) = Some (boneName, property) /\
     Record_get boneNameMap boneName = Some mapped /\
     track_name t' = toString mapped +:+ "." +:+ property /\
     times t' = times t0 /\
     length (values t') = length (values t0)) /\
  equals c identityQuaternion = false /\
  sampleAt (values t') 0
    = storeQuaternion (multiply (mkQuaternion 0 1 0 0)%Z c) /\
  sampleAt (values t') 0
    <> storeQuaternion (multiply c (mkQuaternion 0 1 0 0)%Z).
Proof.
  intros t clip boneNameMap t' c.
  assert (Hin : t' ∈ tracks (retargetAnimationClip clip boneNameMap
                               "walking").1).
  { vm_compute. apply list_elem_of_here. }
  split; [exact Hin|].
  destruct (retargetAnimationClip_samples clip boneNameMap "walking" t' Hin)
    as [(t0 & boneName & property & mapped & H1 & H2 & H3 & H4 & H5 & H6 & _)
        _].
  split; [by exists t0, boneName, property, mapped|].
  split; [reflexivity|]. split; [reflexivity|]. vm_compute. discriminate.
Defined.

(** A clip with a position, a scale and a quaternion track of a mapped
    bone: the quaternion track alone is emitted. *)
Lemma retargetAnimationClip_no_position_scale_witness :
  let track name := mkKeyframeTrack VectorKeyframeTrack name [0]%Z
                      [0; 0; 0]%Z in
  let rotation := mkKeyframeTrack QuaternionKeyframeTrack
                    "mixamorigHips.quaternion" [0]%Z [0; 0; 0; 1]%Z in
  let clip := mkAnimationClip "walk" 0%Z
                [track "mixamorigHips.position"; rotation;
                 track "mixamorigHips.scale"] in
  let boneNameMap : gmap string string := {["mixamorigHips" := "Hips"]} in
  let out := (retargetAnimationClip clip boneNameMap "walking").1 in
  let t' := mkKeyframeTrack QuaternionKeyframeTrack "Hips.quaternion"
              [0]%Z [0; 0; 0; 1]%Z in
  t' ∈ tracks out /\
  (exists boneName property,
     parseTrackName (track_name t') = Some (boneName, property) /\
     property <> "position" /\ property <> "scale") /\
  parseTrackName "mixamorigHips.position"
    = Some ("mixamorigHips", "position") /\
  newTracks (retargetTrack boneNameMap (mkRetargetState [t'] [] [] [] [])
               (track "mixamorigHips.position")) = [t'].
Proof.
  intros track rotation clip boneNameMap out t'.
  assert (Hin : t' ∈ tracks out) by (vm_compute; apply list_elem_of_here).
  destruct (retargetAnimationClip_no_position_scale clip boneNameMap
              "walking") as [Hout Hdrop].
  split; [exact Hin|]. split; [exact (Hout t' Hin)|].
  split; [reflexivity|].
  apply (Hdrop (mkRetargetState [t'] [] [] [] [])
           (track "mixamorigHips.position") "mixamorigHips" "position").
  - reflexivity.
  - left. reflexivity.
Defined.

(** In binary64, a skeleton whose bones all have the rotation
    [(0.5, 0.5, 0.5, 0.5)], with both upper arms, the left shoulder and no
    right shoulder. The correction of the left upper arm is the rotation by
    40 degrees about Z, [(0, 0, sin 20, cos 20)]; the bone gets [c * q],
    which is not [q * c]; the right upper arm gets the rotation by -40
    degrees and the left shoulder the one by 12 degrees; the hips are not
    touched, and the right shoulder is reported. *)
#[warnings="-inexact-float"]
Lemma applyTPoseCorrection_premultiplies_witness :
  let q := (mkQuaternion 0.5 0.5 0.5 0.5)%float in
  let skeleton := [mkBone "Hips" q; mkBone "LeftUpperArm" q;
                   mkBone "RightUpperArm" q; mkBone "LeftShoulder" q] in
  let st := applyTPoseCorrection skeleton in
  let c := setFromAxisAngle (mkVector3 0 0 1)%float
             (APOSE_TO_TPOSE_OFFSET (F := float)) in
  c = (mkQuaternion 0 0 0.34202014332566871 0.93969262078590843)%float /\
  tp_skeleton st !! 1
  = Some (mkBone "LeftUpperArm"
            (mkQuaternion 0.29883623873011989 0.64085638205578854
               0.64085638205578854 0.29883623873011989)%float) /\
  multiplyQuaternions q c
  = (mkQuaternion 0.64085638205578854 0.29883623873011989
       0.64085638205578854 0.29883623873011989)%float /\
  tp_skeleton st !! 2
  = Some (mkBone "RightUpperArm"
            (mkQuaternion 0.64085638205578854 0.29883623873011989
               0.29883623873011989 0.64085638205578854)%float) /\
  tp_skeleton st !! 3
  = Some (mkBone "LeftShoulder"
            (mkQuaternion 0.44499671605030988 0.54952517931796341
               0.54952517931796341 0.44499671605030988)%float) /\
  tp_skeleton st !! 0 = Some (mkBone "Hips" q) /\
  WarnBoneNotFound "RightShoulder" ∈ tp_console st.
Proof.
  intros q skeleton st c.
  destruct (applyTPoseCorrection_premultiplies skeleton)
    as (Hfound & Hother & Hwarn & _).
  fold st in Hfound, Hother, Hwarn.
  split; [by vm_compute|]. split.
  { etrans.
    - apply (Hfound "LeftUpperArm" (fmul f40 (fdiv PI f180)) 1
               (mkBone "LeftUpperArm" q));
        [apply list_elem_of_here | reflexivity].
    - by vm_compute. }
  split; [by vm_compute|]. split.
  { etrans.
    - apply (Hfound "RightUpperArm" (fneg (fmul f40 (fdiv PI f180))) 2
               (mkBone "RightUpperArm" q));
        [apply list_elem_of_further, list_elem_of_here | reflexivity].
    - by vm_compute. }
  split.
  { etrans.
    - apply (Hfound "LeftShoulder" (fmul (fmul f40 (fdiv PI f180)) f0_3) 3
               (mkBone "LeftShoulder" q));
        [do 2 apply list_elem_of_further; apply list_elem_of_here
        | reflexivity].
    - by vm_compute. }
  split.
  - apply (Hother 0 (mkBone "Hips" q)); [reflexivity|].
    apply (bool_decide_unpack _). by vm_compute.
  - apply Hwarn. exists "RightShoulder". split; [reflexivity|].
    split; [|reflexivity]. apply (bool_decide_unpack _). by vm_compute.
Defined.

(** Restoring the left upper arm leaves the hips alone; the map returned
    for a skeleton with one of the four bones has that one key. *)
Lemma restoreAPose_frame_witness :
  let hips := mkBone "Hips" (mkQuaternion 0 1 0 0)%Z in
  let left := mkBone "LeftUpperArm" (mkQuaternion 0 0 1 0)%Z in
  let skeleton := [hips; left] in
  let delta := [("LeftUpperArm", mkQuaternion 0 0 0 1)%Z] in
  (bone_name hips ∉ delta.*1) /\
  restoreAPose skeleton delta !! 0 = Some hips /\
  restoreAPose skeleton delta !! 1
  = Some (mkBone "LeftUpperArm" (mkQuaternion 0 0 0 1)%Z) /\
  (originalRotations (applyTPoseCorrection skeleton)).*1 = ["LeftUpperArm"] /\
  is_Some (findBoneByName skeleton "LeftUpperArm").
Proof.
  intros hips left skeleton delta.
  destruct (restoreAPose_frame (F := Z)) as [Hframe Hkeys].
  assert (Hk : bone_name hips ∉ delta.*1)
    by (apply (bool_decide_unpack _); by vm_compute).
  split; [exact Hk|].
  split; [exact (Hframe skeleton delta 0 hips eq_refl Hk)|].
  split; [reflexivity|]. split; [reflexivity|].
  apply (proj1 (Hkeys skeleton "LeftUpperArm")).
  apply (bool_decide_unpack _). by vm_compute.
Defined.

(** * Instances of the further properties *)

(** A source rig with a bone that has no counterpart: the map has entries
    for the two others, is the same for the source names in another order
    and with a repetition, and is the same again when it is built from a
    clip with tracks for these bones; the emitted track is named after a
    target bone. *)
Lemma buildBoneNameMap_exact_witness :
  let bone name := mkBone name (mkQuaternion 0 0 0 1)%Z in
  let source := [bone "mixamorigHips"; bone "mixamorig:Spine"; bone "Tail"] in
  let source' := [bone "Tail"; bone "mixamorig:Spine"; bone "mixamorigHips";
                  bone "Tail"] in
  let target := [bone "Hips"; bone "Spine"] in
  let m := buildBoneNameMap (Some source) target None in
  let track name :=
    mkKeyframeTrack QuaternionKeyframeTrack name [0]%Z [0; 0; 0; 1]%Z in
  let t' := track "Spine.quaternion" in
  let clip := mkAnimationClip "walk" 0%Z [track "mixamorig:Spine.quaternion"] in
  let clip' :=
    mkAnimationClip "walk" 0%Z
      [track "Tail.position"; track "mixamorigHips.quaternion";
       track "mixamorig:Spine.scale"; track "Tail.quaternion"] in
  m !! "mixamorig:Spine" = Some "Spine" /\
  m !! "Tail" = None /\
  "Spine" ∈ bone_name <$> target /\
  buildBoneNameMap (Some source') target None = m /\
  sourceBoneNames None (Some clip') = ["Tail"; "mixamorigHips"; "mixamorig:Spine"] /\
  buildBoneNameMap None target (Some clip') = m /\
  t' ∈ tracks (retargetAnimationClip clip m "walking").1 /\
  exists boneName property,
    parseTrackName (track_name t') = Some (boneName, property) /\
    boneName ∈ bone_name <$> target.
Proof.
  intros bone source source' target m track t' clip clip'.
  destruct (buildBoneNameMap_exact (Some source) target None)
    as (Hlookup & Hsets & Hvalue & Htracks).
  assert (Hspine : m !! "mixamorig:Spine" = Some "Spine") by reflexivity.
  assert (Hin : t' ∈ tracks (retargetAnimationClip clip m "walking").1)
    by (vm_compute; apply list_elem_of_here).
  split; [exact Hspine|]. split; [reflexivity|].
  split; [exact (Hvalue _ _ Hspine)|]. split.
  { apply Hsets; intros s; [|done]. simpl.
    rewrite !elem_of_cons, elem_of_nil. tauto. }
  split; [reflexivity|]. split.
  { apply Hsets; intros s; [|done].
    change (sourceBoneNames None (Some clip'))
      with ["Tail"; "mixamorigHips"; "mixamorig:Spine"].
    simpl. rewrite !elem_of_cons, elem_of_nil. tauto. }
  split; [exact Hin|]. apply (Htracks clip "walking"); [|exact Hin].
  intros t0 boneName property ->%list_elem_of_singleton [= <- _].
  apply (bool_decide_unpack _). by vm_compute.
Defined.

(** An unnamed clip with a track without separator, a track of a mapped
    bone and a track of an unmapped bone: the two bad tracks are dropped,
    the first with a warning, and the mapped track is emitted as it is
    without them; the clip is returned under the fallback name with the
    duration kept. The clip of the two bad tracks alone is returned empty,
    and that is reported. *)
Lemma retargetAnimationClip_recovers_witness :
  let bad := mkKeyframeTrack QuaternionKeyframeTrack "Hips" [0]%Z
               [0; 0; 0; 1]%Z in
  let good := mkKeyframeTrack QuaternionKeyframeTrack
                "mixamorigHips.quaternion" [0; 1]%Z
                [0; 0; 0; 1; 0; 1; 0; 0]%Z in
  let unmapped := mkKeyframeTrack QuaternionKeyframeTrack "Tail.quaternion"
                    [0]%Z [0; 0; 0; 1]%Z in
  let clip := mkAnimationClip "" 7%Z [bad; good; unmapped] in
  let empty := mkAnimationClip "" 7%Z [bad; unmapped] in
  let boneNameMap : gmap string string := {["mixamorigHips" := "Hips"]} in
  let out := retargetAnimationClip clip boneNameMap "walking" in
  fltb (duration clip) f0 = false /\
  out.1
  = mkAnimationClip "walking" 7%Z
      [mkKeyframeTrack QuaternionKeyframeTrack "Hips.quaternion" [0; 1]%Z
         [0; 0; 0; 1; 0; 1; 0; 0]%Z] /\
  duration out.1 = duration clip /\
  WarnInvalidTrackName "Hips" ∈ out.2 /\
  retargetedTrack boneNameMap unmapped = None /\
  tracks out.1
  = tracks (retargetAnimationClip
              (mkAnimationClip "" 7%Z ([bad; good] ++ [])) boneNameMap
              "walking").1 /\
  (retargetAnimationClip empty boneNameMap "walking").1
  = mkAnimationClip "walking" 7%Z [] /\
  ErrorNoTracks "walking" ∈ (retargetAnimationClip empty boneNameMap "walking").2.
Proof.
  intros bad good unmapped clip empty boneNameMap out.
  destruct (retargetAnimationClip_recovers clip boneNameMap "walking")
    as (_ & Hduration & _ & _ & Hbad & Hunmapped & Hothers & _).
  destruct (retargetAnimationClip_recovers empty boneNameMap "walking")
    as (_ & _ & _ & _ & _ & _ & _ & Hempty).
  assert (Hdropped : retargetedTrack boneNameMap unmapped = None).
  { apply (Hunmapped unmapped "Tail" "quaternion"); [reflexivity..|].
    apply (bool_decide_unpack _). by vm_compute. }
  split; [reflexivity|]. split; [reflexivity|].
  split; [apply Hduration; reflexivity|].
  split; [apply (Hbad bad); [apply list_elem_of_here | reflexivity]|].
  split; [exact Hdropped|].
  split; [exact (Hothers [bad; good] unmapped [] eq_refl Hdropped)|].
  split; [reflexivity|]. apply Hempty. reflexivity.
Defined.

Lemma buildBoneNameMap_entry_shape_witness :
  let bone name := mkBone name (mkQuaternion 0 0 0 1)%Z in
  let source := [bone "mixamorig:Spine"; bone "Tail"] in
  let target := [bone "Hips"; bone "Spine"] in
  buildBoneNameMap (Some source) target None !! "mixamorig:Spine"
    = Some "Spine" /\
  "mixamorig:Spine" ∈ sourceBoneNames (Some source) None /\
  ("mixamorig:Spine" = "Spine" \/
   "mixamorig:Spine" = "mixamorig" +:+ "Spine" \/
   "mixamorig:Spine" = "mixamorig:" +:+ "Spine").
Proof.
  intros bone source target.
  assert (Hentry : buildBoneNameMap (Some source) target None
                     !! "mixamorig:Spine" = Some "Spine") by reflexivity.
  split; [exact Hentry|].
  exact (buildBoneNameMap_entry_shape (Some source) target None
           "mixamorig:Spine" "Spine" Hentry).
Defined.

Lemma buildBoneNameMap_from_clip_covers_witness :
  let bone name := mkBone name (mkQuaternion 0 0 0 1)%Z in
  let target := [bone "Hips"] in
  let t := mkKeyframeTrack QuaternionKeyframeTrack "mixamorigHips.quaternion"
             [0]%Z [0; 0; 0; 1]%Z in
  let clip := mkAnimationClip "walk" 0%Z [t] in
  buildBoneNameMap None target (Some clip) !! "mixamorigHips" = Some "Hips".
Proof.
  intros bone target t clip.
  apply (buildBoneNameMap_from_clip_covers target clip t "mixamorigHips"
           "quaternion").
  - apply list_elem_of_here.
  - reflexivity.
  - apply (bool_decide_unpack _). by vm_compute.
  - discriminate.
Defined.


(** In binary64 the half turn about X is [(0.99999999999999989, 0, 0, 0)]
    here, and not the identity: it is the correction of the right hand;
    the right forearm has none, and neither has the inherited
    [toString]. *)
#[warnings="-inexact-float"]
Lemma needsHandCorrection_exactly_hands_witness :
  let c := (mkQuaternion 0.99999999999999989 0 0 0)%float in
  needsHandCorrection (Own "RightHand") "quaternion" = Some (Some c) /\
  needsHandCorrection (F := float) (Own "RightForeArm") "quaternion"
    = Some None /\
  needsHandCorrection (F := float) (Inherited "toString") "quaternion"
    = Some None.
Proof.
  intros c.
  assert (H0 : feqb (F := float) f0 f0 = true) by reflexivity.
  assert (H1 : feqb (F := float) f1 f1 = true) by reflexivity.
  assert (Hflip : equals (F := float)
                    (setFromAxisAngle (mkVector3 f1 f0 f0) PI)
                    identityQuaternion = false) by reflexivity.
  split; [|split].
  - apply (proj2 (needsHandCorrection_exactly_hands (Own "RightHand")
                    "quaternion" c H0 H1 Hflip)).
    split; [by right|]. split; reflexivity.
  - destruct (needsHandCorrection (F := float) (Own "RightForeArm")
                "quaternion") as [[c'|]|] eqn:Hc; [|reflexivity|].
    + apply (proj1 (needsHandCorrection_exactly_hands (Own "RightForeArm")
                      "quaternion" c' H0 H1 Hflip)) in Hc
        as [[Hn|Hn] _]; discriminate.
    + by vm_compute in Hc.
  - destruct (needsHandCorrection (F := float) (Inherited "toString")
                "quaternion") as [[c'|]|] eqn:Hc; [|reflexivity|].
    + apply (proj1 (needsHandCorrection_exactly_hands (Inherited "toString")
                      "quaternion" c' H0 H1 Hflip)) in Hc
        as [[Hn|Hn] _]; discriminate.
    + by vm_compute in Hc.
Defined.

Lemma correctValues_app_witness :
  let c := (mkQuaternion 1 0 0 0)%Z in
  correctValues c ([0; 1; 0; 0] ++ [0; 0; 1])%Z
  = correctValues c [0; 1; 0; 0]%Z ++ correctValues c [0; 0; 1]%Z.
Proof.
  intros c. apply (correctValues_app c 1). reflexivity.
Defined.

Lemma applyTPoseCorrection_no_arm_bones_witness :
  let skeleton := [mkBone "Hips" (mkQuaternion 0 1 0 0)%Z;
                   mkBone "Spine" (mkQuaternion 0 0 0 1)%Z] in
  applyTPoseCorrection skeleton
  = mkTPoseState skeleton []
      [WarnBoneNotFound "LeftUpperArm"; WarnBoneNotFound "RightUpperArm";
       WarnBoneNotFound "LeftShoulder"; WarnBoneNotFound "RightShoulder"].
Proof.
  intros skeleton. apply applyTPoseCorrection_no_arm_bones.
  intros name Hname. apply (bool_decide_unpack _).
  repeat (apply elem_of_cons in Hname as [->|Hname]; [by vm_compute|]).
  by inversion Hname.
Defined.

Lemma pose_functions_first_bone_only_witness :
  let first := mkBone "LeftUpperArm" (mkQuaternion 0 1 0 0)%Z in
  let second := mkBone "LeftUpperArm" (mkQuaternion 0 0 1 0)%Z in
  let skeleton := [first; second] in
  let delta := [("LeftUpperArm", mkQuaternion 0 0 0 1)%Z] in
  tp_skeleton (applyTPoseCorrection skeleton) !! 1 = Some second /\
  restoreAPose skeleton delta !! 1 = Some second.
Proof.
  intros first second skeleton delta.
  apply (pose_functions_first_bone_only skeleton delta 0 1 first second);
    [lia | reflexivity..].
Defined.

Lemma restoreAPose_writes_saved_witness :
  let arm := mkBone "LeftUpperArm" (mkQuaternion 0 1 0 0)%Z in
  let skeleton := [mkBone "Hips" (mkQuaternion 0 0 0 1)%Z; arm] in
  let delta := [("LeftUpperArm", mkQuaternion 0 0 1 0)%Z;
                ("Tail", mkQuaternion 1 0 0 0)%Z] in
  restoreAPose skeleton delta !! 1
  = Some (mkBone "LeftUpperArm" (mkQuaternion 0 0 1 0)%Z).
Proof.
  intros arm skeleton delta.
  apply (restoreAPose_writes_saved skeleton delta "LeftUpperArm"
           (mkQuaternion 0 0 1 0)%Z 1 arm).
  - apply (bool_decide_unpack _). by vm_compute.
  - apply list_elem_of_here.
  - reflexivity.
Defined.

Lemma restoreAPose_idempotent_witness :
  let skeleton := [mkBone "Hips" (mkQuaternion 0 0 0 1)%Z;
                   mkBone "LeftUpperArm" (mkQuaternion 0 1 0 0)%Z] in
  let delta := [("LeftUpperArm", mkQuaternion 0 0 1 0)%Z] in
  restoreAPose (restoreAPose skeleton delta) delta
  = restoreAPose skeleton delta.
Proof.
  intros skeleton delta. apply restoreAPose_idempotent.
  apply (bool_decide_unpack _). by vm_compute.
Defined.

(** In binary64, from the state at mount. After three loads the left upper
    arm is in the corrected pose, which is not the pose of the avatar, and
    the viewer is loading; after six loads, two of them failed, the
    skeleton is the one the avatar came with, and loading is over. *)
#[warnings="-inexact-float"]
Lemma viewer_pose_restored_witness :
  let q := (mkQuaternion 0.5 0.5 0.5 0.5)%float in
  let skeleton := [mkBone "Hips" q; mkBone "LeftUpperArm" q] in
  let gltf :=
    mkLoadedScene (mkObject3D GroupClass 0 [mkObject3D SkinnedMeshClass 1 []])
      (fun _ => Some skeleton) [] in
  let t := mkKeyframeTrack QuaternionKeyframeTrack "mixamorigHips.quaternion"
             [0]%float [0; 0; 0; 1]%float in
  let fbx := mkLoadedScene (mkObject3D GroupClass 0 []) (fun _ => None)
               [mkAnimationClip "mixamo.com" 1%float [t]] in
  let first := [AnimationLoaded walking fbx; AnimationFailed sitting;
                AnimationLoaded standing_up fbx] in
  let last := [AnimationFailed talking; AnimationLoaded happy fbx;
               AnimationLoaded greeting fbx] in
  let st3 := foldl (handle (fun _ => true))
               (onAvatarLoaded gltf initialViewerState) first in
  let st6 := foldl (handle (fun _ => true))
               (onAvatarLoaded gltf initialViewerState) (first ++ last) in
  tp_skeleton (applyTPoseCorrection skeleton)
  = [mkBone "Hips" q;
     mkBone "LeftUpperArm"
       (mkQuaternion 0.29883623873011989 0.64085638205578854
          0.64085638205578854 0.29883623873011989)%float] /\
  (loadedAnimations st3 = 3 /\
   targetSkeleton st3 = tp_skeleton (applyTPoseCorrection skeleton) /\
   isLoading st3 = true) /\
  (loadedAnimations st6 = 6 /\ targetSkeleton st6 = skeleton /\
   isLoading st6 = false).
Proof.
  intros q skeleton gltf t fbx first last st3 st6.
  assert (Hsk : sceneSkeleton gltf = Some skeleton) by by vm_compute.
  split; [by vm_compute|]. split.
  - destruct (viewer_pose_restored (fun _ => true) initialViewerState gltf
                skeleton first Hsk) as (Hn & H3 & _);
      [repeat constructor | cbv; lia |].
    split; [exact Hn|]. apply H3. cbv. lia.
  - destruct (viewer_pose_restored (fun _ => true) initialViewerState gltf
                skeleton (first ++ last) Hsk) as (Hn & _ & H6);
      [repeat constructor | cbv; lia |].
    split; [exact Hn|]. exact (H6 eq_refl).
Defined.

(** With the sitting clip loaded and nothing playing, a click on sitting
    makes its action the current and the one active action. *)
Lemma playAnimation_outcome_witness :
  let skeleton := [mkBone "Hips" (mkQuaternion 0 0 0 1)%Z] in
  let gltf :=
    mkLoadedScene (mkObject3D GroupClass 0 [mkObject3D SkinnedMeshClass 1 []])
      (fun _ => Some skeleton) [] in
  let t := mkKeyframeTrack QuaternionKeyframeTrack "mixamorigHips.quaternion"
             [0]%Z [0; 0; 0; 1]%Z in
  let clip := mkAnimationClip "mixamo.com" 1%Z [t] in
  let fbx := mkLoadedScene (mkObject3D GroupClass 0 []) (fun _ => None)
               [clip] in
  let st := handle (fun _ => true) (onAvatarLoaded gltf initialViewerState)
              (AnimationLoaded sitting fbx) in
  let st' := playAnimation "sitting" st in
  onlyCurrentActive st /\
  currentActionRef st' = Some 0 /\
  forall a' action',
    mixer st' !! a' = Some action' ->
    (action_active action' = true <-> a' = 0).
Proof.
  intros skeleton gltf t clip fbx st st'.
  assert (Hinv : onlyCurrentActive st).
  { intros a action Ha Hactive. exfalso. revert Ha Hactive.
    destruct a as [|a]; vm_compute.
    - intros [= <-]. discriminate.
    - destruct a; discriminate. }
  split; [exact Hinv|].
  destruct (playAnimation_outcome "sitting" st Hinv) as (_ & Hfound & _).
  destruct (mixer st !! 0) as [action|] eqn:Ha; [|by vm_compute in Ha].
  apply (Hfound eq_refl 0 action); [by vm_compute | exact Ha].
Defined.

(** Six loads, then two clicks: the one active action is the current
    one. *)
Lemma one_action_active_witness :
  let skeleton := [mkBone "Hips" (mkQuaternion 0 0 0 1)%Z] in
  let gltf :=
    mkLoadedScene (mkObject3D GroupClass 0 [mkObject3D SkinnedMeshClass 1 []])
      (fun _ => Some skeleton) [] in
  let t := mkKeyframeTrack QuaternionKeyframeTrack "mixamorigHips.quaternion"
             [0]%Z [0; 0; 0; 1]%Z in
  let clip := mkAnimationClip "mixamo.com" 1%Z [t] in
  let fbx := mkLoadedScene (mkObject3D GroupClass 0 []) (fun _ => None)
               [clip] in
  let loads := [AnimationLoaded walking fbx; AnimationLoaded sitting fbx;
                AnimationFailed standing_up; AnimationFailed talking;
                AnimationLoaded happy fbx; AnimationFailed greeting] in
  let rest := [ButtonClicked sitting; ButtonClicked happy] in
  let st := foldl (handle (fun _ => true))
              (onAvatarLoaded gltf initialViewerState) (loads ++ rest) in
  exists action,
    mixer st !! 2 = Some action /\ action_active action = true /\
    currentActionRef st = Some 2.
Proof.
  intros skeleton gltf t clip fbx loads rest st.
  assert (Hsk : sceneSkeleton gltf = Some skeleton) by by vm_compute.
  assert (Hloads : Forall (fun event => isLoadEvent event = true) loads)
    by repeat constructor.
  pose proof (one_action_active (fun _ => true) initialViewerState gltf
                skeleton loads rest Hsk (Forall_nil_2 _) Hloads eq_refl)
    as Hone.
  cbv zeta in Hone. fold st in Hone.
  assert (Ha : mixer st !! 2
               = Some (mkAnimationAction
                         (mkAnimationClip "mixamo.com" 1%Z
                            [mkKeyframeTrack QuaternionKeyframeTrack
                               "Hips.quaternion" [0]%Z [0; 0; 0; 1]%Z])
                         true)) by by vm_compute.
  eexists. split; [exact Ha|]. split; [reflexivity|].
  exact (Hone _ _ Ha eq_refl).
Defined.

(** Walking fails to load: the action registered first, for sitting, is
    started. *)
Lemma default_animation_witness :
  let skeleton := [mkBone "Hips" (mkQuaternion 0 0 0 1)%Z] in
  let gltf :=
    mkLoadedScene (mkObject3D GroupClass 0 [mkObject3D SkinnedMeshClass 1 []])
      (fun _ => Some skeleton) [] in
  let t := mkKeyframeTrack QuaternionKeyframeTrack "mixamorigHips.quaternion"
             [0]%Z [0; 0; 0; 1]%Z in
  let clip := mkAnimationClip "mixamo.com" 1%Z [t] in
  let fbx := mkLoadedScene (mkObject3D GroupClass 0 []) (fun _ => None)
               [clip] in
  let loads := [AnimationFailed walking; AnimationLoaded sitting fbx;
                AnimationLoaded happy fbx; AnimationFailed standing_up;
                AnimationFailed talking; AnimationFailed greeting] in
  let st := foldl (handle (fun _ => true))
              (onAvatarLoaded gltf initialViewerState) loads in
  Object_get "walking" (actionsRef st) = None /\
  actionsRef st = [("sitting", 0); ("happy", 1)] /\
  currentActionRef st = Some 0 /\
  exists action, mixer st !! 0 = Some action /\ action_active action = true.
Proof.
  intros skeleton gltf t clip fbx loads st.
  assert (Hw : Object_get "walking" (actionsRef st) = None) by by vm_compute.
  assert (Hr : actionsRef st = [("sitting", 0); ("happy", 1)])
    by by vm_compute.
  assert (Hsk : sceneSkeleton gltf = Some skeleton) by by vm_compute.
  assert (Hloads : Forall (fun event => isLoadEvent event = true) loads)
    by repeat constructor.
  assert (Hreg : forall k a, (k, a) ∈ actionsRef (F := Z) initialViewerState ->
                 a < length (mixer (F := Z) initialViewerState))
    by (intros k a Hin; by inversion Hin).
  pose proof (default_animation (fun _ => true) initialViewerState gltf
                skeleton loads Hsk Hreg Hloads eq_refl) as Hd.
  cbv zeta in Hd. fold st in Hd. rewrite Hw, Hr in Hd.
  split; [exact Hw|]. split; [exact Hr|]. exact Hd.
Defined.

(** Sitting is clicked while the loads are running: when the last load
    ends, the sitting action is still active and the walking action is
    started as well. *)
Lemma checkAllLoaded_keeps_active_witness :
  let skeleton := [mkBone "Hips" (mkQuaternion 0 0 0 1)%Z] in
  let gltf :=
    mkLoadedScene (mkObject3D GroupClass 0 [mkObject3D SkinnedMeshClass 1 []])
      (fun _ => Some skeleton) [] in
  let t := mkKeyframeTrack QuaternionKeyframeTrack "mixamorigHips.quaternion"
             [0]%Z [0; 0; 0; 1]%Z in
  let clip := mkAnimationClip "mixamo.com" 1%Z [t] in
  let fbx := mkLoadedScene (mkObject3D GroupClass 0 []) (fun _ => None)
               [clip] in
  let events := [AnimationLoaded walking fbx; AnimationLoaded sitting fbx;
                 ButtonClicked sitting; AnimationFailed standing_up;
                 AnimationFailed talking; AnimationFailed happy] in
  let st5 := foldl (handle (fun _ => true))
               (onAvatarLoaded gltf initialViewerState) events in
  let s := countLoaded (log [ErrorLoadFailed "greeting"] st5) in
  let retargeted := mkAnimationClip "mixamo.com" 1%Z
                      [mkKeyframeTrack QuaternionKeyframeTrack
                         "Hips.quaternion" [0]%Z [0; 0; 0; 1]%Z] in
  handle (fun _ => true) st5 (AnimationFailed greeting) = checkAllLoaded s /\
  currentActionRef (checkAllLoaded s) = Some 0 /\
  mixer (checkAllLoaded s) !! 1 = Some (mkAnimationAction retargeted true) /\
  mixer (checkAllLoaded s) !! 0 = Some (mkAnimationAction retargeted true).
Proof.
  intros skeleton gltf t clip fbx events st5 s retargeted.
  split; [reflexivity|].
  apply (checkAllLoaded_keeps_active s 1 0
           (mkAnimationAction retargeted true)
           (mkAnimationAction retargeted false));
    by vm_compute.
Defined.

(** An avatar of plain meshes: the error is set, and two clicks leave two
    reports. *)
Lemma viewer_without_skinned_mesh_witness :
  let gltf :=
    mkLoadedScene
      (mkObject3D GroupClass 0 [mkObject3D MeshClass 1 [];
                                mkObject3D MeshClass 2 []])
      (fun _ => None) [] in
  let clicks := [ButtonClicked walking; ButtonClicked happy] in
  foldl (handle (F := Z) (fun _ => true))
    (onAvatarLoaded gltf initialViewerState) clicks
  = mkViewerState [] [] [] false 0 None [] None false
      (Some "Failed to find skeleton in avatar model")
      [ErrorNoSkeleton; ErrorMixerNotInitialized; ErrorMixerNotInitialized].
Proof.
  intros gltf clicks.
  apply (viewer_without_skinned_mesh (fun _ => true) initialViewerState gltf
           clicks); repeat constructor.
Defined.
